(** * BLAKE3 (blake3-jit): the incremental hasher, the XOF reader and the
      scalar one-shot path, embedded from the TypeScript sources.

    Conventions of the embedding.

    - A JavaScript [number] that holds a length, an offset or a counter is a
      [Z].  Ordinary arithmetic ([+], [-], [*], [Math.min]) is exact; the
      bitwise operators wrap to 32 bits exactly as the language defines them
      ([JS.ToInt32], [JS.ToUint32]).
    - A [Uint32Array] is a [list Z] of fixed length: a store outside the
      array is ignored, a store inside it keeps the value modulo 2^32, a read
      outside it yields [undefined], which every consumer in these sources
      coerces to 0.
    - An input [Uint8Array] is a view: an underlying buffer, a byte offset
      and a length.  A [Uint32Array] view over a buffer needs a byte offset
      that is a multiple of 4; the constructor throws [RangeError] otherwise.
    - Code that can throw returns an [outcome]; loops take fuel, and
      [OutOfFuel] is returned when the fuel does not suffice. *)

From Stdlib Require Import ZArith List Lia Bool String Ascii.
Import ListNotations.
Local Open Scope Z_scope.

(** ** Outcomes of a call *)

Inductive exn : Type :=
| RangeError
| KeyLengthError (got : Z).

Inductive outcome (A : Type) : Type :=
| Returns (a : A)
| Throws (e : exn)
| OutOfFuel.
Arguments Returns {A} a.
Arguments Throws {A} e.
Arguments OutOfFuel {A}.

Definition bind {A B : Type} (m : outcome A) (k : A -> outcome B) : outcome B :=
  match m with
  | Returns a => k a
  | Throws e => Throws e
  | OutOfFuel => OutOfFuel
  end.

Declare Scope outcome_scope.
Delimit Scope outcome_scope with outcome.
Notation "x <- m ;; k" := (bind m (fun x => k))
  (at level 61, m at next level, right associativity) : outcome_scope.
Notation "' p <- m ;; k" := (bind m (fun x => match x with p => k end))
  (at level 61, p pattern, m at next level, right associativity) : outcome_scope.
Local Open Scope outcome_scope.

(** ** JavaScript numbers under the bitwise operators *)

Module JS.
Definition ToUint32 (z : Z) : Z := z mod 2 ^ 32.
Definition ToInt32 (z : Z) : Z := (z + 2 ^ 31) mod 2 ^ 32 - 2 ^ 31.
(** [a | b], [a & b], [a ^ b] *)
Definition bor (a b : Z) : Z := Z.lor (ToInt32 a) (ToInt32 b).
Definition band (a b : Z) : Z := Z.land (ToInt32 a) (ToInt32 b).
Definition bxor (a b : Z) : Z := Z.lxor (ToInt32 a) (ToInt32 b).
(** [a << n], [a >>> n] *)
Definition shl (a n : Z) : Z := ToInt32 (Z.shiftl (ToInt32 a) (Z.land (ToUint32 n) 31)).
Definition shru (a n : Z) : Z := Z.shiftr (ToUint32 a) (Z.land (ToUint32 n) 31).
End JS.

(** [for (let i = 0; i < n; i++) body], on an accumulated state. *)
Fixpoint for_from {S : Type} (count : nat) (i : Z) (body : Z -> S -> S) (s : S) : S :=
  match count with
  | O => s
  | Datatypes.S count' => for_from count' (i + 1) body (body i s)
  end.

Definition for_loop {S : Type} (n : Z) (body : Z -> S -> S) (s : S) : S :=
  for_from (Z.to_nat n) 0 body s.

Fixpoint list_upd {A : Type} (l : list A) (n : nat) (v : A) : list A :=
  match l, n with
  | [], _ => []
  | _ :: t, O => v :: t
  | h :: t, Datatypes.S n' => h :: list_upd t n' v
  end.

(** ** Typed arrays *)

Module Uint32Array.
Definition t : Type := list Z.

Definition make (n : Z) : t := repeat 0 (Z.to_nat n).
Definition length (a : t) : Z := Z.of_nat (List.length a).

(** [a[i]] read where the reader coerces [undefined] to 0. *)
Definition get (a : t) (i : Z) : Z :=
  if 0 <=? i then nth (Z.to_nat i) a 0 else 0.

(** [a[i] = v] *)
Definition store (a : t) (i v : Z) : t :=
  if (0 <=? i) && (i <? length a) then list_upd a (Z.to_nat i) (JS.ToUint32 v) else a.

(** [a.subarray(b, e)]: negative positions count from the end, both are
    clamped to the array. *)
Definition clamp (len p : Z) : Z :=
  if p <? 0 then Z.max (len + p) 0 else Z.min p len.

Definition subarray (a : t) (b e : Z) : t :=
  let rb := clamp (length a) b in
  let re := clamp (length a) e in
  firstn (Z.to_nat (Z.max (re - rb) 0)) (skipn (Z.to_nat rb) a).

(** [dst.set(src, off)] *)
Definition set (dst src : t) (off : Z) : outcome t :=
  if (0 <=? off) && (off + length src <=? length dst)
  then Returns (firstn (Z.to_nat off) dst ++ src
                  ++ skipn (Z.to_nat (off + length src)) dst)
  else Throws RangeError.

(** The word a little-endian host sees over four consecutive bytes. *)
Definition word_of_bytes (b0 b1 b2 b3 : Z) : Z :=
  b0 + 2 ^ 8 * b1 + 2 ^ 16 * b2 + 2 ^ 24 * b3.

Fixpoint words_of_bytes (count : nat) (bs : list Z) : list Z :=
  match count with
  | O => []
  | Datatypes.S count' =>
      word_of_bytes (nth 0 bs 0) (nth 1 bs 0) (nth 2 bs 0) (nth 3 bs 0)
        :: words_of_bytes count' (skipn 4 bs)
  end.

(** [new Uint32Array(buffer, byteOffset, len)] on a little-endian host. *)
Definition view (buffer : list Z) (byteOffset len : Z) : outcome t :=
  if negb (byteOffset mod 4 =? 0) then Throws RangeError
  else if (byteOffset <? 0) || (len <? 0)
          || (Z.of_nat (List.length buffer) <? byteOffset + 4 * len)
  then Throws RangeError
  else Returns (words_of_bytes (Z.to_nat len) (skipn (Z.to_nat byteOffset) buffer)).

(** The bytes a little-endian host sees over the words
    ([new Uint8Array(words.buffer)]). *)
Definition bytes_of_word (w : Z) : list Z :=
  [w mod 256; (w / 2 ^ 8) mod 256; (w / 2 ^ 16) mod 256; (w / 2 ^ 24) mod 256].

Definition bytes (a : t) : list Z := flat_map bytes_of_word a.
End Uint32Array.

Module Uint8Array.
(** An input view. *)
Record t : Type := mk { buffer : list Z; byteOffset : Z; length : Z }.

(** [new Uint8Array(bytes)]: a fresh array over its own buffer. *)
Definition of_list (bs : list Z) : t :=
  mk bs 0 (Z.of_nat (List.length bs)).

(** [a[i]] read where the reader coerces [undefined] to 0. *)
Definition get (a : t) (i : Z) : Z :=
  if (0 <=? i) && (i <? length a) then nth (Z.to_nat (byteOffset a + i)) (buffer a) 0 else 0.

(** A result array ([new Uint8Array(n)]) is a list of bytes. *)
Definition make (n : Z) : list Z := repeat 0 (Z.to_nat n).

(** [out[i] = v] on a result array. *)
Definition store (out : list Z) (i v : Z) : list Z :=
  if (0 <=? i) && (i <? Z.of_nat (List.length out))
  then list_upd out (Z.to_nat i) (v mod 256) else out.

(** [dst.set(src)] on result arrays. *)
Definition set (dst src : list Z) : outcome (list Z) :=
  if (List.length src <=? List.length dst)%nat
  then Returns (src ++ skipn (List.length src) dst)
  else Throws RangeError.
End Uint8Array.

(** ** Constants *)

(** Modelled from the spec: [src/constants.ts] is not among the sources; the
    values are those of the spec's sections 3 and 6. *)
Definition IV : list Z :=
  [0x6A09E667; 0xBB67AE85; 0x3C6EF372; 0xA54FF53A;
   0x510E527F; 0x9B05688C; 0x1F83D9AB; 0x5BE0CD19].
Definition CHUNK_START : Z := 1.
Definition CHUNK_END : Z := 2.
Definition PARENT : Z := 4.
Definition ROOT : Z := 8.
Definition KEYED_HASH : Z := 16.
Definition DERIVE_KEY_CONTEXT : Z := 32.
Definition DERIVE_KEY_MATERIAL : Z := 64.
Definition BLOCK_LEN : Z := 64.
Definition CHUNK_LEN : Z := 1024.
Definition OUT_LEN : Z := 32.
Definition KEY_LEN : Z := 32.
Definition MAX_DEPTH : Z := 54.

(** ** The environment: host endianness and the compression function *)

(** Modelled from the spec: [src/compress.ts] is not among the sources.  The
    compression function of section 4.1 maps (cv, block, counter, block_len,
    flags) to 16 words, of which "the caller selects which half to keep". *)
Class Env : Type := {
  IS_LITTLE_ENDIAN : bool;
  compress_words : list Z -> list Z -> Z -> Z -> Z -> list Z
}.

Section Compress.
Context `{Env}.

Definition read_words (a : Uint32Array.t) (off : Z) (n : Z) : list Z :=
  for_loop n (fun i acc => acc ++ [Uint32Array.get a (off + i)]) [].

Definition write_words (out : Uint32Array.t) (off : Z) (n : Z) (w : list Z) : Uint32Array.t :=
  for_loop n (fun i o => Uint32Array.store o (off + i) (nth (Z.to_nat i) w 0)) out.

(** [compress(cv, cvOffset, block, blockOffset, out, outOffset, fullOutput,
    counter, blockLen, flags)]: the new contents of [out]. *)
Definition compress (cv : Uint32Array.t) (cvOffset : Z)
    (block : Uint32Array.t) (blockOffset : Z)
    (out : Uint32Array.t) (outOffset : Z) (fullOutput : bool)
    (counter blockLen flags : Z) : Uint32Array.t :=
  write_words out outOffset (if fullOutput then 16 else 8)
    (compress_words (read_words cv cvOffset 8) (read_words block blockOffset 16)
       counter blockLen flags).
End Compress.

(** ** src/utils.ts *)

Definition readLittleEndianWordsFull (input : Uint8Array.t) (offset : Z)
    (words : Uint32Array.t) : Uint32Array.t :=
  for_loop 16 (fun i ws =>
    let off := offset + 4 * i in
    Uint32Array.store ws i
      (JS.bor (JS.bor (JS.bor (Uint8Array.get input off)
                              (JS.shl (Uint8Array.get input (off + 1)) 8))
                      (JS.shl (Uint8Array.get input (off + 2)) 16))
              (JS.shl (Uint8Array.get input (off + 3)) 24))) words.

Definition readLittleEndianWordsPartial (input : Uint8Array.t) (offset length : Z)
    (words : Uint32Array.t) : Uint32Array.t :=
  let zeroed := map (fun _ => 0) words in
  let fullWords := JS.shru length 2 in
  let ws := for_loop fullWords (fun i ws =>
    let off := offset + 4 * i in
    Uint32Array.store ws i
      (JS.bor (JS.bor (JS.bor (Uint8Array.get input off)
                              (JS.shl (Uint8Array.get input (off + 1)) 8))
                      (JS.shl (Uint8Array.get input (off + 2)) 16))
              (JS.shl (Uint8Array.get input (off + 3)) 24))) zeroed in
  let off := offset + 4 * fullWords in
  let remaining := JS.band length 3 in
  if remaining >? 0 then
    let word := Uint8Array.get input off in
    let word := if remaining >? 1
                then JS.bor word (JS.shl (Uint8Array.get input (off + 1)) 8) else word in
    let word := if remaining >? 2
                then JS.bor word (JS.shl (Uint8Array.get input (off + 2)) 16) else word in
    Uint32Array.store ws fullWords word
  else ws.

Definition writeLittleEndianBytesPartial (words : Uint32Array.t) (wordOffset : Z)
    (output : list Z) (byteOffset byteCount : Z) : list Z :=
  let fullWords := JS.shru byteCount 2 in
  let out := for_loop fullWords (fun i out =>
    let w := Uint32Array.get words (wordOffset + i) in
    let bo := byteOffset + 4 * i in
    let out := Uint8Array.store out bo (JS.band w 0xff) in
    let out := Uint8Array.store out (bo + 1) (JS.band (JS.shru w 8) 0xff) in
    let out := Uint8Array.store out (bo + 2) (JS.band (JS.shru w 16) 0xff) in
    Uint8Array.store out (bo + 3) (JS.band (JS.shru w 24) 0xff)) output in
  let i := fullWords in
  let bo := byteOffset + 4 * i in
  let remaining := JS.band byteCount 3 in
  if remaining >? 0 then
    let w := Uint32Array.get words (wordOffset + i) in
    let out := Uint8Array.store out bo (JS.band w 0xff) in
    let out := if remaining >? 1
               then Uint8Array.store out (bo + 1) (JS.band (JS.shru w 8) 0xff) else out in
    if remaining >? 2
    then Uint8Array.store out (bo + 2) (JS.band (JS.shru w 16) 0xff) else out
  else out.

(** ** src/hasher.ts: ChunkState *)

Module ChunkState.
Record t : Type := mk {
  chainingValue : Uint32Array.t;
  chunkCounter : Z;
  blockWords : Uint32Array.t;
  blockLen : Z;
  blocksCompressed : Z;
  flags : Z
}.

(** What [output()] returns; [inputCv] and [blockWords] alias the fields of
    the chunk state, which no caller writes through. *)
Record output_t : Type := mkOutput {
  o_inputCv : Uint32Array.t;
  o_blockWords : Uint32Array.t;
  o_blockLen : Z;
  o_counter : Z;
  o_flags : Z
}.

Definition new (keyWords : Uint32Array.t) (chunkCounter flags : Z) : t :=
  mk (map JS.ToUint32 keyWords) chunkCounter (Uint32Array.make 16) 0 0 flags.

Definition startFlag (cs : t) : Z :=
  if blocksCompressed cs =? 0 then CHUNK_START else 0.

Definition len (cs : t) : Z := blocksCompressed cs * BLOCK_LEN + blockLen cs.

Section WithEnv.
Context `{Env}.

(** The byte-by-byte branch of [update]. *)
Definition fill_partial (input : Uint8Array.t) (inputOffset : Z) (blockLen take : Z)
    (bw : Uint32Array.t) : Uint32Array.t :=
  for_loop take (fun i bw =>
    let pos := blockLen + i in
    let wordIdx := JS.shru pos 2 in
    let byteIdx := JS.band pos 3 in
    if byteIdx =? 0
    then Uint32Array.store bw wordIdx (Uint8Array.get input (inputOffset + i))
    else Uint32Array.store bw wordIdx
           (JS.bor (Uint32Array.get bw wordIdx)
                   (JS.shl (Uint8Array.get input (inputOffset + i)) (JS.shl byteIdx 3)))) bw.

(** One iteration of the [while (inputLen > 0)] loop of [update]. *)
Definition update_step (cs : t) (input : Uint8Array.t) (inputOffset inputLen : Z)
    : outcome (t * Z) :=
  let cs :=
    if blockLen cs =? BLOCK_LEN
    then mk (compress (chainingValue cs) 0 (blockWords cs) 0 (chainingValue cs) 0 false
               (chunkCounter cs) BLOCK_LEN (JS.bor (flags cs) (startFlag cs)))
            (chunkCounter cs) (blockWords cs) 0 (blocksCompressed cs + 1) (flags cs)
    else cs in
  let want := BLOCK_LEN - blockLen cs in
  let take := Z.min want inputLen in
  bw <- (if IS_LITTLE_ENDIAN && (blockLen cs =? 0) && (take =? BLOCK_LEN) then
           inputWords <- Uint32Array.view (Uint8Array.buffer input)
                           (Uint8Array.byteOffset input + inputOffset) 16 ;;
           Uint32Array.set (blockWords cs) inputWords 0
         else if (blockLen cs =? 0) && (take =? BLOCK_LEN) then
           Returns (readLittleEndianWordsFull input inputOffset (blockWords cs))
         else
           Returns (fill_partial input inputOffset (blockLen cs) take (blockWords cs))) ;;
  Returns (mk (chainingValue cs) (chunkCounter cs) bw (blockLen cs + take)
             (blocksCompressed cs) (flags cs), take).

Fixpoint update_loop (fuel : nat) (cs : t) (input : Uint8Array.t)
    (inputOffset inputLen consumed : Z) : outcome (t * Z) :=
  if inputLen >? 0 then
    match fuel with
    | O => OutOfFuel
    | S fuel' =>
        '(cs', take) <- update_step cs input inputOffset inputLen ;;
        update_loop fuel' cs' input (inputOffset + take) (inputLen - take) (consumed + take)
    end
  else Returns (cs, consumed).

(** [update(input, inputOffset, inputLen)]: the new state and the number
    of bytes consumed.  Every iteration takes at least one byte while
    [blockLen <= 64], so [inputLen] iterations suffice. *)
Definition update (cs : t) (input : Uint8Array.t) (inputOffset inputLen : Z)
    : outcome (t * Z) :=
  update_loop (Z.to_nat inputLen) cs input inputOffset inputLen 0.

(** [output()]: clears the unused words of the block buffer in place. *)
Definition output (cs : t) : output_t * t :=
  let usedWords := JS.shru (blockLen cs + 3) 2 in
  let bw := for_from (Z.to_nat (16 - usedWords)) usedWords
              (fun i bw => Uint32Array.store bw i 0) (blockWords cs) in
  (mkOutput (chainingValue cs) bw (blockLen cs) (chunkCounter cs)
     (JS.bor (JS.bor (flags cs) (startFlag cs)) CHUNK_END),
   mk (chainingValue cs) (chunkCounter cs) bw (blockLen cs) (blocksCompressed cs) (flags cs)).
End WithEnv.
End ChunkState.

(** ** src/hasher.ts: XofReader *)

Module XofReader.
Record t : Type := mk {
  inputCv : Uint32Array.t;
  blockWords : Uint32Array.t;
  counter : Z;
  blockLen : Z;
  flags : Z;
  outputBlock : Uint32Array.t;
  outputBlockOffset : Z
}.

Definition new (inputCv blockWords : Uint32Array.t) (counter blockLen flags : Z) : t :=
  mk inputCv blockWords counter blockLen (JS.bor flags ROOT) (Uint32Array.make 16) 64.

Section WithEnv.
Context `{Env}.

(** One iteration of the [while (outputOffset < length)] loop of [read]:
    the reader, the output array and the output offset after it. *)
Definition read_step (r : t) (output : list Z) (outputOffset length : Z)
    : t * list Z * Z :=
  let r :=
    if outputBlockOffset r >=? 64
    then mk (inputCv r) (blockWords r) (counter r + 1) (blockLen r) (flags r)
            (compress (inputCv r) 0 (blockWords r) 0 (outputBlock r) 0 true
               (counter r) (blockLen r) (flags r))
            0
    else r in
  let available := 64 - outputBlockOffset r in
  let toCopy := Z.min available (length - outputOffset) in
  let wordOffset := JS.shru (outputBlockOffset r) 2 in
  let byteWithinWord := JS.band (outputBlockOffset r) 3 in
  if (byteWithinWord =? 0) && (toCopy >=? 4) then
    let fullWords := JS.shru toCopy 2 in
    let output := writeLittleEndianBytesPartial (outputBlock r) wordOffset
                    output outputOffset (JS.shl fullWords 2) in
    let bytesCopied := JS.shl fullWords 2 in
    (mk (inputCv r) (blockWords r) (counter r) (blockLen r) (flags r)
        (outputBlock r) (outputBlockOffset r + bytesCopied),
     output, outputOffset + bytesCopied)
  else
    let output := for_loop toCopy (fun i output =>
      let wordIdx := JS.shru (outputBlockOffset r + i) 2 in
      let byteIdx := JS.band (outputBlockOffset r + i) 3 in
      Uint8Array.store output (outputOffset + i)
        (JS.band (JS.shru (Uint32Array.get (outputBlock r) wordIdx) (JS.shl byteIdx 3))
                 0xff)) output in
    (mk (inputCv r) (blockWords r) (counter r) (blockLen r) (flags r)
        (outputBlock r) (outputBlockOffset r + toCopy),
     output, outputOffset + toCopy).

Fixpoint read_loop (fuel : nat) (r : t) (output : list Z) (outputOffset length : Z)
    : outcome (list Z * t) :=
  if outputOffset <? length then
    match fuel with
    | O => OutOfFuel
    | S fuel' =>
        let '(r', output', outputOffset') := read_step r output outputOffset length in
        read_loop fuel' r' output' outputOffset' length
    end
  else Returns (output, r).

(** [read(length)]: the bytes and the reader afterwards.
    [new Uint8Array(length)] throws on a negative length. *)
Definition read (r : t) (length : Z) : outcome (list Z * t) :=
  if length <? 0 then Throws RangeError
  else read_loop (Z.to_nat length) r (Uint8Array.make length) 0 length.
End WithEnv.
End XofReader.

(** ** src/hasher.ts: Hasher *)

Module Hasher.
Record t : Type := mk {
  chunkState : ChunkState.t;
  keyWords : Uint32Array.t;
  cvStack : Uint32Array.t;
  cvStackLen : Z;
  flags : Z
}.

(** [new Hasher(keyWords, flags)]; [new Hasher()] is [new_ IV 0]. *)
Definition new_ (keyWords : Uint32Array.t) (flags : Z) : t :=
  let kw := map JS.ToUint32 keyWords in
  mk (ChunkState.new kw 0 flags) kw (Uint32Array.make (MAX_DEPTH * 8)) 0 flags.

Definition new : t := new_ IV 0.

Section WithEnv.
Context `{Env}.

(** [newKeyed(key)] *)
Definition newKeyed (key : Uint8Array.t) : outcome t :=
  if negb (Uint8Array.length key =? KEY_LEN)
  then Throws (KeyLengthError (Uint8Array.length key))
  else
    let keyWords := Uint32Array.make 8 in
    keyWords <-
      (if IS_LITTLE_ENDIAN then
         view <- Uint32Array.view (Uint8Array.buffer key) (Uint8Array.byteOffset key) 8 ;;
         Uint32Array.set keyWords view 0
       else
         Returns (for_loop 8 (fun i kw =>
           let off := i * 4 in
           Uint32Array.store kw i
             (JS.bor (JS.bor (JS.bor (Uint8Array.get key off)
                                     (JS.shl (Uint8Array.get key (off + 1)) 8))
                             (JS.shl (Uint8Array.get key (off + 2)) 16))
                     (JS.shl (Uint8Array.get key (off + 3)) 24))) keyWords)) ;;
    Returns (new_ keyWords KEYED_HASH).

(** [pushCv(cv, cvOffset)] *)
Definition pushCv (h : t) (cv : Uint32Array.t) (cvOffset : Z) : outcome t :=
  stack <- Uint32Array.set (cvStack h) (Uint32Array.subarray cv cvOffset (cvOffset + 8))
             (cvStackLen h * 8) ;;
  Returns (mk (chunkState h) (keyWords h) stack (cvStackLen h + 1) (flags h)).

(** [popCv(out, outOffset)]: the hasher and the new contents of [out]. *)
Definition popCv (h : t) (out : Uint32Array.t) (outOffset : Z)
    : outcome (t * Uint32Array.t) :=
  let n := cvStackLen h - 1 in
  out <- Uint32Array.set out (Uint32Array.subarray (cvStack h) (n * 8) ((n + 1) * 8))
           outOffset ;;
  Returns (mk (chunkState h) (keyWords h) (cvStack h) n (flags h), out).

(** The variables the merge loop of [addChunkCv] works on. *)
Record merge_t : Type := mkMerge {
  m_hasher : t;
  m_newCv : Uint32Array.t;
  m_newCvOffset : Z;
  m_totalChunks : Z;
  m_parentBlock : Uint32Array.t;
  m_parentCv : Uint32Array.t
}.

(** The guard of [while ((totalChunks & 1) === 0)]. *)
Definition merge_guard (m : merge_t) : bool :=
  JS.band (m_totalChunks m) 1 =? 0.

(** The body of the loop. *)
Definition merge_body (m : merge_t) : outcome merge_t :=
  '(h, parentBlock) <- popCv (m_hasher m) (m_parentBlock m) 0 ;;
  parentBlock <- Uint32Array.set parentBlock
                   (Uint32Array.subarray (m_newCv m) (m_newCvOffset m) (m_newCvOffset m + 8))
                   8 ;;
  let parentCv := compress (keyWords h) 0 parentBlock 0 (m_parentCv m) 0 false
                    0 BLOCK_LEN (JS.bor (flags h) PARENT) in
  Returns (mkMerge h parentCv 0 (JS.shru (m_totalChunks m) 1) parentBlock parentCv).

Fixpoint merge_loop (fuel : nat) (m : merge_t) : outcome merge_t :=
  if merge_guard m then
    match fuel with
    | O => OutOfFuel
    | S fuel' => m' <- merge_body m ;; merge_loop fuel' m'
    end
  else Returns m.

(** [addChunkCv(newCv, newCvOffset, totalChunks)].  After one iteration
    [totalChunks] is an unsigned 32-bit value, so the loop either leaves
    within 33 iterations or has reached [totalChunks = 0], where it stays. *)
Definition merge_start (h : t) (newCv : Uint32Array.t) (newCvOffset totalChunks : Z)
    : merge_t :=
  mkMerge h newCv newCvOffset totalChunks (Uint32Array.make 16) (Uint32Array.make 8).

Definition addChunkCv (h : t) (newCv : Uint32Array.t) (newCvOffset totalChunks : Z)
    : outcome t :=
  m <- merge_loop 33 (merge_start h newCv newCvOffset totalChunks) ;;
  pushCv (m_hasher m) (m_newCv m) (m_newCvOffset m).

(** The stack lengths the merge loop pops from, in order. *)
Fixpoint pops (fuel : nat) (m : merge_t) : list Z :=
  if merge_guard m then
    match fuel with
    | O => []
    | S fuel' =>
        cvStackLen (m_hasher m)
          :: match merge_body m with
             | Returns m' => pops fuel' m'
             | _ => []
             end
    end
  else [].

(** The body of [if (this.chunkState.len() === CHUNK_LEN)] in [update]:
    the current chunk is closed, its chaining value joins the stack and
    the next chunk is opened. *)
Definition rollChunk (h : t) : outcome t :=
  let '(output, cs) := ChunkState.output (chunkState h) in
  let h := mk cs (keyWords h) (cvStack h) (cvStackLen h) (flags h) in
  let chunkCv := compress (ChunkState.o_inputCv output) 0 (ChunkState.o_blockWords output) 0
                   (Uint32Array.make 8) 0 false (ChunkState.o_counter output)
                   (ChunkState.o_blockLen output) (ChunkState.o_flags output) in
  let totalChunks := ChunkState.chunkCounter (chunkState h) + 1 in
  h <- addChunkCv h chunkCv 0 totalChunks ;;
  Returns (mk (ChunkState.new (keyWords h) totalChunks (flags h))
             (keyWords h) (cvStack h) (cvStackLen h) (flags h)).

(** The state in which the merge loop of [rollChunk] starts. *)
Definition roll_start (h : t) : merge_t :=
  let '(output, cs) := ChunkState.output (chunkState h) in
  let h := mk cs (keyWords h) (cvStack h) (cvStackLen h) (flags h) in
  merge_start h
    (compress (ChunkState.o_inputCv output) 0 (ChunkState.o_blockWords output) 0
       (Uint32Array.make 8) 0 false (ChunkState.o_counter output)
       (ChunkState.o_blockLen output) (ChunkState.o_flags output))
    0 (ChunkState.chunkCounter (chunkState h) + 1).

(** One iteration of the [while (inputLen > 0)] loop of [update]. *)
Definition update_step (h : t) (input : Uint8Array.t) (inputOffset inputLen : Z)
    : outcome (t * Z) :=
  h <- (if ChunkState.len (chunkState h) =? CHUNK_LEN then rollChunk h else Returns h) ;;
  let want := CHUNK_LEN - ChunkState.len (chunkState h) in
  let take := Z.min want inputLen in
  '(cs, _) <- ChunkState.update (chunkState h) input inputOffset take ;;
  Returns (mk cs (keyWords h) (cvStack h) (cvStackLen h) (flags h), take).

Fixpoint update_loop (fuel : nat) (h : t) (input : Uint8Array.t)
    (inputOffset inputLen : Z) : outcome t :=
  if inputLen >? 0 then
    match fuel with
    | O => OutOfFuel
    | S fuel' =>
        '(h', take) <- update_step h input inputOffset inputLen ;;
        update_loop fuel' h' input (inputOffset + take) (inputLen - take)
    end
  else Returns h.

(** [update(input)] *)
Definition update (h : t) (input : Uint8Array.t) : outcome t :=
  update_loop (Z.to_nat (Uint8Array.length input)) h input 0 (Uint8Array.length input).

(** The loop [while (this.cvStackLen > 0)] of [finalizeOutput]; it leaves
    by [return] when the stack becomes empty. *)
Fixpoint finalize_loop (fuel : nat) (h : t) (parentBlock cv : Uint32Array.t)
    : outcome (option ChunkState.output_t * t) :=
  if cvStackLen h >? 0 then
    match fuel with
    | O => OutOfFuel
    | S fuel' =>
        let n := cvStackLen h - 1 in
        let h := mk (chunkState h) (keyWords h) (cvStack h) n (flags h) in
        parentBlock <- Uint32Array.set parentBlock
                         (Uint32Array.subarray (cvStack h) (n * 8) ((n + 1) * 8)) 0 ;;
        parentBlock <- Uint32Array.set parentBlock cv 8 ;;
        if cvStackLen h >? 0 then
          finalize_loop fuel' h parentBlock
            (compress (keyWords h) 0 parentBlock 0 cv 0 false 0 BLOCK_LEN
               (JS.bor (flags h) PARENT))
        else
          Returns (Some (ChunkState.mkOutput (keyWords h) parentBlock BLOCK_LEN 0
                           (JS.bor (flags h) PARENT)), h)
    end
  else Returns (None, h).

(** [finalizeOutput()]: the output parameters and the hasher afterwards. *)
Definition finalizeOutput (h : t) : outcome (ChunkState.output_t * t) :=
  let '(output, cs) := ChunkState.output (chunkState h) in
  let h := mk cs (keyWords h) (cvStack h) (cvStackLen h) (flags h) in
  let parentBlock := Uint32Array.make 16 in
  let cv := Uint32Array.make 8 in
  if cvStackLen h >? 0 then
    let cv := compress (ChunkState.o_inputCv output) 0 (ChunkState.o_blockWords output) 0
                cv 0 false (ChunkState.o_counter output) (ChunkState.o_blockLen output)
                (ChunkState.o_flags output) in
    '(root, h) <- finalize_loop (Z.to_nat (cvStackLen h)) h parentBlock cv ;;
    match root with
    | Some root => Returns (root, h)
    | None => Returns (output, h)
    end
  else Returns (output, h).

(** [finalizeXof()] *)
Definition finalizeXof (h : t) : outcome (XofReader.t * t) :=
  '(output, h) <- finalizeOutput h ;;
  Returns (XofReader.new (map JS.ToUint32 (ChunkState.o_inputCv output))
             (map JS.ToUint32 (ChunkState.o_blockWords output))
             (ChunkState.o_counter output) (ChunkState.o_blockLen output)
             (ChunkState.o_flags output), h).

(** The hashers that calls of [update] produce from a new one. *)
Inductive reachable (keyWords : Uint32Array.t) (flags : Z) : t -> Prop :=
| reach_new : reachable keyWords flags (new_ keyWords flags)
| reach_update h input h' :
    reachable keyWords flags h -> update h input = Returns h' ->
    reachable keyWords flags h'.

(** [finalize(outputLength)]: the digest and the hasher afterwards. *)
Definition finalize (h : t) (outputLength : Z) : outcome (list Z * t) :=
  '(output, h) <- finalizeOutput h ;;
  if outputLength <? 0 then Throws RangeError else
  let result := Uint8Array.make outputLength in
  if outputLength <=? 64 then
    let outWords := compress (ChunkState.o_inputCv output) 0
                      (ChunkState.o_blockWords output) 0 (Uint32Array.make 16) 0
                      (outputLength >? 32) (ChunkState.o_counter output)
                      (ChunkState.o_blockLen output)
                      (JS.bor (ChunkState.o_flags output) ROOT) in
    if IS_LITTLE_ENDIAN then
      result <- Uint8Array.set result
                  (firstn (Z.to_nat outputLength) (Uint32Array.bytes outWords)) ;;
      Returns (result, h)
    else
      Returns (writeLittleEndianBytesPartial outWords 0 result 0 outputLength, h)
  else
    '(xof, h) <- finalizeXof h ;;
    '(full, _) <- XofReader.read xof outputLength ;;
    result <- Uint8Array.set result full ;;
    Returns (result, h).
End WithEnv.
End Hasher.

(** ** The compression function *)

Module Spec.
Definition add32 (a b : Z) : Z := (a + b) mod 2 ^ 32.
Definition rotr32 (x n : Z) : Z :=
  Z.lor (Z.shiftr x n) ((Z.shiftl x (32 - n)) mod 2 ^ 32).

Definition st (s : list Z) (i : nat) : Z := nth i s 0.

(** Modelled from the spec: the mixing function G of section 4.1
    ([src/compress.ts] is not among the sources). *)
Definition G (s : list Z) (a b c d : nat) (mx my : Z) : list Z :=
  let s := list_upd s a (add32 (add32 (st s a) (st s b)) mx) in
  let s := list_upd s d (rotr32 (Z.lxor (st s d) (st s a)) 16) in
  let s := list_upd s c (add32 (st s c) (st s d)) in
  let s := list_upd s b (rotr32 (Z.lxor (st s b) (st s c)) 12) in
  let s := list_upd s a (add32 (add32 (st s a) (st s b)) my) in
  let s := list_upd s d (rotr32 (Z.lxor (st s d) (st s a)) 8) in
  let s := list_upd s c (add32 (st s c) (st s d)) in
  list_upd s b (rotr32 (Z.lxor (st s b) (st s c)) 7).

(** Modelled from the spec: the per-round message schedule of section 4.1. *)
Definition SCHEDULE : list (list nat) :=
  [[0; 1; 2; 3; 4; 5; 6; 7; 8; 9; 10; 11; 12; 13; 14; 15];
   [2; 6; 3; 10; 7; 0; 4; 13; 1; 11; 12; 5; 9; 14; 15; 8];
   [3; 4; 10; 12; 13; 2; 7; 14; 6; 5; 9; 0; 11; 15; 8; 1];
   [10; 7; 12; 9; 14; 3; 13; 15; 4; 0; 11; 2; 5; 8; 1; 6];
   [12; 13; 9; 11; 15; 10; 14; 8; 7; 2; 5; 3; 0; 1; 6; 4];
   [9; 14; 11; 5; 8; 12; 15; 1; 13; 3; 0; 10; 2; 6; 4; 7];
   [11; 15; 5; 0; 1; 9; 8; 6; 14; 10; 2; 12; 3; 4; 7; 13]]%nat.

Definition round (m : list Z) (s : list Z) (p : list nat) : list Z :=
  let w (i : nat) : Z := nth (nth i p 0%nat) m 0 in
  let s := G s 0 4 8 12 (w 0%nat) (w 1%nat) in
  let s := G s 1 5 9 13 (w 2%nat) (w 3%nat) in
  let s := G s 2 6 10 14 (w 4%nat) (w 5%nat) in
  let s := G s 3 7 11 15 (w 6%nat) (w 7%nat) in
  let s := G s 0 5 10 15 (w 8%nat) (w 9%nat) in
  let s := G s 1 6 11 12 (w 10%nat) (w 11%nat) in
  let s := G s 2 7 8 13 (w 12%nat) (w 13%nat) in
  G s 3 4 9 14 (w 14%nat) (w 15%nat).

(** Modelled from the spec: [compress(cv, block, counter, block_len, flags)
    -> out[16]] of section 4.1. *)
Definition compress (cv block : list Z) (counter blockLen flags : Z) : list Z :=
  let cv := map (fun i => nth i cv 0 mod 2 ^ 32) (seq 0 8) in
  let m := map (fun i => nth i block 0 mod 2 ^ 32) (seq 0 16) in
  let s0 := cv ++ firstn 4 IV
              ++ [counter mod 2 ^ 32; (counter / 2 ^ 32) mod 2 ^ 32;
                  blockLen mod 2 ^ 32; flags mod 2 ^ 32] in
  let s := fold_left (round m) SCHEDULE s0 in
  map (fun i => Z.lxor (st s i) (st s (i + 8))) (seq 0 8)
    ++ map (fun i => Z.lxor (st s (i + 8)) (st cv i)) (seq 0 8).

Definition env (little_endian : bool) : Env :=
  {| IS_LITTLE_ENDIAN := little_endian; compress_words := compress |}.
End Spec.

(** ** src/hash.ts: the scalar one-shot path *)

Module OneShot.
(** A call of [compress], as recorded by the trace. *)
Record call : Type := mkCall {
  c_cv : list Z;
  c_block : list Z;
  c_fullOutput : bool;
  c_counter : Z;
  c_blockLen : Z;
  c_flags : Z
}.

(** Computations of this module record their calls of [compress]. *)
Definition M (A : Type) : Type := list call -> outcome (A * list call).

Definition ret {A : Type} (a : A) : M A := fun tr => Returns (a, tr).
Definition bindM {A B : Type} (m : M A) (k : A -> M B) : M B :=
  fun tr => match m tr with
            | Returns (a, tr') => k a tr'
            | Throws e => Throws e
            | OutOfFuel => OutOfFuel
            end.
Definition lift {A : Type} (o : outcome A) : M A :=
  fun tr => match o with
            | Returns a => Returns (a, tr)
            | Throws e => Throws e
            | OutOfFuel => OutOfFuel
            end.
Definition out_of_fuel {A : Type} : M A := fun _ => OutOfFuel.

Declare Scope oneshot_scope.
Delimit Scope oneshot_scope with oneshot.
Notation "x <~ m ;; k" := (bindM m (fun x => k))
  (at level 61, m at next level, right associativity) : oneshot_scope.
Notation "' p <~ m ;; k" := (bindM m (fun x => match x with p => k end))
  (at level 61, p pattern, m at next level, right associativity) : oneshot_scope.
Local Open Scope oneshot_scope.

(** [for (let i = 0; i < n; i++) body] in [M]. *)
Fixpoint forM_from {S : Type} (count : nat) (i : Z) (body : Z -> S -> M S) (s : S) : M S :=
  match count with
  | O => ret s
  | Datatypes.S count' => s' <~ body i s ;; forM_from count' (i + 1) body s'
  end.

Definition copyCV8 (src : Uint32Array.t) (srcOff : Z) (dst : Uint32Array.t) (dstOff : Z)
    : Uint32Array.t :=
  for_loop 8 (fun i dst => Uint32Array.store dst (dstOff + i) (Uint32Array.get src (srcOff + i)))
    dst.

Section WithEnv.
Context `{Env}.

Definition compressM (cv : Uint32Array.t) (cvOffset : Z)
    (block : Uint32Array.t) (blockOffset : Z)
    (out : Uint32Array.t) (outOffset : Z) (fullOutput : bool)
    (counter blockLen flags : Z) : M Uint32Array.t :=
  fun tr =>
    Returns (compress cv cvOffset block blockOffset out outOffset fullOutput
               counter blockLen flags,
             tr ++ [mkCall (read_words cv cvOffset 8) (read_words block blockOffset 16)
                      fullOutput counter blockLen flags]).

(** The module-level scratch buffers ([blockWords], [reusableTempCv],
    [reusableChunkCv], the parent block and CV, [reusableOut8]) are
    written in full before each use, so every use starts from the
    contents written there; they appear below as local values. *)

(** [hashChunkWithWords]: the new contents of [cv]. *)
Definition hashChunkWithWords (input : Uint8Array.t) (inputWords : option Uint32Array.t)
    (inputOffset inputLen chunkCounter flags : Z) (cv : Uint32Array.t) (cvOffset : Z)
    : M Uint32Array.t :=
  let tempCv := IV in
  let fullBlocks := JS.shru inputLen 6 in
  let remainder := JS.band inputLen 63 in
  let chunkWordOffset := JS.shru inputOffset 2 in
  let fast := match inputWords with
              | Some _ => (remainder =? 0) && (inputLen =? CHUNK_LEN)
              | None => false
              end in
  if fast then
    let words := match inputWords with Some w => w | None => [] end in
    tempCv <~ compressM tempCv 0 words chunkWordOffset tempCv 0 false
                chunkCounter BLOCK_LEN (JS.bor flags CHUNK_START) ;;
    tempCv <~ forM_from 14 1 (fun i tempCv =>
                compressM tempCv 0 words (chunkWordOffset + 16 * i) tempCv 0 false
                  chunkCounter BLOCK_LEN flags) tempCv ;;
    tempCv <~ compressM tempCv 0 words (chunkWordOffset + 16 * 15) tempCv 0 false
                chunkCounter BLOCK_LEN (JS.bor flags CHUNK_END) ;;
    lift (Uint32Array.set cv tempCv cvOffset)
  else
    let totalBlocks := fullBlocks + (if remainder >? 0 then 1 else 0) in
    '(tempCv, _) <~ forM_from (Z.to_nat totalBlocks) 0 (fun blockIdx '(tempCv, block) =>
      let isFirst := blockIdx =? 0 in
      let isLast := blockIdx =? totalBlocks - 1 in
      let blockStart := JS.shl blockIdx 6 in
      let blockLen := if isLast && (remainder >? 0) then remainder else BLOCK_LEN in
      let blockFlags := flags in
      let blockFlags := if isFirst then JS.bor blockFlags CHUNK_START else blockFlags in
      let blockFlags := if isLast then JS.bor blockFlags CHUNK_END else blockFlags in
      let viaWords :=
        match inputWords with
        | Some words =>
            chunkWordOffset + JS.shru blockStart 2 + 16 <=? Uint32Array.length words
        | None => false
        end in
      if isLast && (remainder >? 0) then
        let block := readLittleEndianWordsPartial input (inputOffset + blockStart)
                       blockLen block in
        tempCv <~ compressM tempCv 0 block 0 tempCv 0 false chunkCounter blockLen blockFlags ;;
        ret (tempCv, block)
      else if viaWords then
        let words := match inputWords with Some w => w | None => [] end in
        tempCv <~ compressM tempCv 0 words (chunkWordOffset + JS.shru blockStart 2)
                    tempCv 0 false chunkCounter blockLen blockFlags ;;
        ret (tempCv, block)
      else
        let block := readLittleEndianWordsFull input (inputOffset + blockStart) block in
        tempCv <~ compressM tempCv 0 block 0 tempCv 0 false chunkCounter blockLen blockFlags ;;
        ret (tempCv, block)) (tempCv, Uint32Array.make 16) ;;
    lift (Uint32Array.set cv tempCv cvOffset).

(** [hashChunkRoot]: the new contents of [out]. *)
Definition hashChunkRoot (input : Uint8Array.t) (inputOffset inputLen chunkCounter flags : Z)
    (out : Uint32Array.t) (fullOutput : bool) : M Uint32Array.t :=
  let tempCv := IV in
  let fullBlocks := JS.shru inputLen 6 in
  let remainder := JS.band inputLen 63 in
  let totalBlocks :=
    let n := fullBlocks + (if remainder >? 0 then 1 else 0) in
    if n =? 0 then 1 else n in
  inputWords <~
    (if IS_LITTLE_ENDIAN
        && (Z.rem (Uint8Array.byteOffset input + inputOffset) 4 =? 0)
        && (inputLen >=? 4)
     then w <~ lift (Uint32Array.view (Uint8Array.buffer input)
                       (Uint8Array.byteOffset input + inputOffset) (JS.shru inputLen 2)) ;;
          ret (Some w)
     else ret None) ;;
  '(_, _, out) <~ forM_from (Z.to_nat totalBlocks) 0 (fun blockIdx '(tempCv, block, out) =>
    let isFirst := blockIdx =? 0 in
    let isLast := blockIdx =? totalBlocks - 1 in
    let blockStart := JS.shl blockIdx 6 in
    let blockLen :=
      if isLast
      then (if negb (remainder =? 0) then remainder
            else if inputLen >? 0 then BLOCK_LEN else 0)
      else BLOCK_LEN in
    let blockFlags := flags in
    let blockFlags := if isFirst then JS.bor blockFlags CHUNK_START else blockFlags in
    let blockFlags := if isLast then JS.bor blockFlags (JS.bor CHUNK_END ROOT)
                      else blockFlags in
    let viaWords :=
      match inputWords with
      | Some words => JS.shru blockStart 2 + 16 <=? Uint32Array.length words
      | None => false
      end in
    let finish (source : Uint32Array.t) (sourceOffset : Z) (block : Uint32Array.t) :=
      if isLast then
        out <~ compressM tempCv 0 source sourceOffset out 0 fullOutput
                 chunkCounter blockLen blockFlags ;;
        ret (tempCv, block, out)
      else
        tempCv <~ compressM tempCv 0 source sourceOffset tempCv 0 false
                    chunkCounter blockLen blockFlags ;;
        ret (tempCv, block, out) in
    if isLast && (remainder >? 0) then
      let block := readLittleEndianWordsPartial input (inputOffset + blockStart)
                     blockLen block in
      finish block 0 block
    else if inputLen =? 0 then
      let block := map (fun _ => 0) block in
      finish block 0 block
    else if viaWords then
      let words := match inputWords with Some w => w | None => [] end in
      finish words (JS.shru blockStart 2) block
    else
      let block := readLittleEndianWordsFull input (inputOffset + blockStart) block in
      finish block 0 block) (tempCv, Uint32Array.make 16, out) ;;
  ret out.

(** The output buffer for the root compression:
    [outputLen === 32 ? reusableOut8 : new Uint32Array(outputLen > 32 ? 16 : 8)]. *)
Definition out_buffer (outputLen : Z) : Uint32Array.t :=
  if outputLen =? 32 then Uint32Array.make 8
  else Uint32Array.make (if outputLen >? 32 then 16 else 8).

(** The return sequence that follows every root compression of
    [hashPureJS]: the first [outputLen] bytes of [out]. *)
Definition emit (out : Uint32Array.t) (outputLen : Z) : outcome (list Z) :=
  if (outputLen =? 32) && IS_LITTLE_ENDIAN then
    Returns (firstn 32 (Uint32Array.bytes out))
  else if outputLen <? 0 then Throws RangeError
  else
    let result := Uint8Array.make outputLen in
    if IS_LITTLE_ENDIAN then
      (* new Uint8Array(out.buffer, 0, outputLen) *)
      if outputLen >? 4 * Uint32Array.length out then Throws RangeError
      else Uint8Array.set result (firstn (Z.to_nat outputLen) (Uint32Array.bytes out))
    else Returns (writeLittleEndianBytesPartial out 0 result 0 outputLen).

(** The merge loop that follows every chunk of [hashPureJS]:
    [while ((totalChunks & 1) === 0 && stackLen > 0)], left early when the
    merge would produce the root.  It returns the stack, its length and
    the chaining value to push. *)
Fixpoint merge_loop (fuel : nat) (stack : Uint32Array.t) (stackLen : Z)
    (newCv : Uint32Array.t) (totalChunks : Z) (isLastChunk : bool)
    : M (Z * Uint32Array.t) :=
  if (JS.band totalChunks 1 =? 0) && (stackLen >? 0) then
    if (stackLen =? 1) && isLastChunk then ret (stackLen, newCv)
    else
      match fuel with
      | O => out_of_fuel
      | S fuel' =>
          let stackLen := stackLen - 1 in
          let parentBlock := copyCV8 stack (stackLen * 8) (Uint32Array.make 16) 0 in
          let parentBlock := copyCV8 newCv 0 parentBlock 8 in
          parentCv <~ compressM IV 0 parentBlock 0 (Uint32Array.make 8) 0 false
                        0 BLOCK_LEN PARENT ;;
          merge_loop fuel' stack stackLen parentCv (JS.shru totalChunks 1) isLastChunk
      end
  else ret (stackLen, newCv).

Definition merge_push (stack : Uint32Array.t) (stackLen : Z) (newCv : Uint32Array.t)
    (totalChunks : Z) (isLastChunk : bool) : M (Uint32Array.t * Z) :=
  '(stackLen, newCv) <~ merge_loop (Z.to_nat stackLen) stack stackLen newCv
                          totalChunks isLastChunk ;;
  ret (copyCV8 newCv 0 stack (stackLen * 8), stackLen + 1).

(** The loop [while (stackLen > 1)] of the finalization. *)
Fixpoint root_loop (fuel : nat) (stack : Uint32Array.t) (stackLen : Z) (outputLen : Z)
    : M (list Z) :=
  if stackLen >? 1 then
    match fuel with
    | O => out_of_fuel
    | S fuel' =>
        let rightOff := (stackLen - 1) * 8 in
        let stackLen := stackLen - 2 in
        let leftOff := stackLen * 8 in
        let parentBlock := copyCV8 stack leftOff (Uint32Array.make 16) 0 in
        let parentBlock := copyCV8 stack rightOff parentBlock 8 in
        if stackLen =? 0 then
          out <~ compressM IV 0 parentBlock 0 (out_buffer outputLen) 0 (outputLen >? 32)
                   0 BLOCK_LEN (JS.bor PARENT ROOT) ;;
          lift (emit out outputLen)
        else
          parentCv <~ compressM IV 0 parentBlock 0 (Uint32Array.make 8) 0 false
                        0 BLOCK_LEN PARENT ;;
          root_loop fuel' (copyCV8 parentCv 0 stack (stackLen * 8)) (stackLen + 1) outputLen
    end
  else
    let lastBlock := copyCV8 stack 0 (Uint32Array.make 16) 0 in
    out <~ compressM IV 0 lastBlock 0 (out_buffer outputLen) 0 (outputLen >? 32)
             0 BLOCK_LEN ROOT ;;
    lift (emit out outputLen).

(** The inlined chunk of the aligned little-endian path. *)
Definition full_chunk_cv (inputWords : Uint32Array.t) (chunkIdx : Z) : M Uint32Array.t :=
  let chunkCv := IV in
  let wordOff := JS.shl chunkIdx 8 in
  chunkCv <~ compressM chunkCv 0 inputWords wordOff chunkCv 0 false
               chunkIdx BLOCK_LEN CHUNK_START ;;
  chunkCv <~ forM_from 14 1 (fun b chunkCv =>
               compressM chunkCv 0 inputWords (wordOff + 16 * b) chunkCv 0 false
                 chunkIdx BLOCK_LEN 0) chunkCv ;;
  compressM chunkCv 0 inputWords (wordOff + 16 * 15) chunkCv 0 false
    chunkIdx BLOCK_LEN CHUNK_END.

(** [hashPureJS(input, outputLen)] *)
Definition hashPureJS (input : Uint8Array.t) (outputLen : Z) : M (list Z) :=
  let inputLen := Uint8Array.length input in
  if inputLen =? 0 then
    let block := Uint32Array.make 16 in
    out <~ compressM IV 0 block 0 (out_buffer outputLen) 0 (outputLen >? 32) 0 0
             (JS.bor (JS.bor CHUNK_START CHUNK_END) ROOT) ;;
    lift (emit out outputLen)
  else
    let numChunks := (inputLen + CHUNK_LEN - 1) / CHUNK_LEN in
    if numChunks =? 1 then
      cv <~ hashChunkRoot input 0 inputLen 0 0 (out_buffer outputLen) (outputLen >? 32) ;;
      lift (emit cv outputLen)
    else
      let stack := Uint32Array.make (64 * 8) in
      let canUseFastPath :=
        IS_LITTLE_ENDIAN && (Z.rem (Uint8Array.byteOffset input) 4 =? 0) in
      let fullChunks := JS.shru inputLen 10 in
      let lastChunkLen := JS.band inputLen 1023 in
      '(stack, stackLen) <~
        (if canUseFastPath then
           inputWords <~ lift (Uint32Array.view (Uint8Array.buffer input)
                                 (Uint8Array.byteOffset input) (JS.shru inputLen 2)) ;;
           '(stack, stackLen) <~ forM_from (Z.to_nat fullChunks) 0
             (fun chunkIdx '(stack, stackLen) =>
                chunkCv <~ full_chunk_cv inputWords chunkIdx ;;
                merge_push stack stackLen chunkCv (chunkIdx + 1)
                  ((chunkIdx =? fullChunks - 1) && (lastChunkLen =? 0)))
             (stack, 0) ;;
           if lastChunkLen >? 0 then
             chunkCv <~ hashChunkWithWords input (Some inputWords) (fullChunks * CHUNK_LEN)
                          lastChunkLen fullChunks 0 (Uint32Array.make 8) 0 ;;
             merge_push stack stackLen chunkCv (fullChunks + 1) true
           else ret (stack, stackLen)
         else
           forM_from (Z.to_nat numChunks) 0
             (fun chunkIdx '(stack, stackLen) =>
                let chunkStart := chunkIdx * CHUNK_LEN in
                let chunkLen := Z.min CHUNK_LEN (inputLen - chunkStart) in
                chunkCv <~ hashChunkWithWords input None chunkStart chunkLen chunkIdx 0
                             (Uint32Array.make 8) 0 ;;
                merge_push stack stackLen chunkCv (chunkIdx + 1)
                  (chunkIdx =? numChunks - 1))
             (stack, 0)) ;;
      root_loop (Z.to_nat stackLen) stack stackLen outputLen.

(** [hash(input, outputLength)]: inputs of [SIMD_THRESHOLD] bytes and more
    go to the WebAssembly path when it is available. *)
Definition SIMD_THRESHOLD : Z := 4 * CHUNK_LEN.

Definition hash (simdAvailable : bool) (hashSimd : Uint8Array.t -> Z -> M (list Z))
    (input : Uint8Array.t) (outputLength : Z) : M (list Z) :=
  if (Uint8Array.length input >=? SIMD_THRESHOLD) && simdAvailable
  then hashSimd input outputLength
  else hashPureJS input outputLength.
End WithEnv.
End OneShot.

(** ** src/wasm-simd.ts and microbench: the message schedule *)

Module Schedule.
(** [MSG_ACCESS_ORDER] of src/wasm-simd.ts. *)
Definition MSG_ACCESS_ORDER : list nat :=
  [0; 1; 2; 3; 4; 5; 6; 7; 8; 9; 10; 11; 12; 13; 14; 15;
   2; 6; 3; 10; 7; 0; 4; 13; 1; 11; 12; 5; 9; 14; 15; 8;
   3; 4; 10; 12; 13; 2; 7; 14; 6; 5; 9; 0; 11; 15; 8; 1;
   10; 7; 12; 9; 14; 3; 13; 15; 4; 0; 11; 2; 5; 8; 1; 6;
   12; 13; 9; 11; 15; 10; 14; 8; 7; 2; 5; 3; 0; 1; 6; 4;
   9; 14; 11; 5; 8; 12; 15; 1; 13; 3; 0; 10; 2; 6; 4; 7;
   11; 15; 5; 0; 1; 9; 8; 6; 14; 10; 2; 12; 3; 4; 7; 13]%nat.

(** One emitted application of G: the state indices and the two message
    words it consumes. *)
Record g_call : Type := mkG { g_a : nat; g_b : nat; g_c : nat; g_d : nat; g_mx : nat; g_my : nat }.

(** [g(a, b, c, d)] of the code generator: it takes
    [MSG_ACCESS_ORDER[msgIdx++]] twice. *)
Definition g (a b c d : nat) (st : nat * list g_call) : nat * list g_call :=
  let '(msgIdx, calls) := st in
  let mx := nth msgIdx MSG_ACCESS_ORDER 0%nat in
  let my := nth (msgIdx + 1) MSG_ACCESS_ORDER 0%nat in
  ((msgIdx + 2)%nat, calls ++ [mkG a b c d mx my]).

(** The body of [for (let round = 0; round < 7; round++)]. *)
Definition emit_round (st : nat * list g_call) : nat * list g_call :=
  let st := g 0 4 8 12 st in
  let st := g 1 5 9 13 st in
  let st := g 2 6 10 14 st in
  let st := g 3 7 11 15 st in
  let st := g 0 5 10 15 st in
  let st := g 1 6 11 12 st in
  let st := g 2 7 8 13 st in
  g 3 4 9 14 st.

(** The G applications of round [r], in the order they are emitted. *)
Definition round_calls (r : nat) : list g_call :=
  skipn (8 * r) (snd (emit_round (Nat.iter r emit_round (0%nat, [])))).

(** The message-word indices round [r] consumes, in order. *)
Definition round_indices (r : nat) : list nat :=
  flat_map (fun c => [g_mx c; g_my c]) (round_calls r).

(** [MSG_PERMUTATION] and [computePermutations()] of the WebAssembly
    micro-benchmark. *)
Definition MSG_PERMUTATION : list nat :=
  [2; 6; 3; 10; 7; 0; 4; 13; 1; 11; 12; 5; 9; 14; 15; 8]%nat.

Definition computePermutations : list (list nat) :=
  fst (Nat.iter 7 (fun '(perms, current) =>
         (perms ++ [current], map (fun p => nth p current 0%nat) MSG_PERMUTATION))
       ([], seq 0 16)).

(** The schedule as the spec words it: sigma applied [r] times to the
    identity order. *)
Definition sigma : list nat := [2; 6; 3; 10; 7; 0; 4; 13; 1; 11; 12; 5; 9; 14; 15; 8]%nat.
Definition apply_sigma (order : list nat) : list nat :=
  map (fun p => nth p order 0%nat) sigma.
Definition sigma_fold (r : nat) : list nat := Nat.iter r apply_sigma (seq 0 16).
End Schedule.

(** ** Auxiliary definitions for the statements *)

(** The number of set bits of a chunk count. *)
Fixpoint pos_popcount (p : positive) : Z :=
  match p with
  | xH => 1
  | xO q => pos_popcount q
  | xI q => 1 + pos_popcount q
  end.

Definition popcount (n : Z) : Z :=
  match n with
  | Zpos p => pos_popcount p
  | _ => 0
  end.

(** The 251-pattern of the official test vectors: byte [i] is [i mod 251]. *)
Definition pattern (n : nat) : list Z := map (fun i => Z.of_nat i mod 251) (seq 0 n).

(** Bytes written in hexadecimal. *)
Definition hex_value (c : ascii) : Z :=
  let n := Z.of_nat (nat_of_ascii c) in
  if (48 <=? n) && (n <=? 57) then n - 48
  else if (97 <=? n) && (n <=? 102) then n - 87
  else 0.

Fixpoint bytes_of_hex (s : string) : list Z :=
  match s with
  | String hi (String lo rest) => (16 * hex_value hi + hex_value lo) :: bytes_of_hex rest
  | _ => []
  end.

(** [new Hasher().update(input).finalize(n)] on a fresh input array. *)
Definition hasher_digest (e : Env) (input : list Z) (n : Z) : outcome (list Z) :=
  h <- @Hasher.update e Hasher.new (Uint8Array.of_list input) ;;
  '(d, _) <- @Hasher.finalize e h n ;;
  Returns d.

(** [hashPureJS(input, n)] on a fresh input array: the bytes returned. *)
Definition one_shot (e : Env) (input : list Z) (n : Z) : outcome (list Z) :=
  match @OneShot.hashPureJS e (Uint8Array.of_list input) n [] with
  | Returns (d, _) => Returns d
  | Throws x => Throws x
  | OutOfFuel => OutOfFuel
  end.

(** [new Hasher().update(input).finalizeXof().read(n)] on a fresh input array. *)
Definition hasher_xof (e : Env) (input : list Z) (n : Z) : outcome (list Z) :=
  h <- @Hasher.update e Hasher.new (Uint8Array.of_list input) ;;
  '(xof, _) <- @Hasher.finalizeXof e h ;;
  '(d, _) <- @XofReader.read e xof n ;;
  Returns d.

Definition returned {A : Type} (o : outcome A) : bool :=
  match o with Returns _ => true | _ => false end.

(** An environment with the given endianness and compression function. *)
Definition env_of (little_endian : bool)
    (cw : list Z -> list Z -> Z -> Z -> Z -> list Z) : Env :=
  {| IS_LITTLE_ENDIAN := little_endian; compress_words := cw |}.

(** [update(input)], then [finalize(n)] twice on the same hasher: the two
    digests and the stack length before and after the first [finalize]. *)
Definition finalize_twice (e : Env) (input : list Z) (n : Z)
    : outcome (list Z * list Z * Z * Z) :=
  h <- @Hasher.update e Hasher.new (Uint8Array.of_list input) ;;
  '(d1, h1) <- @Hasher.finalize e h n ;;
  '(d2, _) <- @Hasher.finalize e h1 n ;;
  Returns (d1, d2, Hasher.cvStackLen h, Hasher.cvStackLen h1).

(** [new Hasher().update(a).update(b).finalize(n)] on fresh input arrays. *)
Definition hasher_digest2 (e : Env) (a b : list Z) (n : Z) : outcome (list Z) :=
  h <- @Hasher.update e Hasher.new (Uint8Array.of_list a) ;;
  h <- @Hasher.update e h (Uint8Array.of_list b) ;;
  '(d, _) <- @Hasher.finalize e h n ;;
  Returns d.


(** The hasher after [new Hasher().update(input)] on a fresh input array. *)
Definition hasher_after (e : Env) (input : list Z) : Hasher.t :=
  match @Hasher.update e Hasher.new (Uint8Array.of_list input) with
  | Returns h => h
  | _ => Hasher.new
  end.

(** [update(a)], [finalize(n)], [update(b)], [finalize(n)] on one hasher:
    the second digest. *)
Definition finalize_between (e : Env) (a b : list Z) (n : Z) : outcome (list Z) :=
  h <- @Hasher.update e Hasher.new (Uint8Array.of_list a) ;;
  '(_, h) <- @Hasher.finalize e h n ;;
  h <- @Hasher.update e h (Uint8Array.of_list b) ;;
  '(d, _) <- @Hasher.finalize e h n ;;
  Returns d.

(** The XOF stream as the spec words it: the byte at logical offset [o] is
    byte [o mod 64] of the 64-byte extended output of compressing the seed of
    the reader (input CV, block, block length, flags with ROOT) with counter
    [o / 64]. *)
Definition xof_block {e : Env} (r : XofReader.t) (k : Z) : Uint32Array.t :=
  compress (XofReader.inputCv r) 0 (XofReader.blockWords r) 0 (Uint32Array.make 16) 0 true
    k (XofReader.blockLen r) (XofReader.flags r).

Definition xof_byte {e : Env} (r : XofReader.t) (o : Z) : Z :=
  nth (Z.to_nat (o mod 64)) (Uint32Array.bytes (xof_block r (o / 64))) 0.

(** The [n] bytes of the stream from offset [from] on. *)
Definition xof_bytes {e : Env} (r : XofReader.t) (from n : Z) : list Z :=
  map (fun i => xof_byte r (from + Z.of_nat i)) (seq 0 (Z.to_nat n)).

(** A sequence of [read] calls on one reader: the arrays returned, in order,
    and the reader afterwards. *)
Fixpoint read_all {e : Env} (r : XofReader.t) (lengths : list Z)
    : outcome (list (list Z) * XofReader.t) :=
  match lengths with
  | [] => Returns ([], r)
  | n :: lengths' =>
      '(out, r') <- XofReader.read r n ;;
      '(outs, r'') <- read_all r' lengths' ;;
      Returns (out :: outs, r'')
  end.

Definition sum_lengths (lengths : list Z) : Z := fold_right Z.add 0 lengths.

(** The bytes an input view shows. *)
Definition view_bytes (a : Uint8Array.t) : list Z :=
  firstn (Z.to_nat (Uint8Array.length a))
    (skipn (Z.to_nat (Uint8Array.byteOffset a)) (Uint8Array.buffer a)).

(** Bytes are values from 0 to 255. *)
Definition bytes_ok (bs : list Z) : Prop := Forall (fun b => 0 <= b < 256) bs.

(** ** Invariants *)

(** Two hashers that differ at most in the stack length. *)
Definition same_frame (h h' : Hasher.t) : Prop :=
  Hasher.chunkState h' = Hasher.chunkState h
  /\ Hasher.keyWords h' = Hasher.keyWords h
  /\ Hasher.cvStack h' = Hasher.cvStack h
  /\ Hasher.flags h' = Hasher.flags h.

(** What the accumulator keeps between two calls of [update]: the stack
    array has its capacity, the chunk counter [N] of the open chunk (the
    number of chunks pushed) is below 2^32, and the stack holds
    [popcount N] entries. *)
Definition acc_inv (h : Hasher.t) : Prop :=
  List.length (Hasher.cvStack h) = Z.to_nat (MAX_DEPTH * 8)
  /\ 0 <= ChunkState.chunkCounter (Hasher.chunkState h) < 2 ^ 32
  /\ Hasher.cvStackLen h = popcount (ChunkState.chunkCounter (Hasher.chunkState h)).

(** [l[j]] on a result array. *)
Definition zget (l : list Z) (j : Z) : Z := nth (Z.to_nat j) l 0.

(** The words of a typed array are unsigned 32-bit values. *)
Definition words_ok (ws : Uint32Array.t) : Prop :=
  forall k, 0 <= Uint32Array.get ws k < 2 ^ 32.

(** The four stores of one word. *)
Definition store_word (w : Z) (bo : Z) (out : list Z) : list Z :=
  let out := Uint8Array.store out bo (JS.band w 0xff) in
  let out := Uint8Array.store out (bo + 1) (JS.band (JS.shru w 8) 0xff) in
  let out := Uint8Array.store out (bo + 2) (JS.band (JS.shru w 16) 0xff) in
  Uint8Array.store out (bo + 3) (JS.band (JS.shru w 24) 0xff).

(** What a reader [r] keeps while it streams the seed of [r0] from
    counter 0: [pos] bytes have been handed out, and unless the buffered
    block is used up it is the block of the stream that holds byte [pos]. *)
Record reader_inv {e : Env} (r0 r : XofReader.t) (pos : Z) : Prop := {
  ri_cv : XofReader.inputCv r = XofReader.inputCv r0;
  ri_bw : XofReader.blockWords r = XofReader.blockWords r0;
  ri_bl : XofReader.blockLen r = XofReader.blockLen r0;
  ri_fl : XofReader.flags r = XofReader.flags r0;
  ri_off : 0 <= XofReader.outputBlockOffset r <= 64;
  ri_len : List.length (XofReader.outputBlock r) = 16%nat;
  ri_pos : pos = 64 * (XofReader.counter r - 1) + XofReader.outputBlockOffset r;
  ri_nonneg : 0 <= pos;
  ri_block : XofReader.outputBlockOffset r < 64 ->
             XofReader.outputBlock r = xof_block r0 (XofReader.counter r - 1)
}.

(** An input view lies inside its buffer. *)
Definition input_ok (input : Uint8Array.t) : Prop :=
  0 <= Uint8Array.byteOffset input
  /\ 0 <= Uint8Array.length input
  /\ Uint8Array.byteOffset input + Uint8Array.length input
     <= Z.of_nat (List.length (Uint8Array.buffer input)).

(** On a little-endian host the blocks of the input that [update] reads
    through a word view start at a multiple of 4 exactly when the block
    buffer and the input position are congruent modulo 4. *)
Definition aligned {e : Env} (input : Uint8Array.t) (inputOffset blockLen : Z) : Prop :=
  IS_LITTLE_ENDIAN = true ->
  (4 | Uint8Array.byteOffset input + inputOffset - blockLen).

(** What the open chunk keeps between two calls of [update]. *)
Definition chunk_inv (cs : ChunkState.t) : Prop :=
  0 <= ChunkState.blockLen cs <= 64
  /\ 0 <= ChunkState.blocksCompressed cs
  /\ ChunkState.len cs <= 1024
  /\ List.length (ChunkState.blockWords cs) = 16%nat.

(** The bytes a hasher has taken: 1024 for every chunk pushed, and the
    bytes of the open chunk. *)
Definition total (h : Hasher.t) : Z :=
  1024 * ChunkState.chunkCounter (Hasher.chunkState h) + ChunkState.len (Hasher.chunkState h).

(** What a hasher keeps between two calls of [update]. *)
Definition hasher_inv (h : Hasher.t) : Prop :=
  acc_inv h
  /\ chunk_inv (Hasher.chunkState h)
  /\ (ChunkState.len (Hasher.chunkState h) = 0 ->
      ChunkState.chunkCounter (Hasher.chunkState h) = 0).


(** ** More of JavaScript's numbers *)

Module JSMath.
(** [x >> k] *)
Definition shr (x k : Z) : Z := Z.shiftr (JS.ToInt32 x) (Z.land (JS.ToUint32 k) 31).
(** [Math.clz32(x)]: the number of leading zero bits of the 32-bit value. *)
Definition clz32 (x : Z) : Z :=
  let u := JS.ToUint32 x in
  if u =? 0 then 32 else 31 - Z.log2 u.
End JSMath.

(** ** src/wasm-simd.ts: LEB128 immediates of the generated module *)

Module Leb.
Definition toLebU32Min2 (n : Z) : list Z :=
  [JS.bor (JS.band n 0x7f) 0x80; JS.band (JS.shru n 7) 0x7f].

Definition toLebU32Padded5 (n : Z) : list Z :=
  [JS.bor (JS.band n 0x7f) 0x80;
   JS.bor (JS.band (JS.shru n 7) 0x7f) 0x80;
   JS.bor (JS.band (JS.shru n 14) 0x7f) 0x80;
   JS.bor (JS.band (JS.shru n 21) 0x7f) 0x80;
   JS.band (JS.shru n 28) 0x0f].

(** The loop [while (more)] of [toSignedLeb128_i32]; the same loop is
    [toSignedLeb128] of microbench/09-wasm-simd.ts. *)
Fixpoint signed_loop (fuel : nat) (value : Z) (bytes : list Z) : outcome (list Z) :=
  match fuel with
  | O => OutOfFuel
  | S fuel' =>
      let byte := JS.band value 0x7f in
      let value := JSMath.shr value 7 in
      if ((value =? 0) && (JS.band byte 0x40 =? 0))
         || ((value =? -1) && negb (JS.band byte 0x40 =? 0))
      then Returns (bytes ++ [byte])
      else signed_loop fuel' value (bytes ++ [JS.bor byte 0x80])
  end.

(** Five iterations exhaust a 32-bit value. *)
Definition toSignedLeb128_i32 (n : Z) : outcome (list Z) :=
  signed_loop 5 (JS.bor n 0) [].

(** What a reader of the module decodes from the bytes of an immediate:
    unsigned and signed LEB128, the whole list being one number. *)
Fixpoint unsigned_value (bytes : list Z) : option Z :=
  match bytes with
  | [] => None
  | b :: rest =>
      if b <? 128 then
        match rest with
        | [] => Some b
        | _ :: _ => None
        end
      else
        match unsigned_value rest with
        | Some v => Some (b - 128 + 128 * v)
        | None => None
        end
  end.

Fixpoint signed_value (bytes : list Z) : option Z :=
  match bytes with
  | [] => None
  | b :: rest =>
      if b <? 128 then
        match rest with
        | [] => Some (if b <? 64 then b else b - 128)
        | _ :: _ => None
        end
      else
        match signed_value rest with
        | Some v => Some (b - 128 + 128 * v)
        | None => None
        end
  end.
End Leb.

(** ** src/utils.ts: counting trailing zeros *)

Definition CTZ32_TABLE : list Z :=
  [0; 1; 28; 2; 29; 14; 24; 3; 30; 22; 20; 15; 25; 17; 4; 8; 31; 27; 13; 23; 21; 19; 16; 7;
   26; 12; 18; 6; 11; 5; 10; 9].

(** [(n & -n)] is 0 or a power of two up to sign, so the product with the
    De Bruijn constant is exact in double precision. *)
Definition ctz32 (n : Z) : Z :=
  if n =? 0 then 32
  else nth (Z.to_nat (JS.band (JS.shru (JS.band n (- n) * 0x077cb531) 27) 31)) CTZ32_TABLE 0.

(** The division is reached only for a multiple of 2^32, where it is exact. *)
Definition countTrailingZeros (n : Z) : Z :=
  if n =? 0 then 64
  else
    let low := JS.bor n 0 in
    if negb (low =? 0) then 31 - JSMath.clz32 (JS.band low (- low))
    else
      let high := JS.bor (n / 0x100000000) 0 in
      if negb (high =? 0) then 32 + (31 - JSMath.clz32 (JS.band high (- high)))
      else 64.

(** ** src/wasm-simd.ts: the layout of the WebAssembly memory *)

Module SIMD_MEMORY.
Definition BLOCK_WORDS : Z := 0.
Definition CHAINING_VALUES : Z := 512.
Definition OUTPUT : Z := 640.
Definition COUNTER_LOW : Z := 768.
Definition COUNTER_HIGH : Z := 784.
Definition BLOCK_LEN : Z := 800.
Definition FLAGS : Z := 816.
Definition BATCH_BLOCK_WORDS : Z := 832.
Definition BATCH_CV : Z := 4928.
Definition BATCH_COUNTER_LOW : Z := 5056.
Definition BATCH_FLAGS_BASE : Z := 5072.
Definition BATCH_OUTPUT : Z := 5088.
Definition CV_STACK : Z := 5216.
Definition PARENT_BLOCK : Z := 7264.
Definition CHUNK_CV : Z := 7328.
Definition TEMP_CVS : Z := 7360.
End SIMD_MEMORY.

(** The arguments of the calls of [toLebU32Min2] in [generateWasmBytes],
    [generateCompressChunks4xBody] and [generateCompressParentBody], in the
    order of the source: each is the immediate of an [i32.const]. *)
Definition toLebU32Min2_arguments : list Z :=
  map (fun i => i * 16) (map Z.of_nat (seq 0 16))
  ++ map (fun i => 512 + i * 16) (map Z.of_nat (seq 0 8))
  ++ [768; 784; 800; 816]
  ++ map (fun i => 640 + i * 16) (map Z.of_nat (seq 0 8))
  ++ map (fun i => SIMD_MEMORY.BATCH_CV + i * 16) (map Z.of_nat (seq 0 8))
  ++ flat_map (fun w => [256; SIMD_MEMORY.BATCH_BLOCK_WORDS + w * 16]) (map Z.of_nat (seq 0 16))
  ++ [SIMD_MEMORY.BATCH_COUNTER_LOW; SIMD_MEMORY.BATCH_FLAGS_BASE]
  ++ map (fun i => SIMD_MEMORY.BATCH_OUTPUT + i * 16) (map Z.of_nat (seq 0 8))
  ++ map (fun i => SIMD_MEMORY.PARENT_BLOCK + i * 4) (map Z.of_nat (seq 0 16))
  ++ map (fun i => SIMD_MEMORY.CHUNK_CV + i * 4) (map Z.of_nat (seq 0 8)).

(** ** src/utils.ts: words to bytes and back *)

Definition readLittleEndianWords (input : Uint8Array.t) (offset : Z)
    (words : Uint32Array.t) (wordCount : Z) : Uint32Array.t :=
  for_loop wordCount (fun i ws =>
    let off := offset + 4 * i in
    Uint32Array.store ws i
      (JS.bor (JS.bor (JS.bor (Uint8Array.get input off)
                              (JS.shl (Uint8Array.get input (off + 1)) 8))
                      (JS.shl (Uint8Array.get input (off + 2)) 16))
              (JS.shl (Uint8Array.get input (off + 3)) 24))) words.

Definition writeLittleEndianWords (words : Uint32Array.t) (wordOffset : Z)
    (output : list Z) (byteOffset : Z) : list Z :=
  for_loop 8 (fun i out =>
    let w := Uint32Array.get words (wordOffset + i) in
    let bo := byteOffset + 4 * i in
    let out := Uint8Array.store out bo (JS.band w 0xff) in
    let out := Uint8Array.store out (bo + 1) (JS.band (JS.shru w 8) 0xff) in
    let out := Uint8Array.store out (bo + 2) (JS.band (JS.shru w 16) 0xff) in
    Uint8Array.store out (bo + 3) (JS.band (JS.shru w 24) 0xff)) output.

(** The byte at position [k] of a block of [len] bytes that starts at
    [offset] of the input, padded with zeros. *)
Definition padded_byte (input : Uint8Array.t) (offset len k : Z) : Z :=
  if k <? len then Uint8Array.get input (offset + k) else 0.

(** Its little-endian word [i]. *)
Definition padded_word (input : Uint8Array.t) (offset len i : Z) : Z :=
  Uint32Array.word_of_bytes
    (padded_byte input offset len (4 * i)) (padded_byte input offset len (4 * i + 1))
    (padded_byte input offset len (4 * i + 2)) (padded_byte input offset len (4 * i + 3)).

(** ** src/utils.ts: encodeUTF8 *)

Module Utf8.
(** A string is the list of its UTF-16 code units.  [str.charCodeAt(i)]
    outside the string is [NaN], which [&] takes as 0. *)
Definition charCodeAt_and (str : list Z) (i mask : Z) : Z :=
  if (0 <=? i) && (i <? Z.of_nat (List.length str))
  then JS.band (nth (Z.to_nat i) str 0) mask
  else 0.

(** The loop of the fallback: [i] is in the string when the body runs. *)
Fixpoint encode_loop (fuel : nat) (str : list Z) (i : Z) (bytes : list Z)
    : outcome (list Z) :=
  if i <? Z.of_nat (List.length str) then
    match fuel with
    | O => OutOfFuel
    | S fuel' =>
        let c := nth (Z.to_nat i) str 0 in
        if c <? 0x80 then
          encode_loop fuel' str (i + 1) (bytes ++ [c])
        else if c <? 0x800 then
          encode_loop fuel' str (i + 1)
            (bytes ++ [JS.bor 0xc0 (JSMath.shr c 6); JS.bor 0x80 (JS.band c 0x3f)])
        else if (c <? 0xd800) || (c >=? 0xe000) then
          encode_loop fuel' str (i + 1)
            (bytes ++ [JS.bor 0xe0 (JSMath.shr c 12);
                       JS.bor 0x80 (JS.band (JSMath.shr c 6) 0x3f);
                       JS.bor 0x80 (JS.band c 0x3f)])
        else
          let i := i + 1 in
          let c := 0x10000 + JS.bor (JS.shl (JS.band c 0x3ff) 10)
                               (charCodeAt_and str i 0x3ff) in
          encode_loop fuel' str (i + 1)
            (bytes ++ [JS.bor 0xf0 (JSMath.shr c 18);
                       JS.bor 0x80 (JS.band (JSMath.shr c 12) 0x3f);
                       JS.bor 0x80 (JS.band (JSMath.shr c 6) 0x3f);
                       JS.bor 0x80 (JS.band c 0x3f)])
    end
  else Returns (map (fun b => b mod 256) bytes).

(** [encodeUTF8(str)]: the platform's [TextEncoder] where there is one,
    the loop otherwise; every iteration takes at least one code unit. *)
Definition encodeUTF8 (textEncoder : option (list Z -> list Z)) (str : list Z)
    : outcome (list Z) :=
  match textEncoder with
  | Some encode => Returns (encode str)
  | None => encode_loop (List.length str) str 0 []
  end.

(** Unicode's encoding forms of a scalar value: UTF-16 and UTF-8. *)
Definition scalar_value (cp : Z) : Prop :=
  0 <= cp < 0xD800 \/ 0xE000 <= cp < 0x110000.

Definition utf16 (cp : Z) : list Z :=
  if cp <? 0x10000 then [cp]
  else [0xD800 + (cp - 0x10000) / 1024; 0xDC00 + (cp - 0x10000) mod 1024].

Definition utf8 (cp : Z) : list Z :=
  if cp <? 0x80 then [cp]
  else if cp <? 0x800 then [0xC0 + cp / 64; 0x80 + cp mod 64]
  else if cp <? 0x10000 then
    [0xE0 + cp / 4096; 0x80 + (cp / 64) mod 64; 0x80 + cp mod 64]
  else
    [0xF0 + cp / 262144; 0x80 + (cp / 4096) mod 64; 0x80 + (cp / 64) mod 64;
     0x80 + cp mod 64].
End Utf8.

(** ** src/hasher.ts: Hasher.newDeriveKey *)

Section DeriveKey.
Context `{Env}.

(** [newDeriveKey(context)], the context being the code units of the
    string. *)
Definition newDeriveKey (textEncoder : option (list Z -> list Z)) (context : list Z)
    : outcome Hasher.t :=
  contextBytes <- Utf8.encodeUTF8 textEncoder context ;;
  let contextHasher := Hasher.new_ (map JS.ToUint32 IV) DERIVE_KEY_CONTEXT in
  contextHasher <- Hasher.update contextHasher (Uint8Array.of_list contextBytes) ;;
  let contextKey := Uint32Array.make 8 in
  '(output, _) <- Hasher.finalizeOutput contextHasher ;;
  let contextKey :=
    compress (ChunkState.o_inputCv output) 0 (ChunkState.o_blockWords output) 0
      contextKey 0 false (ChunkState.o_counter output) (ChunkState.o_blockLen output)
      (JS.bor (ChunkState.o_flags output) ROOT) in
  Returns (Hasher.new_ contextKey DERIVE_KEY_MATERIAL).
End DeriveKey.

(** ** src/hash.ts: hashInto *)

Module Into.
Import OneShot.
Local Open Scope oneshot_scope.

(** What a call of [hashInto] does: it throws the error of a buffer that is
    too small, or it runs one of the two paths. *)
Inductive result : Type :=
| OutputTooSmall (have want : Z)
| Ran (r : outcome (list Z * list call)).

Section WithEnv.
Context `{Env}.

(** [outputLen <= 32 ? reusableOut8 : new Uint32Array(16)] *)
Definition out_buffer (outputLen : Z) : Uint32Array.t :=
  if outputLen <=? 32 then Uint32Array.make 8 else Uint32Array.make 16.

(** The copy that follows the root compression of [hashPureJSInto]:
    [output.set(new Uint8Array(out.buffer, out.byteOffset, outputLen))], or
    [writeLittleEndianBytesPartial]. *)
Definition emit (out : Uint32Array.t) (output : list Z) (outputLen : Z)
    : outcome (list Z) :=
  if IS_LITTLE_ENDIAN then
    if (outputLen <? 0) || (outputLen >? 4 * Uint32Array.length out) then Throws RangeError
    else Uint8Array.set output (firstn (Z.to_nat outputLen) (Uint32Array.bytes out))
  else Returns (writeLittleEndianBytesPartial out 0 output 0 outputLen).

(** [hashPureJSInto(input, output, outputLen)]: the new contents of
    [output]. *)
Definition hashPureJSInto (input : Uint8Array.t) (output : list Z) (outputLen : Z)
    : M (list Z) :=
  let inputLen := Uint8Array.length input in
  if inputLen =? 0 then
    let block := Uint32Array.make 16 in
    out <~ compressM IV 0 block 0 (out_buffer outputLen) 0 (outputLen >? 32) 0 0
             (JS.bor (JS.bor CHUNK_START CHUNK_END) ROOT) ;;
    lift (emit out output outputLen)
  else
    let numChunks := (inputLen + CHUNK_LEN - 1) / CHUNK_LEN in
    if numChunks =? 1 then
      cv <~ hashChunkRoot input 0 inputLen 0 0 (out_buffer outputLen) (outputLen >? 32) ;;
      lift (emit cv output outputLen)
    else
      result <~ hashPureJS input outputLen ;;
      lift (Uint8Array.set output result).

(** [hashSimdInto(input, output, outputLen)] *)
Definition hashSimdInto (hashSimd : Uint8Array.t -> Z -> M (list Z))
    (input : Uint8Array.t) (output : list Z) (outputLen : Z) : M (list Z) :=
  result <~ hashSimd input outputLen ;;
  lift (Uint8Array.set output result).

(** [hashInto(input, output, outputLength)] *)
Definition hashInto (simdAvailable : bool) (hashSimd : Uint8Array.t -> Z -> M (list Z))
    (input : Uint8Array.t) (output : list Z) (outputLength : Z) (tr : list call)
    : result :=
  if Z.of_nat (List.length output) <? outputLength
  then OutputTooSmall (Z.of_nat (List.length output)) outputLength
  else if (Uint8Array.length input >=? SIMD_THRESHOLD) && simdAvailable
       then Ran (hashSimdInto hashSimd input output outputLength tr)
       else Ran (hashPureJSInto input output outputLength tr).
End WithEnv.
End Into.

(** ** src/hash.ts: the transposed layout of the 4-way path *)

Module Simd.
Definition SIMD_CV_BASE : Z := SIMD_MEMORY.CHAINING_VALUES / 4.
Definition SIMD_OUT_BASE : Z := SIMD_MEMORY.OUTPUT / 4.
Definition SIMD_COUNTER_LOW_BASE : Z := SIMD_MEMORY.COUNTER_LOW / 4.
Definition SIMD_COUNTER_HIGH_BASE : Z := SIMD_MEMORY.COUNTER_HIGH / 4.
Definition SIMD_BLOCK_LEN_BASE : Z := SIMD_MEMORY.BLOCK_LEN / 4.
Definition SIMD_FLAGS_BASE : Z := SIMD_MEMORY.FLAGS / 4.

(** [setupSimdCvs(cvs, mem32, count)]: the new contents of [mem32]. *)
Definition setupSimdCvs (cvs mem32 : Uint32Array.t) (count : Z) : Uint32Array.t :=
  if count =? 4 then
    for_loop 8 (fun w mem32 =>
      let base := SIMD_CV_BASE + w * 4 in
      let mem32 := Uint32Array.store mem32 base (Uint32Array.get cvs w) in
      let mem32 := Uint32Array.store mem32 (base + 1) (Uint32Array.get cvs (8 + w)) in
      let mem32 := Uint32Array.store mem32 (base + 2) (Uint32Array.get cvs (16 + w)) in
      Uint32Array.store mem32 (base + 3) (Uint32Array.get cvs (24 + w))) mem32
  else
    for_loop 8 (fun w mem32 =>
      let base := SIMD_CV_BASE + w * 4 in
      let mem32 := for_loop count (fun c mem32 =>
                     Uint32Array.store mem32 (base + c) (Uint32Array.get cvs (c * 8 + w)))
                     mem32 in
      for_from (Z.to_nat (4 - count)) count (fun c mem32 =>
        Uint32Array.store mem32 (base + c) 0) mem32) mem32.

(** [setupSimdParams(mem32, counters, blockLens, flagsArr, count)] *)
Definition setupSimdParams (mem32 counters blockLens flagsArr : Uint32Array.t) (count : Z)
    : Uint32Array.t :=
  let mem32 := for_loop count (fun i mem32 =>
    let mem32 := Uint32Array.store mem32 (SIMD_COUNTER_LOW_BASE + i)
                   (Uint32Array.get counters i) in
    let mem32 := Uint32Array.store mem32 (SIMD_COUNTER_HIGH_BASE + i) 0 in
    let mem32 := Uint32Array.store mem32 (SIMD_BLOCK_LEN_BASE + i)
                   (Uint32Array.get blockLens i) in
    Uint32Array.store mem32 (SIMD_FLAGS_BASE + i) (Uint32Array.get flagsArr i)) mem32 in
  for_from (Z.to_nat (4 - count)) count (fun i mem32 =>
    let mem32 := Uint32Array.store mem32 (SIMD_COUNTER_LOW_BASE + i) 0 in
    let mem32 := Uint32Array.store mem32 (SIMD_COUNTER_HIGH_BASE + i) 0 in
    let mem32 := Uint32Array.store mem32 (SIMD_BLOCK_LEN_BASE + i) 0 in
    Uint32Array.store mem32 (SIMD_FLAGS_BASE + i) 0) mem32.

(** [readSimdOutputCvs(mem32, outputCvs, count)]: the new contents of
    [outputCvs]. *)
Definition readSimdOutputCvs (mem32 outputCvs : Uint32Array.t) (count : Z) : Uint32Array.t :=
  if count =? 4 then
    for_loop 8 (fun w outputCvs =>
      let base := SIMD_OUT_BASE + w * 4 in
      let outputCvs := Uint32Array.store outputCvs w (Uint32Array.get mem32 base) in
      let outputCvs := Uint32Array.store outputCvs (8 + w) (Uint32Array.get mem32 (base + 1)) in
      let outputCvs := Uint32Array.store outputCvs (16 + w) (Uint32Array.get mem32 (base + 2)) in
      Uint32Array.store outputCvs (24 + w) (Uint32Array.get mem32 (base + 3))) outputCvs
  else
    for_loop 8 (fun w outputCvs =>
      let base := SIMD_OUT_BASE + w * 4 in
      for_loop count (fun c outputCvs =>
        Uint32Array.store outputCvs (c * 8 + w) (Uint32Array.get mem32 (base + c)))
        outputCvs) outputCvs.

(** The word [input[o] | input[o+1] << 8 | input[o+2] << 16 | input[o+3] << 24]. *)
Definition word_at (input : Uint8Array.t) (o : Z) : Z :=
  JS.bor (JS.bor (JS.bor (Uint8Array.get input o)
                         (JS.shl (Uint8Array.get input (o + 1)) 8))
                 (JS.shl (Uint8Array.get input (o + 2)) 16))
         (JS.shl (Uint8Array.get input (o + 3)) 24).

(** One iteration of the loop [for (let b = 0; b < blockCount; b++)] of
    [transposeBlocksToSimd]. *)
Definition transpose_block (input : Uint8Array.t) (offsets blockLens : Uint32Array.t)
    (inputWords : option Uint32Array.t) (b : Z) (mem32 : Uint32Array.t) : Uint32Array.t :=
  let len := Uint32Array.get blockLens b in
  let off := Uint32Array.get offsets b in
  if len =? 64 then
    match inputWords with
    | Some words =>
        if Z.rem off 4 =? 0 then
          let wordOff := JS.shru off 2 in
          for_loop 16 (fun w mem32 =>
            Uint32Array.store mem32 (w * 4 + b) (Uint32Array.get words (wordOff + w))) mem32
        else
          for_loop 16 (fun w mem32 =>
            Uint32Array.store mem32 (w * 4 + b) (word_at input (off + w * 4))) mem32
    | None =>
        for_loop 16 (fun w mem32 =>
          Uint32Array.store mem32 (w * 4 + b) (word_at input (off + w * 4))) mem32
    end
  else if len =? 0 then
    for_loop 16 (fun w mem32 => Uint32Array.store mem32 (w * 4 + b) 0) mem32
  else
    for_loop 16 (fun w mem32 =>
      let wordOff := w * 4 in
      if wordOff >=? len then Uint32Array.store mem32 (w * 4 + b) 0
      else if wordOff + 4 <=? len then
        Uint32Array.store mem32 (w * 4 + b) (word_at input (off + wordOff))
      else
        let word := for_loop (len - wordOff) (fun i word =>
                      JS.bor word (JS.shl (Uint8Array.get input (off + wordOff + i)) (i * 8)))
                      0 in
        Uint32Array.store mem32 (w * 4 + b) word) mem32.

(** [transposeBlocksToSimd(input, offsets, blockLens, mem32, blockCount,
    inputWords)]: the new contents of [mem32]. *)
Definition transposeBlocksToSimd (input : Uint8Array.t) (offsets blockLens mem32 : Uint32Array.t)
    (blockCount : Z) (inputWords : option Uint32Array.t) : Uint32Array.t :=
  let allFull :=
    (blockCount =? 4)
    && (Uint32Array.get blockLens 0 =? 64) && (Uint32Array.get blockLens 1 =? 64)
    && (Uint32Array.get blockLens 2 =? 64) && (Uint32Array.get blockLens 3 =? 64) in
  let allAligned :=
    (Z.rem (Uint32Array.get offsets 0) 4 =? 0) && (Z.rem (Uint32Array.get offsets 1) 4 =? 0)
    && (Z.rem (Uint32Array.get offsets 2) 4 =? 0)
    && (Z.rem (Uint32Array.get offsets 3) 4 =? 0) in
  let standard :=
    let mem32 := for_loop blockCount (transpose_block input offsets blockLens inputWords)
                   mem32 in
    for_from (Z.to_nat (4 - blockCount)) blockCount (fun b mem32 =>
      for_loop 16 (fun w mem32 => Uint32Array.store mem32 (w * 4 + b) 0) mem32) mem32 in
  match inputWords with
  | Some words =>
      if allFull && allAligned then
        let wordOff0 := JS.shru (Uint32Array.get offsets 0) 2 in
        let wordOff1 := JS.shru (Uint32Array.get offsets 1) 2 in
        let wordOff2 := JS.shru (Uint32Array.get offsets 2) 2 in
        let wordOff3 := JS.shru (Uint32Array.get offsets 3) 2 in
        for_loop 16 (fun w mem32 =>
          let dstBase := w * 4 in
          let mem32 := Uint32Array.store mem32 dstBase (Uint32Array.get words (wordOff0 + w)) in
          let mem32 := Uint32Array.store mem32 (dstBase + 1)
                         (Uint32Array.get words (wordOff1 + w)) in
          let mem32 := Uint32Array.store mem32 (dstBase + 2)
                         (Uint32Array.get words (wordOff2 + w)) in
          Uint32Array.store mem32 (dstBase + 3) (Uint32Array.get words (wordOff3 + w))) mem32
      else standard
  | None => standard
  end.
End Simd.

(** A list of stores, made in order. *)
Definition apply_writes (ws : list (Z * Z)) (m : Uint32Array.t) : Uint32Array.t :=
  fold_left (fun m w => Uint32Array.store m (fst w) (snd w)) ws m.

(** The stores of [setupSimdCvs], of [setupSimdParams] and of
    [readSimdOutputCvs] in iteration [w], for a count from 0 to 4. *)
Definition cv_writes (cvs : Uint32Array.t) (count w : Z) : list (Z * Z) :=
  [(Simd.SIMD_CV_BASE + w * 4 + 0, if 0 <? count then Uint32Array.get cvs (0 * 8 + w) else 0);
   (Simd.SIMD_CV_BASE + w * 4 + 1, if 1 <? count then Uint32Array.get cvs (1 * 8 + w) else 0);
   (Simd.SIMD_CV_BASE + w * 4 + 2, if 2 <? count then Uint32Array.get cvs (2 * 8 + w) else 0);
   (Simd.SIMD_CV_BASE + w * 4 + 3, if 3 <? count then Uint32Array.get cvs (3 * 8 + w) else 0)].

Definition param_writes (counters blockLens flagsArr : Uint32Array.t) (count i : Z)
    : list (Z * Z) :=
  [(Simd.SIMD_COUNTER_LOW_BASE + i, if i <? count then Uint32Array.get counters i else 0);
   (Simd.SIMD_COUNTER_HIGH_BASE + i, 0);
   (Simd.SIMD_BLOCK_LEN_BASE + i, if i <? count then Uint32Array.get blockLens i else 0);
   (Simd.SIMD_FLAGS_BASE + i, if i <? count then Uint32Array.get flagsArr i else 0)].

Definition out_writes (mem32 : Uint32Array.t) (count w : Z) : list (Z * Z) :=
  (if 0 <? count then [(0 * 8 + w, Uint32Array.get mem32 (Simd.SIMD_OUT_BASE + w * 4 + 0))]
   else [])
  ++ (if 1 <? count then [(1 * 8 + w, Uint32Array.get mem32 (Simd.SIMD_OUT_BASE + w * 4 + 1))]
      else [])
  ++ (if 2 <? count then [(2 * 8 + w, Uint32Array.get mem32 (Simd.SIMD_OUT_BASE + w * 4 + 2))]
      else [])
  ++ (if 3 <? count then [(3 * 8 + w, Uint32Array.get mem32 (Simd.SIMD_OUT_BASE + w * 4 + 3))]
      else []).

(** [inputWords], where there is one, shows the input as little-endian
    words: word [k] for the four bytes from [4 k], as far as the input has
    the four. *)
Definition word_view (input : Uint8Array.t) (inputWords : option Uint32Array.t) : Prop :=
  match inputWords with
  | Some words =>
      forall k, 0 <= k -> 4 * k + 4 <= Uint8Array.length input ->
        Uint32Array.get words k
        = Uint32Array.word_of_bytes (Uint8Array.get input (4 * k))
            (Uint8Array.get input (4 * k + 1)) (Uint8Array.get input (4 * k + 2))
            (Uint8Array.get input (4 * k + 3))
  | None => True
  end.

(** A step that writes the 16 words of lane [b], [v w] as word [w], and
    nothing else. *)
Definition lane_spec (b : Z) (v : Z -> Z) (m m' : Uint32Array.t) : Prop :=
  List.length m' = List.length m
  /\ (forall w, 0 <= w < 16 -> Uint32Array.get m' (w * 4 + b) = v w)
  /\ (forall j, (forall w, 0 <= w < 16 -> j <> w * 4 + b) ->
                Uint32Array.get m' j = Uint32Array.get m j).

(** ** A hasher used again after [finalize] *)

(** [h = new Hasher().update(input)] on a fresh input array, then
    [h.finalize(n)]: the hasher afterwards. *)
Definition hasher_after_finalize (e : Env) (input : list Z) (n : Z) : outcome Hasher.t :=
  h <- @Hasher.update e Hasher.new (Uint8Array.of_list input) ;;
  '(_, h) <- @Hasher.finalize e h n ;;
  Returns h.

(** [h = new Hasher().update(input)], [h.finalize(n)], [r = h.finalizeXof()],
    [r.read(k)]: the reader as [finalizeXof] returns it, and the bytes read. *)
Definition xof_after_finalize (e : Env) (input : list Z) (n k : Z)
    : outcome (XofReader.t * list Z) :=
  h <- hasher_after_finalize e input n ;;
  '(r, _) <- @Hasher.finalizeXof e h ;;
  '(out, _) <- @XofReader.read e r k ;;
  Returns (r, out).
(** * Theorems *)

(** ** Bit operations on small numbers *)

Lemma ToUint32_small (z : Z) : 0 <= z < 2 ^ 32 -> JS.ToUint32 z = z.
Proof. intros Hz. unfold JS.ToUint32. apply Z.mod_small. exact Hz. Qed.

Lemma ToInt32_small (z : Z) : - 2 ^ 31 <= z < 2 ^ 31 -> JS.ToInt32 z = z.
Proof.
  intros Hz. unfold JS.ToInt32.
  rewrite Z.mod_small by lia. lia.
Qed.

Lemma ToInt32_mod (z k : Z) : 0 <= k <= 32 -> JS.ToInt32 z mod 2 ^ k = z mod 2 ^ k.
Proof.
  intros Hk. unfold JS.ToInt32.
  rewrite (Z.mod_eq (z + 2 ^ 31) (2 ^ 32)) by lia.
  replace (z + 2 ^ 31 - 2 ^ 32 * ((z + 2 ^ 31) / 2 ^ 32) - 2 ^ 31)
    with (z + (- ((z + 2 ^ 31) / 2 ^ 32) * 2 ^ (32 - k)) * 2 ^ k).
  - apply Z_mod_plus_full.
  - replace (2 ^ 32) with (2 ^ (32 - k) * 2 ^ k)
      by (rewrite <- Z.pow_add_r by lia; f_equal; lia).
    ring.
Qed.

Lemma band_ones (z k : Z) : 0 <= k < 31 -> JS.band z (2 ^ k - 1) = z mod 2 ^ k.
Proof.
  intros Hk. unfold JS.band.
  assert (Hp : 0 < 2 ^ k < 2 ^ 31).
  { split; [apply Z.pow_pos_nonneg; lia|apply Z.pow_lt_mono_r; lia]. }
  rewrite (ToInt32_small (2 ^ k - 1)) by lia.
  replace (2 ^ k - 1) with (Z.ones k) by (rewrite Z.ones_equiv; lia).
  rewrite Z.land_ones by lia.
  apply ToInt32_mod. lia.
Qed.

Lemma band_1 (z : Z) : JS.band z 1 = z mod 2.
Proof. apply (band_ones z 1). lia. Qed.

Lemma band_3 (z : Z) : JS.band z 3 = z mod 4.
Proof. apply (band_ones z 2). lia. Qed.

Lemma band_255 (z : Z) : JS.band z 255 = z mod 256.
Proof. apply (band_ones z 8). lia. Qed.

Lemma shru_small (z k : Z) :
  0 <= z < 2 ^ 32 -> 0 <= k < 32 -> JS.shru z k = z / 2 ^ k.
Proof.
  intros Hz Hk. unfold JS.shru.
  rewrite (ToUint32_small z) by exact Hz.
  rewrite (ToUint32_small k) by lia.
  replace 31 with (Z.ones 5) by reflexivity.
  rewrite Z.land_ones by lia.
  rewrite Z.mod_small by (change (2 ^ 5) with 32; lia).
  apply Z.shiftr_div_pow2. lia.
Qed.

Lemma shl_small (z k : Z) :
  0 <= z -> 0 <= k < 32 -> z * 2 ^ k < 2 ^ 31 -> JS.shl z k = z * 2 ^ k.
Proof.
  intros Hz Hk Hb. unfold JS.shl.
  assert (Hp : 1 <= 2 ^ k) by (apply (Z.pow_le_mono_r 2 0 k); lia).
  rewrite (ToInt32_small z) by nia.
  rewrite (ToUint32_small k) by lia.
  replace 31 with (Z.ones 5) by reflexivity.
  rewrite Z.land_ones by lia.
  rewrite Z.mod_small by (change (2 ^ 5) with 32; lia).
  rewrite Z.shiftl_mul_pow2 by lia.
  apply ToInt32_small. nia.
Qed.

(** ** The number of set bits *)

Lemma pos_popcount_pos (p : positive) : 0 < pos_popcount p.
Proof. induction p; cbn [pos_popcount popcount]; lia. Qed.

Lemma popcount_nonneg (n : Z) : 0 <= popcount n.
Proof. destruct n; cbn [pos_popcount popcount]; try lia. pose proof (pos_popcount_pos p). lia. Qed.

Lemma popcount_pos (n : Z) : 0 < n -> 0 < popcount n.
Proof. destruct n; cbn [pos_popcount popcount]; try lia. intros _. apply pos_popcount_pos. Qed.

Lemma popcount_zero (n : Z) : 0 <= n -> popcount n = 0 -> n = 0.
Proof.
  intros Hn H0. destruct (Z.eq_dec n 0) as [|Hne]; [assumption|].
  pose proof (popcount_pos n ltac:(lia)). lia.
Qed.

Lemma popcount_double (n : Z) : 0 <= n -> popcount (2 * n) = popcount n.
Proof. destruct n as [|p|p]; intros Hn; [reflexivity|reflexivity|lia]. Qed.

Lemma popcount_double_succ (n : Z) : 0 <= n -> popcount (2 * n + 1) = popcount n + 1.
Proof.
  destruct n as [|p|p]; intros Hn; [reflexivity| |lia].
  change (popcount (2 * Z.pos p + 1)) with (1 + pos_popcount p).
  cbn [popcount]. lia.
Qed.

Lemma pos_popcount_bound (p : positive) (k : nat) :
  Zpos p < 2 ^ Z.of_nat k -> pos_popcount p <= Z.of_nat k.
Proof.
  revert k. induction p as [q IH|q IH|]; intros k Hk.
  - destruct k as [|k]; [cbn [Z.of_nat Z.pow Z.pow_pos Pos.iter] in Hk; lia|].
    rewrite Nat2Z.inj_succ, Z.pow_succ_r in Hk by lia.
    specialize (IH k ltac:(lia)). cbn [pos_popcount popcount]. lia.
  - destruct k as [|k]; [cbn [Z.of_nat Z.pow Z.pow_pos Pos.iter] in Hk; lia|].
    rewrite Nat2Z.inj_succ, Z.pow_succ_r in Hk by lia.
    specialize (IH k ltac:(lia)). cbn [pos_popcount popcount]. lia.
  - destruct k as [|k]; [cbn [Z.of_nat Z.pow Z.pow_pos Pos.iter] in Hk; lia|].
    cbn [pos_popcount popcount]. lia.
Qed.

Lemma popcount_bound (n : Z) (k : nat) : n < 2 ^ Z.of_nat k -> popcount n <= Z.of_nat k.
Proof.
  destruct n; cbn [pos_popcount popcount]; try lia. apply pos_popcount_bound.
Qed.

(** An even chunk count [t] leaves one entry more below it than its half. *)
Lemma popcount_pred_even (t : Z) :
  0 < t -> t mod 2 = 0 -> popcount (t - 1) = popcount (t / 2 - 1) + 1.
Proof.
  intros Ht He.
  assert (E : t = 2 * (t / 2)) by (pose proof (Z.div_mod t 2 ltac:(lia)); lia).
  replace (t - 1) with (2 * (t / 2 - 1) + 1) by lia.
  apply popcount_double_succ. lia.
Qed.

Lemma popcount_half_even (t : Z) : 0 < t -> t mod 2 = 0 -> popcount (t / 2) = popcount t.
Proof.
  intros Ht He.
  assert (E : t = 2 * (t / 2)) by (pose proof (Z.div_mod t 2 ltac:(lia)); lia).
  rewrite E at 2. symmetry. apply popcount_double. lia.
Qed.

Lemma popcount_odd (t : Z) : 0 < t -> t mod 2 = 1 -> popcount t = popcount (t - 1) + 1.
Proof.
  intros Ht Ho.
  assert (E : t = 2 * (t / 2) + 1) by (pose proof (Z.div_mod t 2 ltac:(lia)); lia).
  rewrite E at 1. rewrite popcount_double_succ by lia.
  replace (t - 1) with (2 * (t / 2)) by lia.
  rewrite popcount_double by lia. reflexivity.
Qed.

(** ** Typed arrays *)

Lemma for_from_invariant {S : Type} (P : S -> Prop) (body : Z -> S -> S) :
  (forall i s, P s -> P (body i s)) ->
  forall count i s, P s -> P (for_from count i body s).
Proof.
  intros Hbody count. induction count as [|count IH]; intros i s Hs; simpl.
  - exact Hs.
  - apply IH. apply Hbody. exact Hs.
Qed.

Lemma list_upd_length {A : Type} (l : list A) (n : nat) (v : A) :
  List.length (list_upd l n v) = List.length l.
Proof.
  revert n. induction l as [|x l IH]; intros [|n]; simpl; try reflexivity.
  rewrite IH. reflexivity.
Qed.

Lemma store32_length (a : Uint32Array.t) (i v : Z) :
  List.length (Uint32Array.store a i v) = List.length a.
Proof.
  unfold Uint32Array.store.
  destruct ((0 <=? i) && (i <? Uint32Array.length a)); [apply list_upd_length|reflexivity].
Qed.

Lemma set32_returns (dst src : Uint32Array.t) (off : Z) :
  0 <= off -> off + Uint32Array.length src <= Uint32Array.length dst ->
  exists r, Uint32Array.set dst src off = Returns r /\ List.length r = List.length dst.
Proof.
  intros Hoff Hfit. unfold Uint32Array.set, Uint32Array.length in *.
  replace ((0 <=? off) && (off + Z.of_nat (List.length src) <=? Z.of_nat (List.length dst)))
    with true by (symmetry; apply andb_true_iff; split; lia).
  eexists. split; [reflexivity|].
  rewrite !length_app, length_firstn, length_skipn. lia.
Qed.

Lemma subarray_length (a : Uint32Array.t) (b e : Z) :
  b <= e -> Uint32Array.length (Uint32Array.subarray a b e) <= e - b.
Proof.
  intros Hbe. unfold Uint32Array.subarray, Uint32Array.length, Uint32Array.clamp.
  rewrite length_firstn.
  destruct (b <? 0) eqn:Hb; destruct (e <? 0) eqn:He; lia.
Qed.

Section WordsWritten.
Context {e : Env}.

Lemma write_words_length (out : Uint32Array.t) (off n : Z) (w : list Z) :
  List.length (write_words out off n w) = List.length out.
Proof.
  unfold write_words, for_loop.
  apply (for_from_invariant (fun o => List.length o = List.length out)).
  - intros i s Hs. rewrite store32_length. exact Hs.
  - reflexivity.
Qed.

Lemma compress_length cv cvOffset block blockOffset out outOffset fullOutput counter blockLen flags :
  List.length (compress cv cvOffset block blockOffset out outOffset fullOutput
                 counter blockLen flags) = List.length out.
Proof. unfold compress. apply write_words_length. Qed.

End WordsWritten.

Lemma bind_assoc {A B C : Type} (m : outcome A) (f : A -> outcome B) (g : B -> outcome C) :
  bind (bind m f) g = bind m (fun a => bind (f a) g).
Proof. destruct m; reflexivity. Qed.

(** ** The accumulator *)

Section Accumulator.
Context {e : Env}.

Lemma merge_body_returns (m : Hasher.merge_t) :
  List.length (Hasher.m_parentBlock m) = 16%nat ->
  exists m',
    Hasher.merge_body m = Returns m'
    /\ same_frame (Hasher.m_hasher m) (Hasher.m_hasher m')
    /\ Hasher.cvStackLen (Hasher.m_hasher m') = Hasher.cvStackLen (Hasher.m_hasher m) - 1
    /\ Hasher.m_totalChunks m' = JS.shru (Hasher.m_totalChunks m) 1
    /\ Hasher.m_newCvOffset m' = 0
    /\ List.length (Hasher.m_parentBlock m') = 16%nat.
Proof.
  intros Hpb. unfold Hasher.merge_body, Hasher.popCv.
  set (n := Hasher.cvStackLen (Hasher.m_hasher m) - 1).
  destruct (set32_returns (Hasher.m_parentBlock m)
              (Uint32Array.subarray (Hasher.cvStack (Hasher.m_hasher m)) (n * 8) ((n + 1) * 8)) 0)
    as [pb1 [E1 L1]].
  { lia. }
  { pose proof (subarray_length (Hasher.cvStack (Hasher.m_hasher m)) (n * 8) ((n + 1) * 8)).
    unfold Uint32Array.length in *. lia. }
  rewrite E1. cbn [bind].
  destruct (set32_returns pb1
              (Uint32Array.subarray (Hasher.m_newCv m) (Hasher.m_newCvOffset m)
                 (Hasher.m_newCvOffset m + 8)) 8)
    as [pb2 [E2 L2]].
  { lia. }
  { pose proof (subarray_length (Hasher.m_newCv m) (Hasher.m_newCvOffset m)
                  (Hasher.m_newCvOffset m + 8)).
    unfold Uint32Array.length in *. lia. }
  rewrite E2. cbn [bind].
  eexists. split; [reflexivity|].
  cbn. unfold same_frame. cbn. repeat split; congruence.
Qed.

Lemma merge_loop_succ (fuel : nat) (m : Hasher.merge_t) :
  Hasher.merge_loop (S fuel) m
  = if Hasher.merge_guard m
    then bind (Hasher.merge_body m) (Hasher.merge_loop fuel)
    else Returns m.
Proof. reflexivity. Qed.

(** At [totalChunks = 0] the guard holds and the body keeps it at 0: the
    loop does not leave, whatever the fuel. *)
Lemma merge_loop_zero (fuel : nat) (m : Hasher.merge_t) :
  Hasher.m_totalChunks m = 0 ->
  List.length (Hasher.m_parentBlock m) = 16%nat ->
  Hasher.merge_loop fuel m = OutOfFuel.
Proof.
  revert m. induction fuel as [|fuel IH]; intros m Ht Hpb; cbn [Hasher.merge_loop];
    unfold Hasher.merge_guard; rewrite Ht; change (JS.band 0 1 =? 0) with true; cbn iota.
  - reflexivity.
  - destruct (merge_body_returns m Hpb) as [m' [E [_ [_ [T [_ L]]]]]].
    rewrite E. cbn [bind]. apply IH; [|exact L].
    rewrite T, Ht. reflexivity.
Qed.

(** The merge loop on a chunk count [t] with [0 < t < 2^32]: it leaves, the
    difference between the stack length and the number of set bits of
    [t - 1] is kept, and so is the number of set bits of [t]. *)
Lemma merge_loop_returns (fuel : nat) (m : Hasher.merge_t) :
  0 < Hasher.m_totalChunks m < 2 ^ Z.of_nat fuel ->
  Hasher.m_totalChunks m < 2 ^ 32 ->
  List.length (Hasher.m_parentBlock m) = 16%nat ->
  exists m',
    Hasher.merge_loop fuel m = Returns m'
    /\ same_frame (Hasher.m_hasher m) (Hasher.m_hasher m')
    /\ Hasher.cvStackLen (Hasher.m_hasher m') - popcount (Hasher.m_totalChunks m' - 1)
       = Hasher.cvStackLen (Hasher.m_hasher m) - popcount (Hasher.m_totalChunks m - 1)
    /\ popcount (Hasher.m_totalChunks m') = popcount (Hasher.m_totalChunks m)
    /\ Hasher.m_totalChunks m' mod 2 = 1
    /\ 0 < Hasher.m_totalChunks m'.
Proof.
  revert m. induction fuel as [|fuel IH]; intros m Ht H32 Hpb.
  - cbn in Ht. lia.
  - cbn [Hasher.merge_loop]. unfold Hasher.merge_guard. rewrite band_1.
    destruct (Hasher.m_totalChunks m mod 2 =? 0) eqn:Heven.
    + apply Z.eqb_eq in Heven.
      destruct (merge_body_returns m Hpb) as [m1 [E [F [L [T [_ P]]]]]].
      rewrite E. cbn [bind].
      rewrite shru_small in T by lia.
      change (2 ^ 1) with 2 in T.
      assert (Hhalf : Hasher.m_totalChunks m = 2 * (Hasher.m_totalChunks m / 2)).
      { pose proof (Z.div_mod (Hasher.m_totalChunks m) 2 ltac:(lia)). lia. }
      rewrite Nat2Z.inj_succ, Z.pow_succ_r in Ht by lia.
      destruct (IH m1) as [m' [E' [F' [D [C [O Q]]]]]].
      { rewrite T. lia. }
      { rewrite T. lia. }
      { exact P. }
      exists m'. split; [exact E'|].
      split.
      { unfold same_frame in *. intuition congruence. }
      split.
      { rewrite D, L, T.
        rewrite (popcount_pred_even (Hasher.m_totalChunks m)) by lia. lia. }
      split.
      { rewrite C, T. apply popcount_half_even; lia. }
      split; assumption.
    + apply Z.eqb_neq in Heven.
      exists m. split; [reflexivity|].
      split; [unfold same_frame; auto|].
      split; [reflexivity|].
      split; [reflexivity|].
      pose proof (Z.mod_pos_bound (Hasher.m_totalChunks m) 2 ltac:(lia)).
      split; lia.
Qed.

(** While the loop runs on a stack of [popcount (t - 1)] entries, every pop
    finds an entry. *)
Lemma pops_positive (fuel : nat) (m : Hasher.merge_t) :
  0 < Hasher.m_totalChunks m < 2 ^ 32 ->
  List.length (Hasher.m_parentBlock m) = 16%nat ->
  Hasher.cvStackLen (Hasher.m_hasher m) = popcount (Hasher.m_totalChunks m - 1) ->
  Forall (fun n => 0 < n) (Hasher.pops fuel m).
Proof.
  revert m. induction fuel as [|fuel IH]; intros m Ht Hpb Hlen;
    cbn [Hasher.pops]; unfold Hasher.merge_guard; rewrite band_1;
    destruct (Hasher.m_totalChunks m mod 2 =? 0) eqn:Heven; try constructor.
  - apply Z.eqb_eq in Heven. rewrite Hlen.
    rewrite (popcount_pred_even (Hasher.m_totalChunks m)) by lia.
    pose proof (popcount_nonneg (Hasher.m_totalChunks m / 2 - 1)). lia.
  - apply Z.eqb_eq in Heven.
    destruct (merge_body_returns m Hpb) as [m1 [E [F [L [T [_ P]]]]]].
    rewrite E. rewrite shru_small in T by lia. change (2 ^ 1) with 2 in T.
    assert (Hhalf : Hasher.m_totalChunks m = 2 * (Hasher.m_totalChunks m / 2)).
    { pose proof (Z.div_mod (Hasher.m_totalChunks m) 2 ltac:(lia)). lia. }
    apply IH.
    + rewrite T. lia.
    + exact P.
    + rewrite L, T, Hlen.
      rewrite (popcount_pred_even (Hasher.m_totalChunks m)) by lia. lia.
Qed.

Lemma pushCv_returns (h : Hasher.t) (cv : Uint32Array.t) (cvOffset : Z) :
  0 <= Hasher.cvStackLen h < MAX_DEPTH ->
  List.length (Hasher.cvStack h) = Z.to_nat (MAX_DEPTH * 8) ->
  exists stack,
    Hasher.pushCv h cv cvOffset
      = Returns (Hasher.mk (Hasher.chunkState h) (Hasher.keyWords h) stack
                   (Hasher.cvStackLen h + 1) (Hasher.flags h))
    /\ List.length stack = Z.to_nat (MAX_DEPTH * 8).
Proof.
  intros Hlen Hcap. unfold Hasher.pushCv.
  destruct (set32_returns (Hasher.cvStack h)
              (Uint32Array.subarray cv cvOffset (cvOffset + 8)) (Hasher.cvStackLen h * 8))
    as [stack [E L]].
  { lia. }
  { pose proof (subarray_length cv cvOffset (cvOffset + 8)).
    unfold Uint32Array.length in *. rewrite Hcap. unfold MAX_DEPTH in *. lia. }
  rewrite E. cbn [bind]. exists stack. split; [reflexivity|congruence].
Qed.

Lemma roll_start_fields (h : Hasher.t) :
  Hasher.keyWords (Hasher.m_hasher (Hasher.roll_start h)) = Hasher.keyWords h
  /\ Hasher.cvStack (Hasher.m_hasher (Hasher.roll_start h)) = Hasher.cvStack h
  /\ Hasher.flags (Hasher.m_hasher (Hasher.roll_start h)) = Hasher.flags h
  /\ Hasher.cvStackLen (Hasher.m_hasher (Hasher.roll_start h)) = Hasher.cvStackLen h
  /\ Hasher.m_totalChunks (Hasher.roll_start h)
     = ChunkState.chunkCounter (Hasher.chunkState h) + 1
  /\ List.length (Hasher.m_parentBlock (Hasher.roll_start h)) = 16%nat.
Proof.
  unfold Hasher.roll_start. cbn. repeat split; reflexivity.
Qed.

Lemma rollChunk_unfold (h : Hasher.t) :
  Hasher.rollChunk h
  = (m <- Hasher.merge_loop 33 (Hasher.roll_start h) ;;
     h' <- Hasher.pushCv (Hasher.m_hasher m) (Hasher.m_newCv m) (Hasher.m_newCvOffset m) ;;
     Returns (Hasher.mk
                (ChunkState.new (Hasher.keyWords h')
                   (ChunkState.chunkCounter (Hasher.chunkState h) + 1) (Hasher.flags h'))
                (Hasher.keyWords h') (Hasher.cvStack h') (Hasher.cvStackLen h')
                (Hasher.flags h'))).
Proof.
  unfold Hasher.rollChunk, Hasher.roll_start, Hasher.addChunkCv, ChunkState.output.
  cbv beta iota zeta.
  rewrite bind_assoc. reflexivity.
Qed.

(** Pushing chunk number [N + 1 < 2^32]: the push returns, the stack holds
    [popcount (N + 1)] entries afterwards, and no pop met an empty stack. *)
Lemma rollChunk_returns (h : Hasher.t) :
  acc_inv h ->
  ChunkState.chunkCounter (Hasher.chunkState h) + 1 < 2 ^ 32 ->
  exists h',
    Hasher.rollChunk h = Returns h'
    /\ acc_inv h'
    /\ ChunkState.chunkCounter (Hasher.chunkState h')
       = ChunkState.chunkCounter (Hasher.chunkState h) + 1
    /\ Hasher.keyWords h' = Hasher.keyWords h
    /\ Hasher.flags h' = Hasher.flags h
    /\ Forall (fun n => 0 < n) (Hasher.pops 33 (Hasher.roll_start h)).
Proof.
  intros [Hcap [HN Hlen]] Hnext.
  destruct (roll_start_fields h) as [K0 [S0 [G0 [L0 [T0 P0]]]]].
  set (N := ChunkState.chunkCounter (Hasher.chunkState h)) in *.
  destruct (merge_loop_returns 33 (Hasher.roll_start h)) as [m [E [F [D [C [O Q]]]]]].
  { rewrite T0. change (2 ^ Z.of_nat 33) with (2 * 2 ^ 32). lia. }
  { rewrite T0. lia. }
  { exact P0. }
  rewrite T0, L0, Hlen in D.
  replace (N + 1 - 1) with N in D by lia.
  rewrite T0 in C.
  assert (Hm : Hasher.cvStackLen (Hasher.m_hasher m) + 1 = popcount (N + 1)).
  { rewrite <- C. rewrite (popcount_odd (Hasher.m_totalChunks m)) by lia. lia. }
  assert (Hb : popcount (N + 1) <= 32).
  { apply (popcount_bound (N + 1) 32). exact Hnext. }
  pose proof (popcount_nonneg (Hasher.m_totalChunks m - 1)) as Hnn.
  destruct F as [_ [K1 [S1 G1]]].
  destruct (pushCv_returns (Hasher.m_hasher m) (Hasher.m_newCv m) (Hasher.m_newCvOffset m))
    as [stack [Ep Lp]].
  { unfold MAX_DEPTH. lia. }
  { congruence. }
  assert (Hpops : Forall (fun n => 0 < n) (Hasher.pops 33 (Hasher.roll_start h))).
  { apply pops_positive.
    - rewrite T0. lia.
    - exact P0.
    - rewrite T0, L0, Hlen. f_equal. lia. }
  rewrite rollChunk_unfold, E. cbn [bind]. rewrite Ep. cbn [bind].
  eexists. split; [reflexivity|].
  unfold acc_inv.
  cbn [Hasher.cvStack Hasher.chunkState Hasher.cvStackLen Hasher.keyWords Hasher.flags
       ChunkState.chunkCounter ChunkState.new].
  fold N.
  repeat split; try lia; try congruence; assumption.
Qed.

(** Pushing chunk number 2^32: after the first iteration [totalChunks] is
    [2^32 >>> 1 = 0], and the loop does not leave. *)
Lemma rollChunk_hangs (h : Hasher.t) :
  ChunkState.chunkCounter (Hasher.chunkState h) + 1 = 2 ^ 32 ->
  Hasher.rollChunk h = OutOfFuel.
Proof.
  intros HN.
  destruct (roll_start_fields h) as [_ [_ [_ [_ [T0 P0]]]]].
  rewrite rollChunk_unfold.
  change 33%nat with (S 32). rewrite merge_loop_succ.
  unfold Hasher.merge_guard. rewrite T0, HN.
  change (JS.band (2 ^ 32) 1 =? 0) with true. cbn iota.
  destruct (merge_body_returns (Hasher.roll_start h) P0) as [m1 [E [_ [_ [T [_ P]]]]]].
  rewrite E. cbn [bind].
  rewrite merge_loop_zero; [reflexivity| |exact P].
  rewrite T, T0, HN. reflexivity.
Qed.

Lemma chunk_update_step_counter cs input inputOffset inputLen cs' take :
  ChunkState.update_step cs input inputOffset inputLen = Returns (cs', take) ->
  ChunkState.chunkCounter cs' = ChunkState.chunkCounter cs.
Proof.
  unfold ChunkState.update_step. intros Hs.
  match type of Hs with bind ?x _ = _ => destruct x end;
    cbn [bind] in Hs; [|discriminate|discriminate].
  injection Hs as Hcs _. subst cs'.
  destruct (ChunkState.blockLen cs =? BLOCK_LEN); reflexivity.
Qed.

Lemma chunk_update_loop_counter fuel cs input inputOffset inputLen consumed cs' n :
  ChunkState.update_loop fuel cs input inputOffset inputLen consumed = Returns (cs', n) ->
  ChunkState.chunkCounter cs' = ChunkState.chunkCounter cs.
Proof.
  revert cs inputOffset inputLen consumed.
  induction fuel as [|fuel IH]; intros cs inputOffset inputLen consumed;
    cbn [ChunkState.update_loop]; destruct (inputLen >? 0); intros Hl;
    try discriminate; try (injection Hl as Hcs _; subst; reflexivity).
  destruct (ChunkState.update_step cs input inputOffset inputLen) as [[cs1 take]| |] eqn:Hs;
    cbn [bind] in Hl; try discriminate.
  rewrite (IH _ _ _ _ Hl). eapply chunk_update_step_counter. exact Hs.
Qed.

Lemma chunk_update_counter cs input inputOffset inputLen cs' n :
  ChunkState.update cs input inputOffset inputLen = Returns (cs', n) ->
  ChunkState.chunkCounter cs' = ChunkState.chunkCounter cs.
Proof. apply chunk_update_loop_counter. Qed.

(** A push that returns was a push of a chunk number below 2^32. *)
Lemma rollChunk_inv (h h' : Hasher.t) :
  acc_inv h -> Hasher.rollChunk h = Returns h' ->
  acc_inv h'
  /\ ChunkState.chunkCounter (Hasher.chunkState h')
     = ChunkState.chunkCounter (Hasher.chunkState h) + 1.
Proof.
  intros Hinv Hroll.
  destruct (Z.eq_dec (ChunkState.chunkCounter (Hasher.chunkState h) + 1) (2 ^ 32)) as [Hmax|Hlt].
  - rewrite (rollChunk_hangs h Hmax) in Hroll. discriminate.
  - destruct (rollChunk_returns h Hinv) as [h'' [E [I [C _]]]].
    { destruct Hinv as [_ [HN _]]. lia. }
    rewrite E in Hroll. injection Hroll as <-. split; assumption.
Qed.

Lemma update_step_inv (h : Hasher.t) input inputOffset inputLen h' take :
  acc_inv h -> Hasher.update_step h input inputOffset inputLen = Returns (h', take) ->
  acc_inv h'.
Proof.
  intros Hinv. unfold Hasher.update_step.
  assert (Hfill : forall h1, acc_inv h1 ->
            (let want := CHUNK_LEN - ChunkState.len (Hasher.chunkState h1) in
             let take := Z.min want inputLen in
             ' (cs, _) <- ChunkState.update (Hasher.chunkState h1) input inputOffset take;;
             Returns (Hasher.mk cs (Hasher.keyWords h1) (Hasher.cvStack h1)
                        (Hasher.cvStackLen h1) (Hasher.flags h1), take))
            = Returns (h', take) -> acc_inv h').
  { intros h1 [Hcap [HN Hlen]]. cbv zeta.
    destruct (ChunkState.update _ _ _ _) as [[cs n]| |] eqn:Hu; cbn [bind];
      intros Hr; try discriminate.
    injection Hr as <- _. apply chunk_update_counter in Hu.
    unfold acc_inv. cbn [Hasher.cvStack Hasher.chunkState Hasher.cvStackLen].
    rewrite Hu. auto. }
  destruct (ChunkState.len (Hasher.chunkState h) =? CHUNK_LEN).
  - destruct (Hasher.rollChunk h) as [h1| |] eqn:Hroll; cbn [bind]; try discriminate.
    apply Hfill. eapply rollChunk_inv; eassumption.
  - cbn [bind]. apply Hfill. exact Hinv.
Qed.

Lemma update_loop_inv fuel (h : Hasher.t) input inputOffset inputLen h' :
  acc_inv h -> Hasher.update_loop fuel h input inputOffset inputLen = Returns h' ->
  acc_inv h'.
Proof.
  revert h inputOffset inputLen.
  induction fuel as [|fuel IH]; intros h inputOffset inputLen Hinv;
    cbn [Hasher.update_loop]; destruct (inputLen >? 0); intros Hl;
    try discriminate; try (injection Hl as <-; exact Hinv).
  destruct (Hasher.update_step h input inputOffset inputLen) as [[h1 take]| |] eqn:Hs;
    cbn [bind] in Hl; try discriminate.
  eapply IH; [|exact Hl]. eapply update_step_inv; eassumption.
Qed.

Lemma new_acc_inv (keyWords : Uint32Array.t) (flags : Z) :
  acc_inv (Hasher.new_ keyWords flags).
Proof.
  unfold acc_inv, Hasher.new_. cbn [Hasher.cvStack Hasher.chunkState Hasher.cvStackLen
                                    ChunkState.new ChunkState.chunkCounter].
  split; [unfold Uint32Array.make; apply repeat_length|].
  split; [lia|reflexivity].
Qed.

Lemma reachable_acc_inv (keyWords : Uint32Array.t) (flags : Z) (h : Hasher.t) :
  Hasher.reachable keyWords flags h -> acc_inv h.
Proof.
  induction 1 as [|h input h' _ IH Hu].
  - apply new_acc_inv.
  - eapply update_loop_inv; [exact IH|exact Hu].
Qed.

(** X21: a hasher that calls of [update] alone produced from a new one,
    with [N] chunks pushed and the next chunk open, has [N < 2^32] and
    holds exactly [popcount N] entries on its stack; and when chunk number
    [N + 1 < 2^32] is pushed, the push returns with [popcount (N + 1)]
    entries on the stack and no iteration of its merge loop pops from an
    empty stack. *)
Theorem cvStack_popcount (keyWords : Uint32Array.t) (flags : Z) (h : Hasher.t)
    (Hreach : Hasher.reachable keyWords flags h) :
  let N := ChunkState.chunkCounter (Hasher.chunkState h) in
  (0 <= N < 2 ^ 32 /\ Hasher.cvStackLen h = popcount N)
  /\ (N + 1 < 2 ^ 32 ->
      exists h',
        Hasher.rollChunk h = Returns h'
        /\ ChunkState.chunkCounter (Hasher.chunkState h') = N + 1
        /\ Hasher.cvStackLen h' = popcount (N + 1)
        /\ Forall (fun n => 0 < n) (Hasher.pops 33 (Hasher.roll_start h))).
Proof.
  intros N. pose proof (reachable_acc_inv _ _ _ Hreach) as Hinv.
  split.
  - destruct Hinv as [_ [HN Hlen]]. split; assumption.
  - intros Hnext.
    destruct (rollChunk_returns h Hinv Hnext) as [h' [E [[_ [_ Hlen']] [C [_ [_ P]]]]]].
    exists h'. rewrite C in Hlen'. repeat split; assumption.
Qed.

End Accumulator.

Lemma cvStack_popcount_witness :
  @Hasher.reachable (Spec.env true) IV 0 (hasher_after (Spec.env true) (pattern 1025))
  /\ ((0 <= 1 < 2 ^ 32
       /\ Hasher.cvStackLen (hasher_after (Spec.env true) (pattern 1025)) = 1)
      /\ (1 + 1 < 2 ^ 32 ->
          exists h',
            @Hasher.rollChunk (Spec.env true) (hasher_after (Spec.env true) (pattern 1025))
              = Returns h'
            /\ ChunkState.chunkCounter (Hasher.chunkState h') = 1 + 1
            /\ Hasher.cvStackLen h' = 1
            /\ Forall (fun n => 0 < n)
                 (@Hasher.pops (Spec.env true) 33
                    (@Hasher.roll_start (Spec.env true)
                       (hasher_after (Spec.env true) (pattern 1025)))))).
Proof.
  assert (R : @Hasher.reachable (Spec.env true) IV 0
                (hasher_after (Spec.env true) (pattern 1025))).
  { apply (@Hasher.reach_update (Spec.env true) IV 0 Hasher.new
             (Uint8Array.of_list (pattern 1025))).
    - apply Hasher.reach_new.
    - vm_compute. reflexivity. }
  split; [exact R|].
  exact (@cvStack_popcount (Spec.env true) IV 0 _ R).
Defined.


(** ** The XOF reader *)

Lemma nth_list_upd_same {A : Type} (l : list A) (n : nat) (v d : A) :
  (n < List.length l)%nat -> nth n (list_upd l n v) d = v.
Proof.
  revert n. induction l as [|x l IH]; intros [|n] Hn; simpl in *; try lia.
  - reflexivity.
  - apply IH. lia.
Qed.

Lemma nth_list_upd_other {A : Type} (l : list A) (n m : nat) (v d : A) :
  m <> n -> nth m (list_upd l n v) d = nth m l d.
Proof.
  revert n m. induction l as [|x l IH]; intros [|n] [|m] Hne; simpl; try reflexivity; try lia.
  apply IH. lia.
Qed.

Lemma store8_length (out : list Z) (i v : Z) :
  List.length (Uint8Array.store out i v) = List.length out.
Proof.
  unfold Uint8Array.store.
  destruct ((0 <=? i) && (i <? Z.of_nat (List.length out))); [apply list_upd_length|reflexivity].
Qed.

Lemma zget_store8_same (out : list Z) (i v : Z) :
  0 <= i < Z.of_nat (List.length out) -> zget (Uint8Array.store out i v) i = v mod 256.
Proof.
  intros Hi. unfold zget, Uint8Array.store.
  replace ((0 <=? i) && (i <? Z.of_nat (List.length out))) with true
    by (symmetry; apply andb_true_iff; split; lia).
  apply nth_list_upd_same. lia.
Qed.

Lemma zget_store8_other (out : list Z) (i j v : Z) :
  0 <= j -> j <> i -> zget (Uint8Array.store out i v) j = zget out j.
Proof.
  intros Hj Hne. unfold zget, Uint8Array.store.
  destruct ((0 <=? i) && (i <? Z.of_nat (List.length out))) eqn:Hin; [|reflexivity].
  apply andb_true_iff in Hin. apply nth_list_upd_other. lia.
Qed.

(** The byte at position [p] of the bytes of a word array. *)
Lemma nth_bytes (ws : Uint32Array.t) (i b : nat) :
  (b < 4)%nat ->
  nth (4 * i + b) (Uint32Array.bytes ws) 0 = nth b (Uint32Array.bytes_of_word (nth i ws 0)) 0.
Proof.
  intros Hb. unfold Uint32Array.bytes. revert i.
  induction ws as [|w ws IH]; intros i.
  - cbn [flat_map]. destruct i; destruct (4 * _ + b)%nat;
      do 4 (try destruct b as [|b]); try reflexivity; lia.
  - destruct i as [|i].
    + cbn [flat_map nth Nat.mul Nat.add]. do 4 (try destruct b as [|b]); try reflexivity; lia.
    + replace (4 * S i + b)%nat with (4 + (4 * i + b))%nat by lia.
      cbn [flat_map]. change (nth (S i) (w :: ws) 0) with (nth i ws 0).
      rewrite <- IH. reflexivity.
Qed.

Lemma block_byte (ws : Uint32Array.t) (p : Z) :
  0 <= p ->
  zget (Uint32Array.bytes ws) p
  = (Uint32Array.get ws (p / 4) / 2 ^ (8 * (p mod 4))) mod 256.
Proof.
  intros Hp. unfold zget, Uint32Array.get.
  pose proof (Z.div_mod p 4 ltac:(lia)) as Hdm.
  pose proof (Z.mod_pos_bound p 4 ltac:(lia)) as Hm.
  assert (Hq : 0 <= p / 4) by (apply Z.div_pos; lia).
  replace (0 <=? p / 4) with true by (symmetry; apply Z.leb_le; exact Hq).
  replace (Z.to_nat p) with (4 * Z.to_nat (p / 4) + Z.to_nat (p mod 4))%nat by lia.
  rewrite nth_bytes by lia.
  set (w := nth (Z.to_nat (p / 4)) ws 0).
  assert (Hcases : p mod 4 = 0 \/ p mod 4 = 1 \/ p mod 4 = 2 \/ p mod 4 = 3) by lia.
  destruct Hcases as [E|[E|[E|E]]]; rewrite E; cbn [Z.to_nat Pos.to_nat Pos.iter_op Nat.add
    Uint32Array.bytes_of_word nth]; try reflexivity.
  change (2 ^ (8 * 0)) with 1. rewrite Z.div_1_r. reflexivity.
Qed.

Lemma js_byte (w b : Z) :
  0 <= w < 2 ^ 32 -> 0 <= b <= 3 ->
  JS.band (JS.shru w (8 * b)) 255 mod 256 = (w / 2 ^ (8 * b)) mod 256.
Proof.
  intros Hw Hb. rewrite band_255, Z.mod_mod by lia.
  rewrite shru_small by lia. reflexivity.
Qed.

Lemma js_byte0 (w : Z) : JS.band w 255 mod 256 = (w / 2 ^ (8 * 0)) mod 256.
Proof.
  rewrite band_255, Z.mod_mod by lia.
  change (2 ^ (8 * 0)) with 1. rewrite Z.div_1_r. reflexivity.
Qed.

Lemma store_word_length w bo out : List.length (store_word w bo out) = List.length out.
Proof. unfold store_word. rewrite !store8_length. reflexivity. Qed.

Lemma store_word_other w bo out j :
  0 <= j -> j < bo \/ bo + 4 <= j -> zget (store_word w bo out) j = zget out j.
Proof.
  intros Hj Hout. unfold store_word.
  rewrite !zget_store8_other by lia. reflexivity.
Qed.

Lemma store_word_same w bo out j :
  0 <= w < 2 ^ 32 -> 0 <= bo -> bo + 4 <= Z.of_nat (List.length out) ->
  bo <= j < bo + 4 ->
  zget (store_word w bo out) j = (w / 2 ^ (8 * (j - bo))) mod 256.
Proof.
  intros Hw Hbo Hfit Hj. unfold store_word.
  assert (Hc : j = bo \/ j = bo + 1 \/ j = bo + 2 \/ j = bo + 3) by lia.
  destruct Hc as [Hc|[Hc|[Hc|Hc]]]; subst j.
  - rewrite !zget_store8_other by lia.
    rewrite zget_store8_same by lia.
    replace (bo - bo) with 0 by lia. apply js_byte0.
  - rewrite !zget_store8_other by lia.
    rewrite zget_store8_same by (rewrite !store8_length; lia).
    replace (bo + 1 - bo) with 1 by lia. apply (js_byte w 1); lia.
  - rewrite !zget_store8_other by lia.
    rewrite zget_store8_same by (rewrite !store8_length; lia).
    replace (bo + 2 - bo) with 2 by lia. apply (js_byte w 2); lia.
  - rewrite zget_store8_same by (rewrite !store8_length; lia).
    replace (bo + 3 - bo) with 3 by lia. apply (js_byte w 3); lia.
Qed.

(** The loop of [writeLittleEndianBytesPartial] over whole words. *)
Lemma write_words_loop (words : Uint32Array.t) (wo bo : Z) (count : nat) :
  words_ok words -> 0 <= wo ->
  forall (i0 : Z) (out : list Z),
    0 <= i0 -> 0 <= bo ->
    bo + 4 * (i0 + Z.of_nat count) <= Z.of_nat (List.length out) ->
    let out' := for_from count i0
                  (fun i out => store_word (Uint32Array.get words (wo + i)) (bo + 4 * i) out)
                  out in
    List.length out' = List.length out
    /\ (forall j, 0 <= j -> j < bo + 4 * i0 \/ bo + 4 * (i0 + Z.of_nat count) <= j ->
                  zget out' j = zget out j)
    /\ (forall j, bo + 4 * i0 <= j < bo + 4 * (i0 + Z.of_nat count) ->
                  zget out' j = zget (Uint32Array.bytes words) (4 * wo + (j - bo))).
Proof.
  intros Hok Hwo. induction count as [|count IH]; intros i0 out Hi0 Hbo Hfit; cbn [for_from].
  - split; [reflexivity|]. split; [reflexivity|]. intros j Hj. lia.
  - rewrite Nat2Z.inj_succ in *.
    specialize (IH (i0 + 1) (store_word (Uint32Array.get words (wo + i0)) (bo + 4 * i0) out)
                  ltac:(lia) Hbo).
    rewrite store_word_length in IH.
    destruct (IH ltac:(lia)) as [L [Hother Hsame]].
    split; [exact L|]. split.
    + intros j Hj Hout. rewrite Hother by lia. apply store_word_other; lia.
    + intros j Hj.
      destruct (Z_lt_dec j (bo + 4 * (i0 + 1))) as [Hlt|Hge].
      * rewrite Hother by lia.
        rewrite store_word_same by (try apply Hok; lia).
        rewrite block_byte by lia.
        replace ((4 * wo + (j - bo)) / 4) with (wo + i0)
          by (apply (Z.div_unique _ 4 _ (j - bo - 4 * i0)); lia).
        replace ((4 * wo + (j - bo)) mod 4) with (j - (bo + 4 * i0))
          by (apply (Z.mod_unique _ 4 (wo + i0)); lia).
        reflexivity.
      * apply Hsame. lia.
Qed.

Lemma writeLittleEndianBytesPartial_words (words : Uint32Array.t) (wo bo f : Z)
    (out : list Z) :
  words_ok words -> 0 <= wo -> 0 <= bo -> 0 <= f < 2 ^ 28 ->
  bo + 4 * f <= Z.of_nat (List.length out) ->
  let out' := writeLittleEndianBytesPartial words wo out bo (4 * f) in
  List.length out' = List.length out
  /\ (forall j, 0 <= j -> j < bo \/ bo + 4 * f <= j -> zget out' j = zget out j)
  /\ (forall j, bo <= j < bo + 4 * f ->
                zget out' j = zget (Uint32Array.bytes words) (4 * wo + (j - bo))).
Proof.
  intros Hok Hwo Hbo Hf Hfit. unfold writeLittleEndianBytesPartial.
  rewrite band_3.
  replace ((4 * f) mod 4) with 0
    by (symmetry; rewrite Z.mul_comm; apply Z_mod_mult).
  cbv zeta. change (0 >? 0) with false. cbv iota.
  rewrite shru_small by lia.
  change (2 ^ 2) with 4.
  replace (4 * f / 4) with f by (rewrite Z.mul_comm, Z_div_mult; lia).
  unfold for_loop.
  pose proof (write_words_loop words wo bo (Z.to_nat f) Hok Hwo 0 out ltac:(lia) Hbo) as Hloop.
  rewrite Z2Nat.id in Hloop by lia.
  specialize (Hloop ltac:(lia)). cbv zeta in Hloop.
  replace (bo + 4 * 0) with bo in Hloop by lia.
  replace (bo + 4 * (0 + f)) with (bo + 4 * f) in Hloop by lia.
  exact Hloop.
Qed.

(** The byte-by-byte loop of [read]. *)
Lemma byte_loop (ob : Uint32Array.t) (off oo : Z) (count : nat) :
  words_ok ob -> 0 <= off -> 0 <= oo ->
  forall (i0 : Z) (out : list Z),
    0 <= i0 -> off + i0 + Z.of_nat count <= 64 ->
    oo + i0 + Z.of_nat count <= Z.of_nat (List.length out) ->
    let out' := for_from count i0
                  (fun i output =>
                     let wordIdx := JS.shru (off + i) 2 in
                     let byteIdx := JS.band (off + i) 3 in
                     Uint8Array.store output (oo + i)
                       (JS.band (JS.shru (Uint32Array.get ob wordIdx) (JS.shl byteIdx 3)) 0xff))
                  out in
    List.length out' = List.length out
    /\ (forall j, 0 <= j -> j < oo + i0 \/ oo + i0 + Z.of_nat count <= j ->
                  zget out' j = zget out j)
    /\ (forall j, oo + i0 <= j < oo + i0 + Z.of_nat count ->
                  zget out' j = zget (Uint32Array.bytes ob) (off + (j - oo))).
Proof.
  intros Hok Hoff Hoo. induction count as [|count IH]; intros i0 out Hi0 Hblock Hfit;
    cbn [for_from].
  - split; [reflexivity|]. split; [reflexivity|]. intros j Hj. lia.
  - rewrite Nat2Z.inj_succ in *. cbv zeta.
    set (v := JS.band (JS.shru (Uint32Array.get ob (JS.shru (off + i0) 2))
                         (JS.shl (JS.band (off + i0) 3) 3)) 255).
    specialize (IH (i0 + 1) (Uint8Array.store out (oo + i0) v) ltac:(lia) ltac:(lia)).
    rewrite store8_length in IH.
    destruct (IH ltac:(lia)) as [L [Hother Hsame]].
    split; [exact L|]. split.
    + intros j Hj Hout. rewrite Hother by lia. apply zget_store8_other; lia.
    + intros j Hj.
      destruct (Z.eq_dec j (oo + i0)) as [Heq|Hne].
      * subst j. rewrite Hother by lia.
        rewrite zget_store8_same by lia.
        replace (off + (oo + i0 - oo)) with (off + i0) by lia.
        rewrite block_byte by lia.
        subst v.
        pose proof (Z.mod_pos_bound (off + i0) 4 ltac:(lia)) as Hm.
        rewrite band_3.
        rewrite (shru_small (off + i0) 2) by lia. change (2 ^ 2) with 4.
        rewrite shl_small by lia. change (2 ^ 3) with 8.
        rewrite (Z.mul_comm ((off + i0) mod 4) 8).
        apply js_byte; [apply Hok|lia].
      * apply Hsame. lia.
Qed.

Section Reader.
Context {e : Env}.

(** A compression with full output overwrites all 16 words of [out]. *)
Lemma compress_full cv cvOffset block blockOffset out counter blockLen flags :
  List.length out = 16%nat ->
  compress cv cvOffset block blockOffset out 0 true counter blockLen flags
  = map (fun i => JS.ToUint32
                    (nth i (compress_words (read_words cv cvOffset 8)
                              (read_words block blockOffset 16) counter blockLen flags) 0))
      (seq 0 16).
Proof.
  intros Hlen. unfold compress.
  set (w := compress_words _ _ _ _ _).
  do 17 (destruct out as [|? out]; try discriminate Hlen).
  reflexivity.
Qed.

Lemma compress_full_words_ok cv cvOffset block blockOffset out counter blockLen flags :
  List.length out = 16%nat ->
  words_ok (compress cv cvOffset block blockOffset out 0 true counter blockLen flags).
Proof.
  intros Hlen. rewrite compress_full by exact Hlen.
  intros k. unfold Uint32Array.get.
  destruct (0 <=? k); [|lia].
  set (f := fun i => JS.ToUint32 _).
  destruct (Nat.lt_ge_cases (Z.to_nat k) 16) as [Hlt|Hge].
  - rewrite (nth_indep _ 0 (f 0%nat)) by (rewrite length_map, length_seq; exact Hlt).
    rewrite map_nth. unfold f, JS.ToUint32. apply Z.mod_pos_bound. lia.
  - rewrite nth_overflow by (rewrite length_map, length_seq; exact Hge). lia.
Qed.

Lemma xof_block_eq (r0 r : XofReader.t) :
  XofReader.inputCv r = XofReader.inputCv r0 ->
  XofReader.blockWords r = XofReader.blockWords r0 ->
  XofReader.blockLen r = XofReader.blockLen r0 ->
  XofReader.flags r = XofReader.flags r0 ->
  List.length (XofReader.outputBlock r) = 16%nat ->
  compress (XofReader.inputCv r) 0 (XofReader.blockWords r) 0 (XofReader.outputBlock r) 0 true
    (XofReader.counter r) (XofReader.blockLen r) (XofReader.flags r)
  = xof_block r0 (XofReader.counter r).
Proof.
  intros Hcv Hbw Hbl Hfl Hlen. unfold xof_block.
  rewrite !compress_full by (exact Hlen || reflexivity).
  rewrite Hcv, Hbw, Hbl, Hfl. reflexivity.
Qed.

Lemma xof_byte_in_block (r0 : XofReader.t) (k p : Z) :
  0 <= k -> 0 <= p < 64 ->
  xof_byte r0 (64 * k + p) = zget (Uint32Array.bytes (xof_block r0 k)) p.
Proof.
  intros Hk Hp. unfold xof_byte, zget.
  replace ((64 * k + p) mod 64) with p by (apply (Z.mod_unique _ 64 k); lia).
  replace ((64 * k + p) / 64) with k by (apply (Z.div_unique _ 64 _ p); lia).
  reflexivity.
Qed.

(** One iteration of the loop of [read] hands out at least one byte, and
    the bytes written so far are the bytes of the stream. *)
Lemma read_step_spec (r0 r : XofReader.t) (output : list Z) (oo len pos0 : Z)
    (r' : XofReader.t) (output' : list Z) (oo' : Z) :
  reader_inv r0 r (pos0 + oo) -> 0 <= pos0 ->
  Z.of_nat (List.length output) = len -> 0 <= oo < len ->
  (forall j, 0 <= j < oo -> zget output j = xof_byte r0 (pos0 + j)) ->
  XofReader.read_step r output oo len = (r', output', oo') ->
  oo < oo' <= len
  /\ reader_inv r0 r' (pos0 + oo')
  /\ Z.of_nat (List.length output') = len
  /\ (forall j, 0 <= j < oo' -> zget output' j = xof_byte r0 (pos0 + j)).
Proof.
  intros Hinv Hpos0 Hlen Hoo Hpre Hstep.
  unfold XofReader.read_step in Hstep.
  set (r1 := if XofReader.outputBlockOffset r >=? 64 then _ else r) in Hstep.
  assert (H1 : reader_inv r0 r1 (pos0 + oo) /\ XofReader.outputBlockOffset r1 < 64).
  { subst r1. destruct Hinv as [Hcv Hbw Hbl Hfl Hoff Hob Hp Hnn Hblock].
    destruct (XofReader.outputBlockOffset r >=? 64) eqn:Hfull.
    - split; [|cbn; lia].
      constructor; cbn [XofReader.inputCv XofReader.blockWords XofReader.blockLen
                        XofReader.flags XofReader.outputBlockOffset XofReader.outputBlock
                        XofReader.counter]; try assumption; try lia.
      + rewrite compress_length. exact Hob.
      + intros _. replace (XofReader.counter r + 1 - 1) with (XofReader.counter r) by lia.
        apply xof_block_eq; assumption.
    - split; [constructor; assumption|lia]. }
  clearbody r1. destruct H1 as [[Hcv Hbw Hbl Hfl Hoff Hob Hp Hnn Hblock] Hoff1].
  specialize (Hblock Hoff1).
  set (off1 := XofReader.outputBlockOffset r1) in *.
  set (c1 := XofReader.counter r1) in *.
  assert (Hwok : words_ok (XofReader.outputBlock r1)).
  { rewrite Hblock. unfold xof_block. apply compress_full_words_ok. reflexivity. }
  assert (Hc1 : 1 <= c1) by lia.
  assert (Hstream : forall p, 0 <= p < 64 ->
            zget (Uint32Array.bytes (XofReader.outputBlock r1)) p
            = xof_byte r0 (pos0 + oo - off1 + p)).
  { intros p Hp'. rewrite Hblock.
    replace (pos0 + oo - off1 + p) with (64 * (c1 - 1) + p) by lia.
    symmetry. apply xof_byte_in_block; lia. }
  cbv zeta in Hstep.
  set (toCopy := Z.min (64 - off1) (len - oo)) in *.
  assert (HtoCopy : 1 <= toCopy <= 64 - off1 /\ toCopy <= len - oo) by lia.
  rewrite band_3 in Hstep.
  rewrite (shru_small off1 2) in Hstep by lia. change (2 ^ 2) with 4 in Hstep.
  destruct ((off1 mod 4 =? 0) && (toCopy >=? 4)) eqn:Hbranch.
  - apply andb_true_iff in Hbranch. destruct Hbranch as [Hal H4].
    apply Z.eqb_eq in Hal.
    rewrite (shru_small toCopy 2) in Hstep by lia. change (2 ^ 2) with 4 in Hstep.
    assert (Hf : 1 <= toCopy / 4 /\ 4 * (toCopy / 4) <= toCopy).
    { pose proof (Z.div_mod toCopy 4 ltac:(lia)).
      pose proof (Z.mod_pos_bound toCopy 4 ltac:(lia)). lia. }
    rewrite shl_small in Hstep by lia. change (2 ^ 2) with 4 in Hstep.
    rewrite (Z.mul_comm (toCopy / 4) 4) in Hstep.
    set (f := toCopy / 4) in *.
    destruct (writeLittleEndianBytesPartial_words (XofReader.outputBlock r1) (off1 / 4) oo f
                output Hwok) as [L [Hother Hsame]]; try lia.
    { apply Z.div_pos; lia. }
    remember (4 * f) as k eqn:Hk in *.
    injection Hstep as <- <- <-.
    split; [lia|]. split; [|split].
    + constructor; cbn [XofReader.inputCv XofReader.blockWords XofReader.blockLen
                        XofReader.flags XofReader.outputBlockOffset XofReader.outputBlock
                        XofReader.counter]; try assumption; try lia.
      intros _. exact Hblock.
    + lia.
    + intros j Hj. destruct (Z_lt_dec j oo) as [Hlt|Hge].
      * rewrite Hother by lia. apply Hpre. lia.
      * rewrite Hsame by lia.
        replace (4 * (off1 / 4)) with off1
          by (pose proof (Z.div_mod off1 4 ltac:(lia)); lia).
        rewrite Hstream by lia. f_equal. lia.
  - unfold for_loop in Hstep.
    destruct (byte_loop (XofReader.outputBlock r1) off1 oo (Z.to_nat toCopy) Hwok
                ltac:(lia) ltac:(lia) 0 output) as [L [Hother Hsame]]; try lia.
    cbv zeta in L, Hother, Hsame.
    injection Hstep as <- <- <-.
    split; [lia|]. split; [|split].
    + constructor; cbn [XofReader.inputCv XofReader.blockWords XofReader.blockLen
                        XofReader.flags XofReader.outputBlockOffset XofReader.outputBlock
                        XofReader.counter]; try assumption; try lia.
      intros _. exact Hblock.
    + lia.
    + intros j Hj. destruct (Z_lt_dec j oo) as [Hlt|Hge].
      * rewrite Hother by lia. apply Hpre. lia.
      * rewrite Hsame by lia.
        rewrite Hstream by lia. f_equal. lia.
Qed.

Lemma read_loop_spec (r0 : XofReader.t) (len pos0 : Z) (fuel : nat) :
  forall (r : XofReader.t) (output : list Z) (oo : Z),
    reader_inv r0 r (pos0 + oo) -> 0 <= pos0 ->
    Z.of_nat (List.length output) = len -> 0 <= oo <= len ->
    len - oo <= Z.of_nat fuel ->
    (forall j, 0 <= j < oo -> zget output j = xof_byte r0 (pos0 + j)) ->
    exists output' r',
      XofReader.read_loop fuel r output oo len = Returns (output', r')
      /\ reader_inv r0 r' (pos0 + len)
      /\ Z.of_nat (List.length output') = len
      /\ (forall j, 0 <= j < len -> zget output' j = xof_byte r0 (pos0 + j)).
Proof.
  induction fuel as [|fuel IH]; intros r output oo Hinv Hpos0 Hlen Hoo Hfuel Hpre;
    cbn [XofReader.read_loop]; destruct (oo <? len) eqn:Hlt.
  - apply Z.ltb_lt in Hlt. lia.
  - apply Z.ltb_ge in Hlt. assert (oo = len) by lia. subst oo.
    exists output, r. split; [reflexivity|]. split; [exact Hinv|]. split; assumption.
  - apply Z.ltb_lt in Hlt.
    destruct (XofReader.read_step r output oo len) as [[r1 output1] oo1] eqn:Hstep.
    destruct (read_step_spec r0 r output oo len pos0 r1 output1 oo1 Hinv Hpos0 Hlen
                ltac:(lia) Hpre Hstep) as [Hoo1 [Hinv1 [Hlen1 Hpre1]]].
    apply (IH r1 output1 oo1); try assumption; lia.
  - apply Z.ltb_ge in Hlt. assert (oo = len) by lia. subst oo.
    exists output, r. split; [reflexivity|]. split; [exact Hinv|]. split; assumption.
Qed.

Lemma list_eq_zget (l : list Z) (n : Z) (f : Z -> Z) :
  Z.of_nat (List.length l) = n ->
  (forall j, 0 <= j < n -> zget l j = f j) ->
  l = map (fun i => f (Z.of_nat i)) (seq 0 (Z.to_nat n)).
Proof.
  intros Hlen Hget.
  apply (nth_ext _ _ 0 (f 0)).
  - rewrite length_map, length_seq. lia.
  - intros i Hi.
    rewrite (nth_indep _ (f 0) (f (Z.of_nat 0)))
      by (rewrite length_map, length_seq; lia).
    rewrite (map_nth (fun i => f (Z.of_nat i))).
    rewrite seq_nth by lia.
    specialize (Hget (Z.of_nat i) ltac:(lia)).
    unfold zget in Hget. rewrite Nat2Z.id in Hget. exact Hget.
Qed.

(** [read(n)] hands out the next [n] bytes of the stream. *)
Lemma read_spec (r0 r : XofReader.t) (pos n : Z) :
  reader_inv r0 r pos -> 0 <= n ->
  exists out r',
    XofReader.read r n = Returns (out, r')
    /\ reader_inv r0 r' (pos + n)
    /\ out = xof_bytes r0 pos n.
Proof.
  intros Hinv Hn. unfold XofReader.read.
  replace (n <? 0) with false by (symmetry; apply Z.ltb_ge; lia).
  destruct (read_loop_spec r0 n pos (Z.to_nat n) r (Uint8Array.make n) 0)
    as [out [r' [E [Hinv' [Hlen Hbytes]]]]]; try lia.
  - replace (pos + 0) with pos by lia. exact Hinv.
  - destruct Hinv. assumption.
  - unfold Uint8Array.make. rewrite repeat_length. lia.
  - exists out, r'. split; [exact E|]. split; [exact Hinv'|].
    unfold xof_bytes. apply (list_eq_zget out n (fun j => xof_byte r0 (pos + j))); assumption.
Qed.

Lemma map_seq_shift (g : nat -> Z) (a s n : nat) :
  map g (seq (a + s) n) = map (fun i => g (a + i)%nat) (seq s n).
Proof.
  revert s. induction n as [|n IH]; intros s; cbn [seq map]; [reflexivity|].
  f_equal. rewrite <- IH. f_equal. f_equal. lia.
Qed.

Lemma xof_bytes_app (r0 : XofReader.t) (pos a b : Z) :
  0 <= a -> 0 <= b ->
  xof_bytes r0 pos (a + b) = xof_bytes r0 pos a ++ xof_bytes r0 (pos + a) b.
Proof.
  intros Ha Hb. unfold xof_bytes.
  rewrite Z2Nat.inj_add by lia.
  rewrite seq_app, map_app. f_equal.
  change (0 + Z.to_nat a)%nat with (Z.to_nat a).
  rewrite <- (Nat.add_0_r (Z.to_nat a)) at 1.
  rewrite (map_seq_shift (fun i => xof_byte r0 (pos + Z.of_nat i)) (Z.to_nat a) 0).
  apply map_ext. intros i. f_equal. lia.
Qed.

Lemma sum_lengths_nonneg (lengths : list Z) :
  Forall (fun n => 0 <= n) lengths -> 0 <= sum_lengths lengths.
Proof.
  induction 1 as [|n lengths Hn _ IH]; cbn [sum_lengths fold_right]; [lia|].
  fold (sum_lengths lengths). lia.
Qed.

(** A sequence of [read] calls hands out consecutive pieces of the stream. *)
Lemma read_all_spec (r0 : XofReader.t) (lengths : list Z) :
  Forall (fun n => 0 <= n) lengths ->
  forall (r : XofReader.t) (pos : Z),
    reader_inv r0 r pos ->
    exists outs r',
      read_all r lengths = Returns (outs, r')
      /\ reader_inv r0 r' (pos + sum_lengths lengths)
      /\ List.concat outs = xof_bytes r0 pos (sum_lengths lengths).
Proof.
  induction 1 as [|n lengths Hn Hrest IH]; intros r pos Hinv; cbn [read_all].
  - exists [], r. cbn [sum_lengths fold_right]. split; [reflexivity|].
    split; [replace (pos + 0) with pos by lia; exact Hinv|reflexivity].
  - destruct (read_spec r0 r pos n Hinv Hn) as [out [r1 [E1 [Hinv1 Hout]]]].
    rewrite E1. cbn [bind].
    destruct (IH r1 (pos + n) Hinv1) as [outs [r2 [E2 [Hinv2 Houts]]]].
    rewrite E2. cbn [bind].
    exists (out :: outs), r2.
    cbn [sum_lengths fold_right]. fold (sum_lengths lengths).
    pose proof (sum_lengths_nonneg lengths Hrest).
    split; [reflexivity|]. split.
    + replace (pos + (n + sum_lengths lengths)) with (pos + n + sum_lengths lengths) by lia.
      exact Hinv2.
    + cbn [List.concat]. rewrite Hout, Houts. symmetry. apply xof_bytes_app; lia.
Qed.

Lemma new_reader_inv (inputCv blockWords : Uint32Array.t) (blockLen flags : Z) :
  reader_inv (XofReader.new inputCv blockWords 0 blockLen flags)
    (XofReader.new inputCv blockWords 0 blockLen flags) 0.
Proof.
  constructor; cbn; try reflexivity; lia.
Qed.

(** The merge loop of [finalizeOutput] on a stack that is not empty:
    it returns the parent node of the root, with counter 0, and leaves the
    stack length of the hasher at 0. *)
Lemma finalize_loop_returns (fuel : nat) :
  forall (h : Hasher.t) (parentBlock cv : Uint32Array.t),
    0 < Hasher.cvStackLen h <= Z.of_nat fuel ->
    List.length parentBlock = 16%nat -> List.length cv = 8%nat ->
    exists root h',
      Hasher.finalize_loop fuel h parentBlock cv = Returns (Some root, h')
      /\ ChunkState.o_counter root = 0
      /\ Hasher.cvStackLen h' = 0.
Proof.
  induction fuel as [|fuel IH]; intros h parentBlock cv Hlen Hpb Hcv; [lia|].
  cbn [Hasher.finalize_loop].
  replace (Hasher.cvStackLen h >? 0) with true by (symmetry; apply Z.gtb_lt; lia).
  cbn [Hasher.cvStack Hasher.cvStackLen Hasher.keyWords Hasher.flags].
  set (n := Hasher.cvStackLen h - 1).
  destruct (set32_returns parentBlock
              (Uint32Array.subarray (Hasher.cvStack h) (n * 8) ((n + 1) * 8)) 0)
    as [pb1 [E1 L1]].
  { lia. }
  { pose proof (subarray_length (Hasher.cvStack h) (n * 8) ((n + 1) * 8)).
    unfold Uint32Array.length in *. lia. }
  rewrite E1. cbn [bind].
  destruct (set32_returns pb1 cv 8) as [pb2 [E2 L2]].
  { lia. }
  { unfold Uint32Array.length. lia. }
  rewrite E2. cbn [bind].
  destruct (n >? 0) eqn:Hn.
  - apply Z.gtb_lt in Hn.
    apply IH.
    + cbn [Hasher.cvStackLen]. lia.
    + congruence.
    + rewrite compress_length. exact Hcv.
  - rewrite Z.gtb_ltb in Hn; apply Z.ltb_ge in Hn.
    eexists. eexists. split; [reflexivity|]. cbn. split; [reflexivity|lia].
Qed.

(** [finalizeOutput] returns; it leaves the stack length at 0, whatever it
    was, and on a hasher that keeps [acc_inv] the counter of the seed is 0. *)
Lemma finalizeOutput_returns (h : Hasher.t) :
  0 <= Hasher.cvStackLen h ->
  exists output h',
    Hasher.finalizeOutput h = Returns (output, h')
    /\ Hasher.cvStackLen h' = 0
    /\ (acc_inv h -> ChunkState.o_counter output = 0).
Proof.
  intros Hlen. unfold Hasher.finalizeOutput, ChunkState.output. cbv beta iota zeta.
  cbn [Hasher.cvStackLen Hasher.chunkState ChunkState.o_inputCv ChunkState.o_blockWords
       ChunkState.o_counter ChunkState.o_blockLen ChunkState.o_flags].
  destruct (Hasher.cvStackLen h >? 0) eqn:Hpos.
  - apply Z.gtb_lt in Hpos.
    match goal with
    | |- context [Hasher.finalize_loop ?f ?h1 ?pb ?cv] =>
        destruct (finalize_loop_returns f h1 pb cv) as [root [h' [E [Hc Hl]]]]
    end.
    + cbn [Hasher.cvStackLen]. lia.
    + reflexivity.
    + rewrite compress_length. reflexivity.
    + rewrite E. cbn [bind]. exists root, h'.
      split; [reflexivity|]. split; [exact Hl|]. intros _. exact Hc.
  - rewrite Z.gtb_ltb in Hpos; apply Z.ltb_ge in Hpos.
    eexists. eexists. split; [reflexivity|].
    cbn [Hasher.cvStackLen ChunkState.o_counter]. split; [lia|].
    intros [_ [HN Hpop]].
    apply popcount_zero; [lia|]. lia.
Qed.

(** X22: for a hasher that calls of [update] produced from a new one,
    [finalizeXof] returns a reader over the seed that [finalizeOutput]
    gives (input CV, block, block length, and its flags with ROOT), at
    counter 0; every sequence of [read] calls on it returns, and the
    concatenation of the arrays returned is the prefix of that length of the
    stream of this seed, whose byte at offset [o] is byte [o mod 64] of the
    64-byte extended output of compressing the seed with counter [o / 64]
    (definition [xof_byte]); the reads leave the seed as it is. *)
Theorem xof_reads_are_stream_prefix (keyWords : Uint32Array.t) (flags : Z) (h : Hasher.t)
    (lengths : list Z)
    (Hreach : Hasher.reachable keyWords flags h)
    (Hlengths : Forall (fun n => 0 <= n) lengths) :
  exists output r h' outs r',
    Hasher.finalizeOutput h = Returns (output, h')
    /\ Hasher.finalizeXof h = Returns (r, h')
    /\ XofReader.inputCv r = map JS.ToUint32 (ChunkState.o_inputCv output)
    /\ XofReader.blockWords r = map JS.ToUint32 (ChunkState.o_blockWords output)
    /\ XofReader.blockLen r = ChunkState.o_blockLen output
    /\ XofReader.flags r = JS.bor (ChunkState.o_flags output) ROOT
    /\ XofReader.counter r = 0
    /\ read_all r lengths = Returns (outs, r')
    /\ List.concat outs = xof_bytes r 0 (sum_lengths lengths)
    /\ XofReader.inputCv r' = XofReader.inputCv r
    /\ XofReader.blockWords r' = XofReader.blockWords r
    /\ XofReader.blockLen r' = XofReader.blockLen r
    /\ XofReader.flags r' = XofReader.flags r.
Proof.
  pose proof (reachable_acc_inv _ _ _ Hreach) as Hinv.
  destruct (finalizeOutput_returns h) as [output [h' [E [_ Hc]]]].
  { destruct Hinv as [_ [_ Hlen]]. rewrite Hlen. apply popcount_nonneg. }
  specialize (Hc Hinv).
  unfold Hasher.finalizeXof. rewrite E. cbn [bind]. rewrite Hc.
  set (r := XofReader.new _ _ 0 _ _).
  destruct (read_all_spec r lengths Hlengths r 0 (new_reader_inv _ _ _ _))
    as [outs [r' [Er [Hinv' Houts]]]].
  exists output, r, h', outs, r'.
  destruct Hinv' as [Hcv Hbw Hbl Hfl _ _ _ _ _].
  split; [reflexivity|]. split; [reflexivity|].
  split; [reflexivity|]. split; [reflexivity|]. split; [reflexivity|].
  split; [reflexivity|]. split; [reflexivity|].
  split; [exact Er|]. split; [exact Houts|].
  repeat split; assumption.
Qed.

End Reader.

Lemma xof_reads_are_stream_prefix_witness :
  @Hasher.reachable (Spec.env true) IV 0 (hasher_after (Spec.env true) (pattern 1025))
  /\ Forall (fun n => 0 <= n) [3; 70; 0; 64]
  /\ exists output r h' outs r',
       @Hasher.finalizeOutput (Spec.env true) (hasher_after (Spec.env true) (pattern 1025))
         = Returns (output, h')
       /\ @Hasher.finalizeXof (Spec.env true) (hasher_after (Spec.env true) (pattern 1025))
          = Returns (r, h')
       /\ XofReader.inputCv r = map JS.ToUint32 (ChunkState.o_inputCv output)
       /\ XofReader.blockWords r = map JS.ToUint32 (ChunkState.o_blockWords output)
       /\ XofReader.blockLen r = ChunkState.o_blockLen output
       /\ XofReader.flags r = JS.bor (ChunkState.o_flags output) ROOT
       /\ XofReader.counter r = 0
       /\ @read_all (Spec.env true) r [3; 70; 0; 64] = Returns (outs, r')
       /\ List.concat outs = @xof_bytes (Spec.env true) r 0 (sum_lengths [3; 70; 0; 64])
       /\ XofReader.inputCv r' = XofReader.inputCv r
       /\ XofReader.blockWords r' = XofReader.blockWords r
       /\ XofReader.blockLen r' = XofReader.blockLen r
       /\ XofReader.flags r' = XofReader.flags r.
Proof.
  assert (R : @Hasher.reachable (Spec.env true) IV 0
                (hasher_after (Spec.env true) (pattern 1025))).
  { apply (@Hasher.reach_update (Spec.env true) IV 0 Hasher.new
             (Uint8Array.of_list (pattern 1025))).
    - apply Hasher.reach_new.
    - vm_compute. reflexivity. }
  assert (F : Forall (fun n => 0 <= n) [3; 70; 0; 64]).
  { repeat constructor; lia. }
  split; [exact R|]. split; [exact F|].
  exact (@xof_reads_are_stream_prefix (Spec.env true) IV 0 _ [3; 70; 0; 64] R F).
Defined.

(** ** [update] returns *)

Section UpdateReturns.
Context {e : Env}.

Lemma for_loop_length (n : Z) (body : Z -> Uint32Array.t -> Uint32Array.t) (a : Uint32Array.t) :
  (forall i s, List.length (body i s) = List.length s) ->
  List.length (for_loop n body a) = List.length a.
Proof.
  intros Hbody. unfold for_loop.
  apply (for_from_invariant (fun s => List.length s = List.length a)).
  - intros i s Hs. rewrite Hbody. exact Hs.
  - reflexivity.
Qed.

Lemma readLittleEndianWordsFull_length input offset words :
  List.length (readLittleEndianWordsFull input offset words) = List.length words.
Proof.
  unfold readLittleEndianWordsFull. apply for_loop_length.
  intros i s. apply store32_length.
Qed.

Lemma fill_partial_length input inputOffset blockLen take bw :
  List.length (ChunkState.fill_partial input inputOffset blockLen take bw) = List.length bw.
Proof.
  unfold ChunkState.fill_partial. apply for_loop_length.
  intros i s. cbv zeta. destruct (JS.band (blockLen + i) 3 =? 0); apply store32_length.
Qed.

Lemma words_of_bytes_length (count : nat) (bs : list Z) :
  List.length (Uint32Array.words_of_bytes count bs) = count.
Proof.
  revert bs. induction count as [|count IH]; intros bs; cbn [Uint32Array.words_of_bytes];
    [reflexivity|]. cbn [List.length]. rewrite IH. reflexivity.
Qed.

Lemma view_returns (buffer : list Z) (byteOffset len : Z) :
  (4 | byteOffset) -> 0 <= byteOffset -> 0 <= len ->
  byteOffset + 4 * len <= Z.of_nat (List.length buffer) ->
  Uint32Array.view buffer byteOffset len
  = Returns (Uint32Array.words_of_bytes (Z.to_nat len) (skipn (Z.to_nat byteOffset) buffer)).
Proof.
  intros Hdiv Hoff Hlen Hfit. unfold Uint32Array.view.
  apply Z.mod_divide in Hdiv; [|lia]. rewrite Hdiv. cbn [Z.eqb negb].
  replace ((byteOffset <? 0) || (len <? 0)
           || (Z.of_nat (List.length buffer) <? byteOffset + 4 * len)) with false.
  - reflexivity.
  - symmetry. rewrite !orb_false_iff. repeat split; apply Z.ltb_ge; lia.
Qed.

(** One iteration of the loop of [ChunkState.update] takes at least one
    byte and keeps the block buffer within 64 bytes. *)
Lemma chunk_update_step_returns (cs : ChunkState.t) (input : Uint8Array.t)
    (inputOffset inputLen : Z) :
  0 <= ChunkState.blockLen cs <= 64 ->
  List.length (ChunkState.blockWords cs) = 16%nat ->
  input_ok input -> 0 <= inputOffset -> 0 < inputLen ->
  inputOffset + inputLen <= Uint8Array.length input ->
  aligned input inputOffset (ChunkState.blockLen cs) ->
  exists cs' take,
    ChunkState.update_step cs input inputOffset inputLen = Returns (cs', take)
    /\ 1 <= take <= inputLen
    /\ ChunkState.len cs' = ChunkState.len cs + take
    /\ 1 <= ChunkState.blockLen cs' <= 64
    /\ ChunkState.blocksCompressed cs <= ChunkState.blocksCompressed cs'
    /\ List.length (ChunkState.blockWords cs') = 16%nat
    /\ aligned input (inputOffset + take) (ChunkState.blockLen cs').
Proof.
  intros Hbl Hbw [Hbo [Hil Hbuf]] Hio Hn Hfit Hal.
  unfold ChunkState.update_step.
  set (cs1 := if ChunkState.blockLen cs =? BLOCK_LEN then _ else cs).
  assert (H1 : 0 <= ChunkState.blockLen cs1 < 64
               /\ ChunkState.len cs1 = ChunkState.len cs
               /\ ChunkState.blocksCompressed cs <= ChunkState.blocksCompressed cs1
               /\ List.length (ChunkState.blockWords cs1) = 16%nat
               /\ aligned input inputOffset (ChunkState.blockLen cs1)).
  { subst cs1. unfold BLOCK_LEN.
    destruct (ChunkState.blockLen cs =? 64) eqn:Hfull.
    - apply Z.eqb_eq in Hfull. unfold ChunkState.len, BLOCK_LEN.
      cbn [ChunkState.blockLen ChunkState.blocksCompressed ChunkState.blockWords].
      repeat split; try lia; try assumption.
      intros Hle. specialize (Hal Hle). rewrite Hfull in Hal.
      destruct Hal as [k Hk]. exists (k + 16). lia.
    - apply Z.eqb_neq in Hfull. repeat split; try lia; assumption. }
  clearbody cs1. destruct H1 as [Hbl1 [Hlen1 [Hbc1 [Hbw1 Hal1]]]].
  cbv zeta. unfold BLOCK_LEN.
  set (take := Z.min (64 - ChunkState.blockLen cs1) inputLen).
  assert (Htake : 1 <= take <= inputLen /\ ChunkState.blockLen cs1 + take <= 64) by lia.
  assert (Hbw' : exists bw,
    (if IS_LITTLE_ENDIAN && (ChunkState.blockLen cs1 =? 0) && (take =? 64)
     then inputWords <- Uint32Array.view (Uint8Array.buffer input)
                          (Uint8Array.byteOffset input + inputOffset) 16 ;;
          Uint32Array.set (ChunkState.blockWords cs1) inputWords 0
     else if (ChunkState.blockLen cs1 =? 0) && (take =? 64)
          then Returns (readLittleEndianWordsFull input inputOffset (ChunkState.blockWords cs1))
          else Returns (ChunkState.fill_partial input inputOffset (ChunkState.blockLen cs1)
                          take (ChunkState.blockWords cs1)))
    = Returns bw /\ List.length bw = 16%nat).
  { destruct (IS_LITTLE_ENDIAN && (ChunkState.blockLen cs1 =? 0) && (take =? 64)) eqn:Hfast.
    - rewrite !andb_true_iff in Hfast. destruct Hfast as [[Hle Hz] Ht].
      apply Z.eqb_eq in Hz. apply Z.eqb_eq in Ht.
      specialize (Hal1 Hle). rewrite Hz in Hal1.
      rewrite view_returns; try lia.
      2:{ replace (Uint8Array.byteOffset input + inputOffset)
            with (Uint8Array.byteOffset input + inputOffset - 0) by lia. exact Hal1. }
      cbn [bind].
      match goal with
      | |- context [Uint32Array.set ?dst ?ws 0] =>
          destruct (set32_returns dst ws 0) as [bw [Es Ls]]
      end.
      { lia. }
      { unfold Uint32Array.length. rewrite words_of_bytes_length, Hbw1. lia. }
      exists bw. split; [exact Es|congruence].
    - destruct ((ChunkState.blockLen cs1 =? 0) && (take =? 64)); eexists;
        (split; [reflexivity|]).
      + rewrite readLittleEndianWordsFull_length. exact Hbw1.
      + rewrite fill_partial_length. exact Hbw1. }
  destruct Hbw' as [bw [Ebw Lbw]]. rewrite Ebw. cbn [bind].
  eexists. eexists. split; [reflexivity|].
  unfold ChunkState.len, BLOCK_LEN in *.
  cbn [ChunkState.blockLen ChunkState.blocksCompressed ChunkState.blockWords].
  repeat split; try lia; try assumption.
  intros Hle. specialize (Hal1 Hle). destruct Hal1 as [k Hk]. exists k. lia.
Qed.

Lemma chunk_update_loop_returns (input : Uint8Array.t) (fuel : nat) :
  input_ok input ->
  forall (cs : ChunkState.t) (inputOffset inputLen consumed : Z),
    0 <= ChunkState.blockLen cs <= 64 ->
    List.length (ChunkState.blockWords cs) = 16%nat ->
    0 <= inputOffset -> 0 <= inputLen <= Z.of_nat fuel ->
    inputOffset + inputLen <= Uint8Array.length input ->
    aligned input inputOffset (ChunkState.blockLen cs) ->
    exists cs' consumed',
      ChunkState.update_loop fuel cs input inputOffset inputLen consumed
        = Returns (cs', consumed')
      /\ ChunkState.len cs' = ChunkState.len cs + inputLen
      /\ 0 <= ChunkState.blockLen cs' <= 64
      /\ (0 < inputLen -> 1 <= ChunkState.blockLen cs')
      /\ ChunkState.blocksCompressed cs <= ChunkState.blocksCompressed cs'
      /\ List.length (ChunkState.blockWords cs') = 16%nat
      /\ aligned input (inputOffset + inputLen) (ChunkState.blockLen cs').
Proof.
  intros Hin. induction fuel as [|fuel IH];
    intros cs inputOffset inputLen consumed Hbl Hbw Hio Hn Hfit Hal;
    cbn [ChunkState.update_loop]; destruct (inputLen >? 0) eqn:Hpos;
    try (apply Z.gtb_lt in Hpos); try (rewrite Z.gtb_ltb in Hpos; apply Z.ltb_ge in Hpos).
  - lia.
  - assert (inputLen = 0) by lia. subst inputLen.
    exists cs, consumed. rewrite !Z.add_0_r. repeat split; try lia; assumption.
  - destruct (chunk_update_step_returns cs input inputOffset inputLen Hbl Hbw Hin Hio
                ltac:(lia) Hfit Hal)
      as [cs1 [take [E [Ht [Hlen [Hbl1 [Hbc [Hbw1 Hal1]]]]]]]].
    rewrite E. cbn [bind].
    destruct (IH cs1 (inputOffset + take) (inputLen - take) (consumed + take))
      as [cs' [c' [E' [Hlen' [Hbl' [Hpos' [Hbc' [Hbw' Hal']]]]]]]]; try lia; try assumption.
    exists cs', c'. split; [exact E'|].
    replace (inputOffset + take + (inputLen - take)) with (inputOffset + inputLen) in Hal'
      by lia.
    repeat split; try lia; try assumption.
    intros _. destruct (Z_lt_dec 0 (inputLen - take)) as [Hmore|Hdone].
    + apply Hpos'. exact Hmore.
    + assert (Hz : inputLen - take = 0) by lia.
      rewrite Hz in E'. destruct fuel; cbn [ChunkState.update_loop] in E';
        change (0 >? 0) with false in E'; cbv iota in E'; injection E' as <- _; lia.
  - assert (inputLen = 0) by lia. subst inputLen.
    exists cs, consumed. rewrite !Z.add_0_r. repeat split; try lia; assumption.
Qed.

Lemma new_hasher_inv (keyWords : Uint32Array.t) (flags : Z) :
  hasher_inv (Hasher.new_ keyWords flags).
Proof.
  split; [apply new_acc_inv|]. split; [|reflexivity].
  unfold chunk_inv, Hasher.new_, ChunkState.new, ChunkState.len, BLOCK_LEN.
  cbn [Hasher.chunkState ChunkState.blockLen ChunkState.blocksCompressed ChunkState.blockWords].
  repeat split; try lia.
Qed.

Lemma update_step_returns (h : Hasher.t) (input : Uint8Array.t) (inputOffset inputLen : Z) :
  hasher_inv h -> input_ok input -> 0 <= inputOffset -> 0 < inputLen ->
  inputOffset + inputLen <= Uint8Array.length input ->
  aligned input inputOffset (ChunkState.blockLen (Hasher.chunkState h)) ->
  total h + inputLen <= 1024 * 2 ^ 32 ->
  exists h' take,
    Hasher.update_step h input inputOffset inputLen = Returns (h', take)
    /\ 1 <= take <= inputLen
    /\ hasher_inv h'
    /\ total h' = total h + take
    /\ 1 <= ChunkState.len (Hasher.chunkState h')
    /\ Hasher.keyWords h' = Hasher.keyWords h
    /\ Hasher.flags h' = Hasher.flags h
    /\ aligned input (inputOffset + take) (ChunkState.blockLen (Hasher.chunkState h')).
Proof.
  intros [Hacc [Hchunk Hlazy]] Hin Hio Hn Hfit Hal Hcap.
  unfold Hasher.update_step.
  assert (H1 : exists h1,
    (if ChunkState.len (Hasher.chunkState h) =? CHUNK_LEN
     then Hasher.rollChunk h else Returns h) = Returns h1
    /\ acc_inv h1 /\ chunk_inv (Hasher.chunkState h1)
    /\ ChunkState.len (Hasher.chunkState h1) < 1024
    /\ total h1 = total h
    /\ Hasher.keyWords h1 = Hasher.keyWords h
    /\ Hasher.flags h1 = Hasher.flags h
    /\ aligned input inputOffset (ChunkState.blockLen (Hasher.chunkState h1))).
  { unfold CHUNK_LEN. destruct Hchunk as [Hbl [Hbc [Hlen Hbw]]].
    destruct (ChunkState.len (Hasher.chunkState h) =? 1024) eqn:Hfull.
    - apply Z.eqb_eq in Hfull.
      destruct (rollChunk_returns h Hacc) as [h1 [E [Hacc1 [HN1 [Hk1 [Hf1 _]]]]]].
      { unfold total in Hcap. destruct Hacc as [_ [HN _]]. lia. }
      exists h1. split; [exact E|].
      assert (Hcs : Hasher.chunkState h1
                    = ChunkState.new (Hasher.keyWords h1)
                        (ChunkState.chunkCounter (Hasher.chunkState h) + 1)
                        (Hasher.flags h1)).
      { rewrite rollChunk_unfold in E.
        destruct (Hasher.merge_loop 33 (Hasher.roll_start h)); try discriminate.
        cbn [bind] in E.
        destruct (Hasher.pushCv _ _ _); try discriminate.
        cbn [bind] in E. injection E as <-. reflexivity. }
      split; [exact Hacc1|].
      unfold total, chunk_inv. rewrite Hcs.
      unfold ChunkState.new, ChunkState.len, BLOCK_LEN in *.
      cbn [ChunkState.blockLen ChunkState.blocksCompressed ChunkState.blockWords
           ChunkState.chunkCounter].
      repeat split; try lia; try assumption.
      intros Hle. specialize (Hal Hle). destruct Hal as [k Hk].
      assert (Hq : ChunkState.blockLen (Hasher.chunkState h)
                   = 64 * (16 - ChunkState.blocksCompressed (Hasher.chunkState h))) by lia.
      exists (k + 16 * (16 - ChunkState.blocksCompressed (Hasher.chunkState h))). lia.
    - apply Z.eqb_neq in Hfull. exists h.
      split; [reflexivity|]. split; [exact Hacc|].
      unfold chunk_inv. repeat split; try lia; try assumption. }
  destruct H1 as [h1 [E1 [Hacc1 [Hchunk1 [Hlen1 [Htot1 [Hk1 [Hf1 Hal1]]]]]]]].
  rewrite E1. cbn [bind]. cbv zeta. unfold CHUNK_LEN.
  set (take := Z.min (1024 - ChunkState.len (Hasher.chunkState h1)) inputLen).
  destruct Hchunk1 as [Hbl1 [Hbc1 [_ Hbw1]]].
  unfold ChunkState.update.
  destruct (chunk_update_loop_returns input (Z.to_nat take) Hin (Hasher.chunkState h1)
              inputOffset take 0)
    as [cs' [c' [E' [Hlen' [Hbl' [Hpos' [Hbc' [Hbw' Hal']]]]]]]]; try lia; try assumption.
  rewrite E'. cbn [bind].
  eexists. eexists. split; [reflexivity|].
  assert (Hcnt : ChunkState.chunkCounter cs'
                 = ChunkState.chunkCounter (Hasher.chunkState h1)).
  { eapply chunk_update_loop_counter. exact E'. }
  unfold hasher_inv, acc_inv, chunk_inv, total in *.
  cbn [Hasher.chunkState Hasher.cvStack Hasher.cvStackLen Hasher.keyWords Hasher.flags].
  rewrite Hcnt.
  assert (Hlenpos : 1 <= ChunkState.len cs').
  { unfold ChunkState.len, BLOCK_LEN in *. specialize (Hpos' ltac:(lia)). nia. }
  repeat split; try lia; try tauto.
Qed.

Lemma update_loop_returns (input : Uint8Array.t) (fuel : nat) :
  input_ok input ->
  forall (h : Hasher.t) (inputOffset inputLen : Z),
    hasher_inv h -> 0 <= inputOffset -> 0 <= inputLen <= Z.of_nat fuel ->
    inputOffset + inputLen <= Uint8Array.length input ->
    aligned input inputOffset (ChunkState.blockLen (Hasher.chunkState h)) ->
    total h + inputLen <= 1024 * 2 ^ 32 ->
    exists h',
      Hasher.update_loop fuel h input inputOffset inputLen = Returns h'
      /\ hasher_inv h'
      /\ total h' = total h + inputLen
      /\ Hasher.keyWords h' = Hasher.keyWords h
      /\ Hasher.flags h' = Hasher.flags h.
Proof.
  intros Hin. induction fuel as [|fuel IH];
    intros h inputOffset inputLen Hinv Hio Hn Hfit Hal Hcap;
    cbn [Hasher.update_loop]; destruct (inputLen >? 0) eqn:Hpos;
    try (apply Z.gtb_lt in Hpos); try (rewrite Z.gtb_ltb in Hpos; apply Z.ltb_ge in Hpos).
  - lia.
  - exists h. split; [reflexivity|]. split; [exact Hinv|]. split; [lia|]. split; reflexivity.
  - destruct (update_step_returns h input inputOffset inputLen Hinv Hin Hio Hpos Hfit Hal Hcap)
      as [h1 [take [E [Ht [Hinv1 [Htot1 [_ [Hk1 [Hf1 Hal1]]]]]]]]].
    rewrite E. cbn [bind].
    destruct (IH h1 (inputOffset + take) (inputLen - take)) as [h' [E' [Hinv' [Htot' [Hk' Hf']]]]];
      try lia; try assumption.
    exists h'. split; [exact E'|]. split; [exact Hinv'|].
    split; [lia|]. split; congruence.
  - exists h. split; [reflexivity|]. split; [exact Hinv|]. split; [lia|]. split; reflexivity.
Qed.

(** [update] returns on every input that starts at the alignment of the
    block buffer (on a big-endian host: on every input), as long as the
    hasher stays within 2^32 chunks. *)
Lemma update_returns (h : Hasher.t) (input : Uint8Array.t) :
  hasher_inv h -> input_ok input ->
  aligned input 0 (ChunkState.blockLen (Hasher.chunkState h)) ->
  total h + Uint8Array.length input <= 1024 * 2 ^ 32 ->
  exists h',
    Hasher.update h input = Returns h'
    /\ hasher_inv h'
    /\ total h' = total h + Uint8Array.length input
    /\ Hasher.keyWords h' = Hasher.keyWords h
    /\ Hasher.flags h' = Hasher.flags h.
Proof.
  intros Hinv Hin Hal Hcap. unfold Hasher.update.
  apply update_loop_returns; try assumption; destruct Hin as [_ [Hlen _]]; lia.
Qed.

(** Every chunk count below 2^32 is reached: one [update] with a fresh array
    of [1024 * (N + 1)] bytes leaves [N] chunks pushed and the open chunk
    full. *)
Lemma reachable_chunks (keyWords : Uint32Array.t) (flags : Z) (N : Z) :
  0 <= N < 2 ^ 32 ->
  exists h,
    Hasher.reachable keyWords flags h
    /\ hasher_inv h
    /\ ChunkState.chunkCounter (Hasher.chunkState h) = N
    /\ ChunkState.len (Hasher.chunkState h) = 1024.
Proof.
  intros HN.
  set (input := Uint8Array.of_list (repeat 0 (Z.to_nat (1024 * (N + 1))))).
  assert (Hlen : Uint8Array.length input = 1024 * (N + 1)).
  { subst input. unfold Uint8Array.of_list. cbn [Uint8Array.length].
    rewrite repeat_length. lia. }
  assert (Hin : input_ok input).
  { unfold input_ok. rewrite Hlen. subst input. unfold Uint8Array.of_list.
    cbn [Uint8Array.byteOffset Uint8Array.buffer]. rewrite repeat_length. lia. }
  destruct (update_returns (Hasher.new_ keyWords flags) input (new_hasher_inv _ _) Hin)
    as [h [E [Hinv [Htot _]]]].
  { intros _. exists 0. subst input. reflexivity. }
  { rewrite Hlen. unfold total, Hasher.new_, ChunkState.new, ChunkState.len.
    cbn [Hasher.chunkState ChunkState.chunkCounter ChunkState.blocksCompressed
         ChunkState.blockLen]. lia. }
  exists h. split.
  { eapply Hasher.reach_update; [apply Hasher.reach_new|exact E]. }
  split; [exact Hinv|].
  rewrite Hlen in Htot.
  destruct Hinv as [[_ [HN' _]] [[Hbl [Hbc [Hlen' _]]] Hlazy]].
  unfold total, Hasher.new_, ChunkState.new in Htot.
  cbn [Hasher.chunkState ChunkState.chunkCounter] in Htot.
  unfold ChunkState.len in Htot at 2.
  cbn [ChunkState.blocksCompressed ChunkState.blockLen] in Htot.
  assert (Hnn : 0 <= ChunkState.len (Hasher.chunkState h)).
  { unfold ChunkState.len, BLOCK_LEN. lia. }
  assert (Hpos : ChunkState.len (Hasher.chunkState h) <> 0).
  { intros Hz. specialize (Hlazy Hz). lia. }
  lia.
Qed.

Lemma pops_succ (fuel : nat) (m : Hasher.merge_t) :
  Hasher.pops (S fuel) m
  = if Hasher.merge_guard m
    then Hasher.cvStackLen (Hasher.m_hasher m)
           :: match Hasher.merge_body m with
              | Returns m' => Hasher.pops fuel m'
              | _ => []
              end
    else [].
Proof. reflexivity. Qed.

(** At [totalChunks = 0] the loop pops at every iteration. *)
Lemma pops_zero (fuel : nat) :
  forall (m : Hasher.merge_t) (k : nat) (d : Z),
    Hasher.m_totalChunks m = 0 ->
    List.length (Hasher.m_parentBlock m) = 16%nat ->
    (k < fuel)%nat ->
    nth k (Hasher.pops fuel m) d = Hasher.cvStackLen (Hasher.m_hasher m) - Z.of_nat k.
Proof.
  induction fuel as [|fuel IH]; intros m k d Ht Hpb Hk; [lia|].
  rewrite pops_succ. unfold Hasher.merge_guard.
  rewrite Ht. change (JS.band 0 1 =? 0) with true. cbv iota.
  destruct (merge_body_returns m Hpb) as [m1 [E [_ [L [T [_ P]]]]]].
  rewrite E. destruct k as [|k]; cbn [nth].
  - cbn [Z.of_nat]. lia.
  - rewrite (IH m1 k d); try assumption; try lia.
    rewrite T, Ht. reflexivity.
Qed.

(** A hasher with [2^32 - 1] chunks pushed and the open chunk full: the
    push of chunk number 2^32 does not return, and its merge loop pops at
    stack length 0. *)
Lemma push_4294967296 (h : Hasher.t) :
  hasher_inv h ->
  ChunkState.chunkCounter (Hasher.chunkState h) = 2 ^ 32 - 1 ->
  ChunkState.len (Hasher.chunkState h) = 1024 ->
  Hasher.cvStackLen h = 32
  /\ Hasher.rollChunk h = OutOfFuel
  /\ Hasher.update h (Uint8Array.of_list [0]) = OutOfFuel
  /\ nth 32 (Hasher.pops 33 (Hasher.roll_start h)) 1 = 0.
Proof.
  intros [[_ [_ Hlen]] _] HN Hfull.
  assert (Hroll : Hasher.rollChunk h = OutOfFuel) by (apply rollChunk_hangs; lia).
  assert (H32 : Hasher.cvStackLen h = 32) by (rewrite Hlen, HN; reflexivity).
  split; [exact H32|]. split; [exact Hroll|]. split.
  - change (Hasher.update h (Uint8Array.of_list [0]))
      with (bind (Hasher.update_step h (Uint8Array.of_list [0]) 0 1)
              (fun x => let '(h', take) := x in
                        Hasher.update_loop 0 h' (Uint8Array.of_list [0]) (0 + take) (1 - take))).
    unfold Hasher.update_step. rewrite Hfull. change (1024 =? CHUNK_LEN) with true.
    cbv iota. rewrite Hroll. reflexivity.
  - destruct (roll_start_fields h) as [_ [_ [_ [L0 [T0 P0]]]]].
    change 33%nat with (S 32). rewrite pops_succ. unfold Hasher.merge_guard.
    rewrite T0, HN. change (JS.band (2 ^ 32 - 1 + 1) 1 =? 0) with true. cbv iota.
    destruct (merge_body_returns (Hasher.roll_start h) P0) as [m1 [E [_ [L [T [_ P]]]]]].
    rewrite E. change (nth 32 (?x :: ?l) 1) with (nth 31 l 1).
    rewrite (pops_zero 32 m1 31 1); try assumption; try lia.
    rewrite T, T0, HN. reflexivity.
Qed.

End UpdateReturns.

(** Chunk number 2^32: there is a hasher, produced by [update] from a
    new one, with [2^32 - 1] chunks pushed and 32 entries on its stack, on
    which the push of the next chunk does not return: [update] with one more
    byte runs out of any fuel, and the merge loop of the push pops the 32
    entries and then pops at stack length 0. *)
Lemma chunk_4294967296_is_never_pushed :
  exists h,
    @Hasher.reachable (Spec.env true) IV 0 h
    /\ ChunkState.chunkCounter (Hasher.chunkState h) = 2 ^ 32 - 1
    /\ Hasher.cvStackLen h = 32
    /\ @Hasher.rollChunk (Spec.env true) h = OutOfFuel
    /\ @Hasher.update (Spec.env true) h (Uint8Array.of_list [0]) = OutOfFuel
    /\ nth 32 (@Hasher.pops (Spec.env true) 33 (@Hasher.roll_start (Spec.env true) h)) 1 = 0.
Proof.
  destruct (@reachable_chunks (Spec.env true) IV 0 (2 ^ 32 - 1) ltac:(lia))
    as [h [R [Hinv [HN Hfull]]]].
  destruct (@push_4294967296 (Spec.env true) h Hinv HN Hfull) as [H32 [Hroll [Hupd Hpop]]].
  exists h. repeat split; assumption.
Qed.

(** ** Loading little-endian words *)

Lemma land_low_high (s m k : Z) : 0 <= k -> 0 <= s < 2 ^ k -> Z.land s (m * 2 ^ k) = 0.
Proof.
  intros Hk Hs. apply Z.bits_inj'. intros n Hn.
  rewrite Z.land_spec, Z.bits_0.
  destruct (Z_lt_dec n k) as [Hlt|Hge].
  - rewrite Z.mul_pow2_bits_low by lia. apply andb_false_r.
  - destruct (Z.eq_dec s 0) as [Hz|Hnz]; [subst s; rewrite Z.bits_0; reflexivity|].
    rewrite (Z.bits_above_log2 s n); [reflexivity|lia|].
    assert (Z.log2 s < k) by (apply Z.log2_lt_pow2; lia). lia.
Qed.

Lemma lor_low_high (s m k : Z) :
  0 <= k -> 0 <= s < 2 ^ k -> Z.lor s (m * 2 ^ k) = s + m * 2 ^ k.
Proof.
  intros Hk Hs. pose proof (land_low_high s m k Hk Hs) as Hland.
  rewrite (Z.add_nocarry_lxor _ _ Hland). symmetry. apply Z.lxor_lor. exact Hland.
Qed.

(** The expression [b0 | (b1 << 8) | (b2 << 16) | (b3 << 24)], stored in a
    [Uint32Array], is the little-endian word of the four bytes. *)
Lemma le_word_js (b0 b1 b2 b3 : Z) :
  0 <= b0 < 256 -> 0 <= b1 < 256 -> 0 <= b2 < 256 -> 0 <= b3 < 256 ->
  JS.ToUint32 (JS.bor (JS.bor (JS.bor b0 (JS.shl b1 8)) (JS.shl b2 16)) (JS.shl b3 24))
  = Uint32Array.word_of_bytes b0 b1 b2 b3.
Proof.
  intros H0 H1 H2 H3. unfold Uint32Array.word_of_bytes.
  rewrite (shl_small b1 8) by lia.
  rewrite (shl_small b2 16) by lia.
  assert (E1 : JS.bor b0 (b1 * 2 ^ 8) = b0 + b1 * 2 ^ 8).
  { unfold JS.bor. rewrite (ToInt32_small b0), (ToInt32_small (b1 * 2 ^ 8)) by lia.
    apply lor_low_high; lia. }
  rewrite E1.
  assert (E2 : JS.bor (b0 + b1 * 2 ^ 8) (b2 * 2 ^ 16) = b0 + b1 * 2 ^ 8 + b2 * 2 ^ 16).
  { unfold JS.bor.
    rewrite (ToInt32_small (b0 + b1 * 2 ^ 8)), (ToInt32_small (b2 * 2 ^ 16)) by lia.
    apply lor_low_high; lia. }
  rewrite E2.
  set (s := b0 + b1 * 2 ^ 8 + b2 * 2 ^ 16).
  assert (Hs : 0 <= s < 2 ^ 24) by (subst s; lia).
  assert (E3 : exists m, JS.ToInt32 (JS.shl b3 24) = m * 2 ^ 24
                         /\ (m = b3 \/ m = b3 - 256)).
  { unfold JS.shl. rewrite (ToInt32_small b3) by lia.
    change (Z.land (JS.ToUint32 24) 31) with 24.
    rewrite Z.shiftl_mul_pow2 by lia.
    destruct (Z_lt_dec b3 128) as [Hlo|Hhi].
    - exists b3. rewrite !(ToInt32_small (b3 * 2 ^ 24)) by lia.
      split; [reflexivity|left; reflexivity].
    - exists (b3 - 256). split; [|right; reflexivity].
      assert (E : JS.ToInt32 (b3 * 2 ^ 24) = (b3 - 256) * 2 ^ 24).
      { unfold JS.ToInt32.
        replace (b3 * 2 ^ 24 + 2 ^ 31) with ((b3 * 2 ^ 24 - 2 ^ 31) + 1 * 2 ^ 32) by lia.
        rewrite Z_mod_plus_full. rewrite Z.mod_small by lia. lia. }
      rewrite E. apply ToInt32_small. lia. }
  destruct E3 as [m [Em Hm]].
  unfold JS.bor at 1. rewrite (ToInt32_small s) by lia. rewrite Em.
  rewrite lor_low_high by lia.
  unfold JS.ToUint32.
  destruct Hm as [Hm|Hm]; subst m.
  - rewrite Z.mod_small by lia. subst s. lia.
  - replace (s + (b3 - 256) * 2 ^ 24) with (s + b3 * 2 ^ 24 + (-1) * 2 ^ 32) by lia.
    rewrite Z_mod_plus_full. rewrite Z.mod_small by lia. subst s. lia.
Qed.

Lemma words_of_bytes_map (count : nat) (bs : list Z) :
  Uint32Array.words_of_bytes count bs
  = map (fun i => Uint32Array.word_of_bytes (nth (4 * i) bs 0) (nth (4 * i + 1) bs 0)
                    (nth (4 * i + 2) bs 0) (nth (4 * i + 3) bs 0))
      (seq 0 count).
Proof.
  revert bs. induction count as [|count IH]; intros bs; [reflexivity|].
  cbn [Uint32Array.words_of_bytes seq map]. f_equal.
  rewrite IH. rewrite <- seq_shift, map_map.
  apply map_ext. intros i. rewrite !nth_skipn.
  f_equal; f_equal; lia.
Qed.

Lemma get_view_bytes (a : Uint8Array.t) (i : Z) :
  0 <= Uint8Array.byteOffset a -> 0 <= i < Uint8Array.length a ->
  Uint8Array.get a i = nth (Z.to_nat i) (view_bytes a) 0.
Proof.
  intros Hbo Hi. unfold Uint8Array.get, view_bytes.
  replace ((0 <=? i) && (i <? Uint8Array.length a)) with true
    by (symmetry; apply andb_true_iff; split; [apply Z.leb_le|apply Z.ltb_lt]; lia).
  rewrite nth_firstn.
  replace (Z.to_nat i <? Z.to_nat (Uint8Array.length a))%nat with true
    by (symmetry; apply Nat.ltb_lt; lia).
  rewrite nth_skipn. f_equal. lia.
Qed.

Lemma bytes_ok_nth (bs : list Z) (i : nat) : bytes_ok bs -> 0 <= nth i bs 0 < 256.
Proof.
  intros Hok. destruct (Nat.lt_ge_cases i (List.length bs)) as [Hlt|Hge].
  - apply (proj1 (Forall_forall _ bs) Hok). apply nth_In. exact Hlt.
  - rewrite nth_overflow by exact Hge. lia.
Qed.

Lemma Forall_skipn_keeps {A : Type} (P : A -> Prop) (n : nat) (l : list A) :
  Forall P l -> Forall P (skipn n l).
Proof.
  revert l. induction n as [|n IH]; intros l Hl; [exact Hl|].
  destruct Hl as [|x l Hx Hl]; [constructor|]. cbn [skipn]. apply IH. exact Hl.
Qed.

Lemma Forall_firstn_keeps {A : Type} (P : A -> Prop) (n : nat) (l : list A) :
  Forall P l -> Forall P (firstn n l).
Proof.
  revert l. induction n as [|n IH]; intros l Hl; [constructor|].
  destruct Hl as [|x l Hx Hl]; [constructor|]. cbn [firstn]. constructor; [exact Hx|].
  apply IH. exact Hl.
Qed.

Lemma view_bytes_ok (a : Uint8Array.t) : bytes_ok (Uint8Array.buffer a) -> bytes_ok (view_bytes a).
Proof.
  intros Hok. unfold view_bytes, bytes_ok in *.
  apply Forall_firstn_keeps, Forall_skipn_keeps. exact Hok.
Qed.

Lemma for_loop_8_stores (g : Z -> Z) :
  for_loop 8 (fun i a => Uint32Array.store a i (g i)) (Uint32Array.make 8)
  = map (fun i => JS.ToUint32 (g (Z.of_nat i))) (seq 0 8).
Proof. reflexivity. Qed.

Section Keyed.
Context {e : Env}.

(** On a big-endian host, and on a little-endian host for a key view that
    starts at a multiple of 4, [newKeyed] throws exactly
    when the key does not have 32 bytes, and for a 32-byte key it returns
    the hasher whose key words are the key bytes loaded as 8 little-endian
    words, with mode flag KEYED_HASH. *)
Lemma newKeyed_aligned (key : Uint8Array.t) :
  input_ok key -> bytes_ok (Uint8Array.buffer key) ->
  (IS_LITTLE_ENDIAN = true -> (4 | Uint8Array.byteOffset key)) ->
  (Uint8Array.length key = 32 ->
   Hasher.newKeyed key
   = Returns (Hasher.new_ (Uint32Array.words_of_bytes 8 (view_bytes key)) KEYED_HASH))
  /\ (Uint8Array.length key <> 32 ->
      Hasher.newKeyed key = Throws (KeyLengthError (Uint8Array.length key))).
Proof.
  intros [Hbo [Hlen Hbuf]] Hbytes Hal. unfold Hasher.newKeyed, KEY_LEN. split.
  - intros H32. rewrite H32. change (negb (32 =? 32)) with false. cbv iota.
    assert (Hwords : forall i, (i < 8)%nat ->
              Uint32Array.word_of_bytes
                (nth (4 * i) (skipn (Z.to_nat (Uint8Array.byteOffset key))
                                (Uint8Array.buffer key)) 0)
                (nth (4 * i + 1) (skipn (Z.to_nat (Uint8Array.byteOffset key))
                                    (Uint8Array.buffer key)) 0)
                (nth (4 * i + 2) (skipn (Z.to_nat (Uint8Array.byteOffset key))
                                    (Uint8Array.buffer key)) 0)
                (nth (4 * i + 3) (skipn (Z.to_nat (Uint8Array.byteOffset key))
                                    (Uint8Array.buffer key)) 0)
              = Uint32Array.word_of_bytes
                  (nth (4 * i) (view_bytes key) 0) (nth (4 * i + 1) (view_bytes key) 0)
                  (nth (4 * i + 2) (view_bytes key) 0) (nth (4 * i + 3) (view_bytes key) 0)).
    { intros i Hi. unfold view_bytes. rewrite H32. rewrite !nth_firstn.
      change (Z.to_nat 32) with 32%nat.
      repeat match goal with
             | |- context [(?a <? 32)%nat] =>
                 replace (a <? 32)%nat with true by (symmetry; apply Nat.ltb_lt; lia)
             end.
      reflexivity. }
    destruct IS_LITTLE_ENDIAN eqn:Hle.
    + rewrite view_returns; try lia.
      2:{ apply Hal. reflexivity. }
      cbn [bind]. change (Z.to_nat 8) with 8%nat.
      assert (Hws : Uint32Array.words_of_bytes 8
                      (skipn (Z.to_nat (Uint8Array.byteOffset key)) (Uint8Array.buffer key))
                    = Uint32Array.words_of_bytes 8 (view_bytes key)).
      { rewrite !words_of_bytes_map. apply map_ext_in. intros i Hi.
        apply in_seq in Hi. apply Hwords. lia. }
      rewrite Hws. unfold Uint32Array.set.
      rewrite words_of_bytes_map. reflexivity.
    + cbn [bind].
      rewrite (for_loop_8_stores
                 (fun i => JS.bor (JS.bor (JS.bor (Uint8Array.get key (i * 4))
                                             (JS.shl (Uint8Array.get key (i * 4 + 1)) 8))
                                     (JS.shl (Uint8Array.get key (i * 4 + 2)) 16))
                             (JS.shl (Uint8Array.get key (i * 4 + 3)) 24))).
      do 2 f_equal. rewrite words_of_bytes_map. apply map_ext_in. intros i Hi.
      apply in_seq in Hi.
      rewrite !get_view_bytes by lia.
      pose proof (view_bytes_ok key Hbytes) as Hvb.
      rewrite le_word_js by (apply bytes_ok_nth; exact Hvb).
      f_equal; f_equal; lia.
  - intros Hne. replace (Uint8Array.length key =? 32) with false
      by (symmetry; apply Z.eqb_neq; exact Hne).
    reflexivity.
Qed.

End Keyed.

(** ** [finalize] of at most 64 bytes *)

(** [writeLittleEndianBytesPartial] for any byte count: whole words, then
    the one to three bytes that remain. *)
Lemma writeLittleEndianBytesPartial_bytes (words : Uint32Array.t) (wo bo n : Z)
    (out : list Z) :
  words_ok words -> 0 <= wo -> 0 <= bo -> 0 <= n < 2 ^ 30 ->
  bo + n <= Z.of_nat (List.length out) ->
  let out' := writeLittleEndianBytesPartial words wo out bo n in
  List.length out' = List.length out
  /\ (forall j, 0 <= j -> j < bo \/ bo + n <= j -> zget out' j = zget out j)
  /\ (forall j, bo <= j < bo + n ->
                zget out' j = zget (Uint32Array.bytes words) (4 * wo + (j - bo))).
Proof.
  intros Hok Hwo Hbo Hn Hfit.
  pose proof (Z.div_mod n 4 ltac:(lia)) as Hdm.
  pose proof (Z.mod_pos_bound n 4 ltac:(lia)) as Hm.
  assert (Hq : 0 <= n / 4) by (apply Z.div_pos; lia).
  set (f := n / 4) in *. set (r := n mod 4) in *.
  set (w := Uint32Array.get words (wo + f)).
  set (b := bo + 4 * f).
  set (out1 := writeLittleEndianBytesPartial words wo out bo (4 * f)).
  assert (E : writeLittleEndianBytesPartial words wo out bo n
              = if r >? 0 then
                  let o := Uint8Array.store out1 b (JS.band w 0xff) in
                  let o := if r >? 1
                           then Uint8Array.store o (b + 1) (JS.band (JS.shru w 8) 0xff)
                           else o in
                  if r >? 2
                  then Uint8Array.store o (b + 2) (JS.band (JS.shru w 16) 0xff) else o
                else out1).
  { unfold out1, writeLittleEndianBytesPartial.
    rewrite !band_3.
    rewrite (shru_small n 2) by lia. rewrite (shru_small (4 * f) 2) by lia.
    change (2 ^ 2) with 4.
    replace (4 * f / 4) with f by (rewrite Z.mul_comm, Z_div_mult; lia).
    replace ((4 * f) mod 4) with 0 by (symmetry; rewrite Z.mul_comm; apply Z_mod_mult).
    fold f. fold r. cbv zeta. change (0 >? 0) with false. cbv iota.
    reflexivity. }
  cbv zeta. rewrite E. clear E.
  destruct (writeLittleEndianBytesPartial_words words wo bo f out Hok Hwo Hbo
              ltac:(lia) ltac:(lia)) as [L1 [O1 I1]].
  fold out1 in L1, O1, I1.
  assert (Hw : 0 <= w < 2 ^ 32) by apply Hok.
  assert (Hbyte : forall k j, 0 <= k <= 3 -> j = b + k ->
                    zget (Uint32Array.bytes words) (4 * wo + (j - bo))
                    = (w / 2 ^ (8 * k)) mod 256).
  { intros k j Hk Hj. rewrite block_byte by (unfold b in Hj; lia).
    replace (4 * wo + (j - bo)) with (k + (wo + f) * 4) by (unfold b in Hj; lia).
    rewrite Z_div_plus, Z_mod_plus by lia.
    rewrite (Z.div_small k 4), (Z.mod_small k 4) by lia.
    reflexivity. }
  assert (Hcases : r = 0 \/ r = 1 \/ r = 2 \/ r = 3) by lia.
  destruct Hcases as [Hr|[Hr|[Hr|Hr]]]; rewrite Hr;
    cbn [Z.gtb Z.compare Pos.compare Pos.compare_cont]; cbv zeta.
  - split; [exact L1|]. split.
    + intros j Hj Hout. apply O1; lia.
    + intros j Hj. apply I1. lia.
  - split; [rewrite store8_length; exact L1|]. split.
    + intros j Hj Hout. rewrite zget_store8_other by (unfold b; lia). apply O1; lia.
    + intros j Hj. destruct (Z.eq_dec j b) as [Hjb|Hjb].
      * rewrite Hjb. rewrite zget_store8_same by (unfold b; lia).
        rewrite js_byte0. rewrite (Hbyte 0 b) by lia. reflexivity.
      * rewrite zget_store8_other by lia. apply I1. unfold b in Hjb. lia.
  - split; [rewrite !store8_length; exact L1|]. split.
    + intros j Hj Hout. rewrite !zget_store8_other by (unfold b; lia). apply O1; lia.
    + intros j Hj.
      destruct (Z.eq_dec j b) as [Hjb|Hjb];
        [|destruct (Z.eq_dec j (b + 1)) as [Hjb1|Hjb1]].
      * rewrite Hjb. rewrite zget_store8_other by lia.
        rewrite zget_store8_same by (unfold b; lia).
        rewrite js_byte0. rewrite (Hbyte 0 b) by lia. reflexivity.
      * rewrite Hjb1. rewrite zget_store8_same by (rewrite store8_length; unfold b; lia).
        rewrite (Hbyte 1 (b + 1)) by lia. apply (js_byte w 1); lia.
      * rewrite !zget_store8_other by lia. apply I1. unfold b in Hjb, Hjb1. lia.
  - split; [rewrite !store8_length; exact L1|]. split.
    + intros j Hj Hout. rewrite !zget_store8_other by (unfold b; lia). apply O1; lia.
    + intros j Hj.
      destruct (Z.eq_dec j b) as [Hjb|Hjb];
        [|destruct (Z.eq_dec j (b + 1)) as [Hjb1|Hjb1];
          [|destruct (Z.eq_dec j (b + 2)) as [Hjb2|Hjb2]]].
      * rewrite Hjb. rewrite !zget_store8_other by lia.
        rewrite zget_store8_same by (unfold b; lia).
        rewrite js_byte0. rewrite (Hbyte 0 b) by lia. reflexivity.
      * rewrite Hjb1. rewrite zget_store8_other by lia.
        rewrite zget_store8_same by (rewrite store8_length; unfold b; lia).
        rewrite (Hbyte 1 (b + 1)) by lia. apply (js_byte w 1); lia.
      * rewrite Hjb2. rewrite zget_store8_same by (rewrite !store8_length; unfold b; lia).
        rewrite (Hbyte 2 (b + 2)) by lia. apply (js_byte w 2); lia.
      * rewrite !zget_store8_other by lia. apply I1. unfold b in Hjb, Hjb1, Hjb2. lia.
Qed.

Lemma get_map_ToUint32 (a : Uint32Array.t) (i : Z) :
  Uint32Array.get (map JS.ToUint32 a) i = JS.ToUint32 (Uint32Array.get a i).
Proof.
  unfold Uint32Array.get. destruct (0 <=? i); [|reflexivity].
  rewrite <- (map_nth JS.ToUint32). reflexivity.
Qed.

Lemma words_ok_Forall (ws : Uint32Array.t) :
  Forall (fun w => 0 <= w < 2 ^ 32) ws -> words_ok ws.
Proof.
  intros Hall k. unfold Uint32Array.get.
  destruct (0 <=? k); [|lia].
  destruct (Nat.lt_ge_cases (Z.to_nat k) (List.length ws)) as [Hlt|Hge].
  - rewrite Forall_forall in Hall. apply Hall. apply nth_In. exact Hlt.
  - rewrite nth_overflow by exact Hge. lia.
Qed.

Section FinalizeShort.
Context {e : Env}.

(** The compression function takes its words as unsigned 32-bit values. *)
Hypothesis compress_words_uint32 : forall cv block counter blockLen flags,
  compress_words (map JS.ToUint32 cv) (map JS.ToUint32 block) counter blockLen flags
  = compress_words cv block counter blockLen flags.

Lemma read_words_map (a : Uint32Array.t) (off n : Z) :
  read_words (map JS.ToUint32 a) off n = map JS.ToUint32 (read_words a off n).
Proof.
  unfold read_words, for_loop.
  assert (H : forall (c : nat) (i : Z) (acc : list Z),
            for_from c i
              (fun i acc => acc ++ [Uint32Array.get (map JS.ToUint32 a) (off + i)])
              (map JS.ToUint32 acc)
            = map JS.ToUint32
                (for_from c i (fun i acc => acc ++ [Uint32Array.get a (off + i)]) acc)).
  { induction c as [|c IH]; intros i acc; cbn [for_from]; [reflexivity|].
    rewrite get_map_ToUint32.
    change [JS.ToUint32 (Uint32Array.get a (off + i))]
      with (map JS.ToUint32 [Uint32Array.get a (off + i)]).
    rewrite <- map_app. apply IH. }
  apply (H (Z.to_nat n) 0 []).
Qed.

Lemma compress_half cv cvOffset block blockOffset counter blockLen flags :
  compress cv cvOffset block blockOffset (Uint32Array.make 16) 0 false counter blockLen flags
  = map (fun i => JS.ToUint32
                    (nth i (compress_words (read_words cv cvOffset 8)
                              (read_words block blockOffset 16) counter blockLen flags) 0))
      (seq 0 8) ++ repeat 0 8.
Proof.
  unfold compress. set (w := compress_words _ _ _ _ _). reflexivity.
Qed.

(** For a hasher that calls of [update] produced from a new one and an
    output length of at most 64, [finalize] returns the first bytes of the
    stream that [finalizeXof] of the same hasher reads. *)
Lemma finalize_short_is_xof_prefix (keyWords : Uint32Array.t) (flags : Z) (h : Hasher.t)
    (outputLength : Z) :
  Hasher.reachable keyWords flags h -> 0 <= outputLength <= 64 ->
  exists r h1 h2,
    Hasher.finalizeXof h = Returns (r, h1)
    /\ Hasher.finalize h outputLength = Returns (xof_bytes r 0 outputLength, h2).
Proof.
  intros Hreach HN.
  pose proof (reachable_acc_inv _ _ _ Hreach) as Hinv.
  destruct (finalizeOutput_returns h) as [output [h' [E [_ Hc]]]].
  { destruct Hinv as [_ [_ Hlen]]. rewrite Hlen. apply popcount_nonneg. }
  specialize (Hc Hinv).
  unfold Hasher.finalizeXof, Hasher.finalize. rewrite E. cbn [bind]. rewrite Hc.
  set (r := XofReader.new _ _ 0 _ _).
  exists r, h', h'. split; [reflexivity|].
  replace (outputLength <? 0) with false by (symmetry; apply Z.ltb_ge; lia).
  replace (outputLength <=? 64) with true by (symmetry; apply Z.leb_le; lia).
  set (outWords := compress _ 0 _ 0 (Uint32Array.make 16) 0 (outputLength >? 32) 0 _ _).
  set (g := fun i => JS.ToUint32
                  (nth i (compress_words (read_words (ChunkState.o_inputCv output) 0 8)
                            (read_words (ChunkState.o_blockWords output) 0 16) 0
                            (ChunkState.o_blockLen output)
                            (JS.bor (ChunkState.o_flags output) ROOT)) 0)).
  assert (Hfull : xof_block r 0 = map g (seq 0 16)).
  { unfold xof_block, r. cbn [XofReader.new XofReader.inputCv XofReader.blockWords
      XofReader.blockLen XofReader.flags].
    rewrite compress_full by reflexivity.
    rewrite !read_words_map, compress_words_uint32. reflexivity. }
  assert (Hout : outWords = map g (seq 0 16)
                 \/ (outputLength <= 32 /\ outWords = map g (seq 0 8) ++ repeat 0 8)).
  { unfold outWords. destruct (outputLength >? 32) eqn:H32.
    - left. rewrite compress_full by reflexivity. reflexivity.
    - right. rewrite Z.gtb_ltb in H32; apply Z.ltb_ge in H32.
      split; [exact H32|]. rewrite compress_half. reflexivity. }
  assert (Hok : words_ok outWords).
  { apply words_ok_Forall.
    assert (Hg : forall l, Forall (fun w => 0 <= w < 2 ^ 32) (map g l)).
    { intros l. apply Forall_forall. intros x Hx. apply in_map_iff in Hx.
      destruct Hx as [i [Hi _]]. subst x. unfold g, JS.ToUint32.
      apply Z.mod_pos_bound. lia. }
    destruct Hout as [Ho|[_ Ho]]; rewrite Ho.
    - apply Hg.
    - apply Forall_app. split; [apply Hg|].
      apply Forall_forall. intros x Hx. apply repeat_spec in Hx. subst x. lia. }
  assert (Hpre : firstn (Z.to_nat outputLength) (Uint32Array.bytes outWords)
                 = firstn (Z.to_nat outputLength) (Uint32Array.bytes (xof_block r 0))).
  { rewrite Hfull. destruct Hout as [Ho|[H32 Ho]]; rewrite Ho; [reflexivity|].
    change (seq 0 16) with (seq 0 8 ++ seq 8 8). rewrite map_app.
    unfold Uint32Array.bytes. rewrite !flat_map_app.
    assert (Hl : List.length (flat_map Uint32Array.bytes_of_word (map g (seq 0 8))) = 32%nat)
      by reflexivity.
    rewrite !firstn_app, Hl.
    replace (Z.to_nat outputLength - 32)%nat with 0%nat by lia.
    reflexivity. }
  assert (Hlen64 : List.length (Uint32Array.bytes outWords) = 64%nat).
  { destruct Hout as [Ho|[_ Ho]]; rewrite Ho; reflexivity. }
  assert (Hbyte : forall j, 0 <= j < outputLength ->
                    zget (Uint32Array.bytes outWords) j = xof_byte r (0 + j)).
  { intros j Hj.
    replace (0 + j) with (64 * 0 + j) by lia.
    rewrite xof_byte_in_block by lia.
    unfold zget.
    assert (Hlt : (Z.to_nat j <? Z.to_nat outputLength)%nat = true)
      by (apply Nat.ltb_lt; lia).
    transitivity (nth (Z.to_nat j)
                    (firstn (Z.to_nat outputLength) (Uint32Array.bytes outWords)) 0).
    - rewrite nth_firstn, Hlt. reflexivity.
    - rewrite Hpre, nth_firstn, Hlt. reflexivity. }
  destruct IS_LITTLE_ENDIAN.
  - unfold Uint8Array.set, Uint8Array.make.
    rewrite length_firstn, repeat_length, Hlen64.
    replace (Nat.min (Z.to_nat outputLength) 64) with (Z.to_nat outputLength) by lia.
    rewrite Nat.leb_refl. cbn [bind].
    rewrite skipn_all2 by (rewrite repeat_length; lia).
    rewrite app_nil_r. do 2 f_equal.
    apply (list_eq_zget _ outputLength (fun j => xof_byte r (0 + j))).
    + rewrite length_firstn, Hlen64. lia.
    + intros j Hj. rewrite <- Hbyte by exact Hj. unfold zget.
      rewrite nth_firstn.
      replace (Z.to_nat j <? Z.to_nat outputLength)%nat with true
        by (symmetry; apply Nat.ltb_lt; lia).
      reflexivity.
  - destruct (writeLittleEndianBytesPartial_bytes outWords 0 0 outputLength
                (Uint8Array.make outputLength) Hok ltac:(lia) ltac:(lia) ltac:(lia))
      as [L [_ I]].
    { unfold Uint8Array.make. rewrite repeat_length. lia. }
    do 2 f_equal.
    apply (list_eq_zget _ outputLength (fun j => xof_byte r (0 + j))).
    + rewrite L. unfold Uint8Array.make. rewrite repeat_length. lia.
    + intros j Hj. rewrite I by lia.
      replace (4 * 0 + (j - 0)) with j by lia. apply Hbyte. exact Hj.
Qed.

End FinalizeShort.

(** The compression function of the spec takes its words as unsigned
    32-bit values. *)
Lemma spec_compress_uint32 (cv block : list Z) (counter blockLen flags : Z) :
  Spec.compress (map JS.ToUint32 cv) (map JS.ToUint32 block) counter blockLen flags
  = Spec.compress cv block counter blockLen flags.
Proof.
  unfold Spec.compress.
  assert (H : forall (l : list Z) (n : nat),
            map (fun i => nth i (map JS.ToUint32 l) 0 mod 2 ^ 32) (seq 0 n)
            = map (fun i => nth i l 0 mod 2 ^ 32) (seq 0 n)).
  { intros l n. apply map_ext. intros i.
    change 0 with (JS.ToUint32 0) at 1. rewrite map_nth.
    unfold JS.ToUint32. apply Z.mod_mod. lia. }
  rewrite !H. reflexivity.
Qed.

(** With the compression function of the spec, on either kind of host. *)
Lemma finalize_short_is_xof_prefix_spec (le : bool) (keyWords : Uint32Array.t) (flags : Z)
    (h : Hasher.t) (outputLength : Z) :
  @Hasher.reachable (Spec.env le) keyWords flags h -> 0 <= outputLength <= 64 ->
  exists r h1 h2,
    @Hasher.finalizeXof (Spec.env le) h = Returns (r, h1)
    /\ @Hasher.finalize (Spec.env le) h outputLength
       = Returns (@xof_bytes (Spec.env le) r 0 outputLength, h2).
Proof.
  apply (@finalize_short_is_xof_prefix (Spec.env le)).
  intros cv block counter blockLen flags'. apply spec_compress_uint32.
Qed.

(** ** LEB128 immediates *)

Lemma range_check (P : Z -> bool) (n : nat) :
  forallb P (map Z.of_nat (seq 0 n)) = true ->
  forall z, 0 <= z < Z.of_nat n -> P z = true.
Proof.
  intros H z Hz. rewrite forallb_forall in H. apply H.
  apply in_map_iff. exists (Z.to_nat z). split; [lia|]. apply in_seq. lia.
Qed.

Lemma band_127 (z : Z) : JS.band z 127 = z mod 128.
Proof. apply (band_ones z 7). lia. Qed.

Lemma band_15 (z : Z) : JS.band z 15 = z mod 16.
Proof. apply (band_ones z 4). lia. Qed.

Lemma shru_div (z k : Z) : 0 <= k < 32 -> JS.shru z k = (z mod 2 ^ 32) / 2 ^ k.
Proof.
  intros Hk. unfold JS.shru, JS.ToUint32.
  rewrite (Z.mod_small k) by lia.
  change 31 with (Z.ones 5). rewrite Z.land_ones by lia.
  rewrite (Z.mod_small k) by (change (2 ^ 5) with 32; lia).
  apply Z.shiftr_div_pow2. lia.
Qed.

Lemma shr_div (z k : Z) :
  - 2 ^ 31 <= z < 2 ^ 31 -> 0 <= k < 32 -> JSMath.shr z k = z / 2 ^ k.
Proof.
  intros Hz Hk. unfold JSMath.shr, JS.ToUint32.
  rewrite ToInt32_small by exact Hz.
  rewrite (Z.mod_small k) by lia.
  change 31 with (Z.ones 5). rewrite Z.land_ones by lia.
  rewrite (Z.mod_small k) by (change (2 ^ 5) with 32; lia).
  apply Z.shiftr_div_pow2. lia.
Qed.

(** Setting the continuation bit of a 7-bit value, and testing its bit 6. *)
Lemma low7_facts (b : Z) :
  0 <= b < 128 ->
  JS.bor b 128 = b + 128 /\ (JS.band b 64 =? 0) = (b <? 64).
Proof.
  intros Hb.
  pose proof (range_check
                (fun b => (JS.bor b 128 =? b + 128)
                          && Bool.eqb (JS.band b 64 =? 0) (b <? 64)) 128
                ltac:(vm_compute; reflexivity) b Hb) as H.
  cbv beta in H. apply andb_true_iff in H. destruct H as [H1 H2].
  split; [apply Z.eqb_eq; exact H1|apply Bool.eqb_prop; exact H2].
Qed.

(** X1: [toLebU32Padded5(n)] is five bytes, the first four with the
    continuation bit, that decode as unsigned LEB128 to [n] taken modulo
    2^32, whatever [n] is. *)
Theorem toLebU32Padded5_decodes (n : Z) :
  List.length (Leb.toLebU32Padded5 n) = 5%nat
  /\ Leb.unsigned_value (Leb.toLebU32Padded5 n) = Some (n mod 2 ^ 32)
  /\ Forall (fun b => 128 <= b < 256) (firstn 4 (Leb.toLebU32Padded5 n))
  /\ 0 <= nth 4 (Leb.toLebU32Padded5 n) 0 < 16.
Proof.
  unfold Leb.toLebU32Padded5.
  rewrite !band_127, band_15, !shru_div by lia.
  set (u := n mod 2 ^ 32).
  assert (Hu : 0 <= u < 2 ^ 32) by (apply Z.mod_pos_bound; lia).
  replace (n mod 128) with (u mod 128)
    by (unfold u; apply Z.mod_mod_divide; exists (2 ^ 25); reflexivity).
  change (2 ^ 7) with 128. change (2 ^ 14) with (128 * 128).
  change (2 ^ 21) with (128 * 128 * 128). change (2 ^ 28) with (128 * 128 * 128 * 128).
  rewrite <- !Z.div_div by lia.
  set (q1 := u / 128). set (q2 := q1 / 128). set (q3 := q2 / 128). set (q4 := q3 / 128).
  pose proof (Z.div_mod u 128 ltac:(lia)) as E0. fold q1 in E0.
  pose proof (Z.div_mod q1 128 ltac:(lia)) as E1. fold q2 in E1.
  pose proof (Z.div_mod q2 128 ltac:(lia)) as E2. fold q3 in E2.
  pose proof (Z.div_mod q3 128 ltac:(lia)) as E3. fold q4 in E3.
  pose proof (Z.mod_pos_bound u 128 ltac:(lia)) as B0.
  pose proof (Z.mod_pos_bound q1 128 ltac:(lia)) as B1.
  pose proof (Z.mod_pos_bound q2 128 ltac:(lia)) as B2.
  pose proof (Z.mod_pos_bound q3 128 ltac:(lia)) as B3.
  assert (Hq4 : 0 <= q4 < 16) by lia.
  rewrite (Z.mod_small q4 16) by exact Hq4.
  destruct (low7_facts (u mod 128) B0) as [F0 _].
  destruct (low7_facts (q1 mod 128) B1) as [F1 _].
  destruct (low7_facts (q2 mod 128) B2) as [F2 _].
  destruct (low7_facts (q3 mod 128) B3) as [F3 _].
  rewrite F0, F1, F2, F3.
  split; [reflexivity|]. split.
  - cbn [Leb.unsigned_value].
    repeat match goal with
           | |- context [?a + 128 <? 128] =>
               replace (a + 128 <? 128) with false by (symmetry; apply Z.ltb_ge; lia)
           end.
    replace (q4 <? 128) with true by (symmetry; apply Z.ltb_lt; lia).
    f_equal. lia.
  - split.
    + cbn [firstn]. repeat constructor; lia.
    + cbn [nth]. exact Hq4.
Qed.

(** The two bytes of [toLebU32Min2] and their readings. *)
Lemma min2_values (n : Z) (Hn : 0 <= n < 2 ^ 14) :
  List.length (Leb.toLebU32Min2 n) = 2%nat
  /\ Leb.unsigned_value (Leb.toLebU32Min2 n) = Some n
  /\ Leb.signed_value (Leb.toLebU32Min2 n) = Some (if n <? 8192 then n else n - 16384).
Proof.
  unfold Leb.toLebU32Min2.
  rewrite !band_127, !shru_div by lia.
  rewrite (Z.mod_small n (2 ^ 32)) by lia.
  change (2 ^ 7) with 128. change (2 ^ 14) with 16384 in Hn.
  set (q1 := n / 128).
  pose proof (Z.div_mod n 128 ltac:(lia)) as E0. fold q1 in E0.
  pose proof (Z.mod_pos_bound n 128 ltac:(lia)) as B0.
  assert (Hq1 : 0 <= q1 < 128) by lia.
  rewrite (Z.mod_small q1 128) by exact Hq1.
  destruct (low7_facts (n mod 128) B0) as [F0 _]. rewrite F0.
  split; [reflexivity|].
  cbn [Leb.unsigned_value Leb.signed_value].
  replace (n mod 128 + 128 <? 128) with false by (symmetry; apply Z.ltb_ge; lia).
  replace (q1 <? 128) with true by (symmetry; apply Z.ltb_lt; lia).
  split; [f_equal; lia|].
  destruct (n <? 8192) eqn:H13.
  - apply Z.ltb_lt in H13.
    replace (q1 <? 64) with true by (symmetry; apply Z.ltb_lt; lia).
    f_equal. lia.
  - apply Z.ltb_ge in H13.
    replace (q1 <? 64) with false by (symmetry; apply Z.ltb_ge; lia).
    f_equal. lia.
Qed.

(** X2: for [0 <= n < 2^14], [toLebU32Min2(n)] is two bytes that decode as
    unsigned LEB128 to [n]; as the signed immediate of an [i32.const] they
    decode to [n] below 8192 and to [n - 16384] from 8192 on. *)
Theorem toLebU32Min2_decodes (n : Z) (Hn : 0 <= n < 2 ^ 14) :
  List.length (Leb.toLebU32Min2 n) = 2%nat
  /\ Leb.unsigned_value (Leb.toLebU32Min2 n) = Some n
  /\ Leb.signed_value (Leb.toLebU32Min2 n) = Some (if n <? 8192 then n else n - 16384).
Proof.
  exact (min2_values n Hn).
Qed.

Lemma toLebU32Min2_decodes_witness :
  0 <= 8192 < 2 ^ 14
  /\ (List.length (Leb.toLebU32Min2 8192) = 2%nat
      /\ Leb.unsigned_value (Leb.toLebU32Min2 8192) = Some 8192
      /\ Leb.signed_value (Leb.toLebU32Min2 8192)
         = Some (if 8192 <? 8192 then 8192 else 8192 - 16384)).
Proof.
  split; [lia|]. apply toLebU32Min2_decodes. lia.
Defined.

(** X3: every immediate that the generator writes with [toLebU32Min2] is
    below 8192, so each one decodes, as the signed immediate of its
    [i32.const], to the offset that was passed. *)
Theorem toLebU32Min2_arguments_decode :
  Forall (fun n => 0 <= n < 8192
                   /\ Leb.signed_value (Leb.toLebU32Min2 n) = Some n)
    toLebU32Min2_arguments.
Proof.
  apply Forall_forall. intros n Hn.
  assert (Hb : forallb (fun n => (0 <=? n) && (n <? 8192)) toLebU32Min2_arguments = true)
    by (vm_compute; reflexivity).
  rewrite forallb_forall in Hb. specialize (Hb n Hn).
  apply andb_true_iff in Hb. destruct Hb as [H0 H1].
  apply Z.leb_le in H0. pose proof H1 as Hlt. apply Z.ltb_lt in H1.
  split; [lia|].
  destruct (min2_values n) as [_ [_ Hs]].
  { change (2 ^ 14) with 16384. lia. }
  rewrite Hlt in Hs. exact Hs.
Qed.

(** The loop of [toSignedLeb128_i32] on a value of at most [7 * fuel]
    bits. *)
Lemma signed_loop_decodes (f : nat) :
  forall (v : Z) (acc : list Z),
    - 2 ^ 31 <= v < 2 ^ 31 ->
    - (64 * 128 ^ Z.of_nat f) <= v < 64 * 128 ^ Z.of_nat f ->
    exists enc,
      Leb.signed_loop (S f) v acc = Returns (acc ++ enc)
      /\ Leb.signed_value enc = Some v
      /\ (1 <= List.length enc <= S f)%nat
      /\ Forall (fun b => 0 <= b < 256) enc.
Proof.
  induction f as [|f IH]; intros v acc H32 Hr.
  - change (128 ^ Z.of_nat 0) with 1 in Hr.
    cbn [Leb.signed_loop]. rewrite band_127, shr_div by lia.
    change (2 ^ 7) with 128.
    pose proof (Z.div_mod v 128 ltac:(lia)) as E0.
    pose proof (Z.mod_pos_bound v 128 ltac:(lia)) as B0.
    destruct (low7_facts (v mod 128) B0) as [_ F]. rewrite F.
    assert (Hdone : ((v / 128 =? 0) && (v mod 128 <? 64))
                    || ((v / 128 =? -1) && negb (v mod 128 <? 64)) = true).
    { destruct (Z_lt_dec v 0) as [Hneg|Hpos].
      - assert (Hq : v / 128 = -1) by lia. rewrite Hq.
        replace (v mod 128 <? 64) with false by (symmetry; apply Z.ltb_ge; lia).
        reflexivity.
      - assert (Hq : v / 128 = 0) by lia. rewrite Hq.
        replace (v mod 128 <? 64) with true by (symmetry; apply Z.ltb_lt; lia).
        reflexivity. }
    rewrite Hdone. exists [v mod 128]. split; [reflexivity|].
    cbn [Leb.signed_value List.length].
    replace (v mod 128 <? 128) with true by (symmetry; apply Z.ltb_lt; lia).
    split.
    + f_equal. destruct (v mod 128 <? 64) eqn:H64.
      * apply Z.ltb_lt in H64. lia.
      * apply Z.ltb_ge in H64. lia.
    + split; [lia|]. repeat constructor; lia.
  - assert (Hp : 128 ^ Z.of_nat (S f) = 128 * 128 ^ Z.of_nat f).
    { rewrite Nat2Z.inj_succ, Z.pow_succ_r by lia. reflexivity. }
    rewrite Hp in Hr.
    assert (Hpos : 0 < 128 ^ Z.of_nat f) by (apply Z.pow_pos_nonneg; lia).
    set (P := 128 ^ Z.of_nat f) in *.
    change (Leb.signed_loop (S (S f)) v acc)
      with (let byte := JS.band v 0x7f in
            let value := JSMath.shr v 7 in
            if ((value =? 0) && (JS.band byte 0x40 =? 0))
               || ((value =? -1) && negb (JS.band byte 0x40 =? 0))
            then Returns (acc ++ [byte])
            else Leb.signed_loop (S f) value (acc ++ [JS.bor byte 0x80])).
    cbv zeta. rewrite band_127, shr_div by lia.
    change (2 ^ 7) with 128.
    pose proof (Z.div_mod v 128 ltac:(lia)) as E0.
    pose proof (Z.mod_pos_bound v 128 ltac:(lia)) as B0.
    destruct (low7_facts (v mod 128) B0) as [Fo F]. rewrite F, Fo.
    destruct (((v / 128 =? 0) && (v mod 128 <? 64))
              || ((v / 128 =? -1) && negb (v mod 128 <? 64))) eqn:Hdone.
    + exists [v mod 128]. split; [reflexivity|].
      cbn [Leb.signed_value List.length].
      replace (v mod 128 <? 128) with true by (symmetry; apply Z.ltb_lt; lia).
      split.
      * f_equal. apply orb_true_iff in Hdone.
        destruct Hdone as [Hd|Hd]; apply andb_true_iff in Hd; destruct Hd as [Hq Hb].
        -- apply Z.eqb_eq in Hq. rewrite Hb. lia.
        -- apply Z.eqb_eq in Hq. apply negb_true_iff in Hb. rewrite Hb. lia.
      * split; [lia|]. repeat constructor; lia.
    + destruct (IH (v / 128) (acc ++ [v mod 128 + 128])) as [enc [E [Hv [Hl Hb]]]].
      { lia. }
      { fold P. lia. }
      exists ((v mod 128 + 128) :: enc). split.
      * rewrite E, <- app_assoc. reflexivity.
      * split.
        -- cbn [Leb.signed_value].
           replace (v mod 128 + 128 <? 128) with false by (symmetry; apply Z.ltb_ge; lia).
           rewrite Hv. f_equal. lia.
        -- split; [cbn [List.length]; lia|].
           constructor; [lia|exact Hb].
Qed.

(** X4: [toSignedLeb128_i32(n)] returns, for every [n], between one and
    five bytes that decode as signed LEB128 to [n] taken as a signed 32-bit
    integer. *)
Theorem toSignedLeb128_i32_decodes (n : Z) :
  exists bytes,
    Leb.toSignedLeb128_i32 n = Returns bytes
    /\ Leb.signed_value bytes = Some (JS.ToInt32 n)
    /\ (1 <= List.length bytes <= 5)%nat
    /\ Forall (fun b => 0 <= b < 256) bytes.
Proof.
  unfold Leb.toSignedLeb128_i32.
  assert (Hv : JS.bor n 0 = JS.ToInt32 n).
  { unfold JS.bor. change (JS.ToInt32 0) with 0. apply Z.lor_0_r. }
  rewrite Hv.
  assert (H32 : - 2 ^ 31 <= JS.ToInt32 n < 2 ^ 31).
  { unfold JS.ToInt32.
    pose proof (Z.mod_pos_bound (n + 2 ^ 31) (2 ^ 32) ltac:(lia)). lia. }
  destruct (signed_loop_decodes 4 (JS.ToInt32 n) [] H32) as [enc [E [Hd [Hl Hb]]]].
  { change (64 * 128 ^ Z.of_nat 4) with (2 ^ 34). lia. }
  exists enc. split; [exact E|]. split; [exact Hd|]. split; [exact Hl|exact Hb].
Qed.

(** ** Counting trailing zeros *)

Lemma pos_pow2_odd (p : positive) :
  exists k o, 0 <= k /\ 0 < o /\ Z.odd o = true /\ Z.pos p = 2 ^ k * o.
Proof.
  induction p as [p _|p IH|].
  - exists 0, (Z.pos p~1). repeat split; lia.
  - destruct IH as [k [o [Hk [Ho [Hodd E]]]]].
    exists (k + 1), o. repeat split; try lia; try assumption.
    rewrite Z.pow_add_r by lia. change (2 ^ 1) with 2.
    rewrite Pos2Z.inj_xO, E. ring.
  - exists 0, 1. repeat split; lia.
Qed.

(** A number that is not a multiple of 2^32 is an odd multiple of a power
    of two below 2^32. *)
Lemma pow2_odd_decompose (y : Z) :
  y mod 2 ^ 32 <> 0 ->
  exists k o, 0 <= k < 32 /\ Z.odd o = true /\ y = 2 ^ k * o.
Proof.
  intros Hnz.
  pose proof (Z.mod_pos_bound y (2 ^ 32) ltac:(lia)) as Hr.
  pose proof (Z.div_mod y (2 ^ 32) ltac:(lia)) as Hdm.
  destruct (y mod 2 ^ 32) as [|p|p] eqn:Er; try lia.
  destruct (pos_pow2_odd p) as [k [o [Hk [Ho [Hodd E]]]]].
  assert (Hk32 : k < 32).
  { destruct (Z_lt_dec k 32) as [H|H]; [exact H|exfalso].
    assert (2 ^ 32 <= 2 ^ k) by (apply Z.pow_le_mono_r; lia).
    nia. }
  exists k, (o + 2 * (2 ^ (31 - k) * (y / 2 ^ 32))).
  split; [lia|]. split.
  - rewrite Z.odd_add_mul_2. exact Hodd.
  - rewrite Hdm at 1. rewrite E.
    replace (2 ^ 32) with (2 ^ k * (2 * 2 ^ (31 - k))).
    + ring.
    + replace 32 with (k + (1 + (31 - k))) at 1 by lia.
      rewrite !Z.pow_add_r by lia. reflexivity.
Qed.

Lemma odd_land_neg (o : Z) : Z.odd o = true -> Z.land o (- o) = 1.
Proof.
  intros Hodd.
  rewrite <- (Z.lnot_pred o), <- Z.ldiff_land.
  rewrite (Z.div2_odd o), Hodd. cbn [Z.b2z].
  replace (2 * Z.div2 o + 1 - 1) with (2 * Z.div2 o) by lia.
  set (q := Z.div2 o).
  apply Z.bits_inj'. intros n Hn.
  rewrite Z.ldiff_spec.
  destruct (Z.eq_dec n 0) as [Hz|Hnz].
  - rewrite Hz. rewrite Z.testbit_odd_0, Z.testbit_even_0. reflexivity.
  - replace n with (Z.succ (n - 1)) by lia.
    rewrite Z.testbit_odd_succ, Z.testbit_even_succ by lia.
    rewrite andb_negb_r.
    change 1 with (2 * 0 + 1). rewrite Z.testbit_odd_succ by lia.
    rewrite Z.bits_0. reflexivity.
Qed.

Lemma land_neg_pow2_odd (k o : Z) :
  0 <= k -> Z.odd o = true -> Z.land (2 ^ k * o) (- (2 ^ k * o)) = 2 ^ k.
Proof.
  intros Hk Hodd.
  replace (- (2 ^ k * o)) with (- o * 2 ^ k) by ring.
  rewrite (Z.mul_comm (2 ^ k) o).
  rewrite <- !Z.shiftl_mul_pow2 by lia.
  rewrite <- Z.shiftl_land, odd_land_neg by exact Hodd.
  rewrite Z.shiftl_mul_pow2 by lia. lia.
Qed.

Lemma land_mod_pow2 (a b n : Z) :
  0 <= n -> Z.land a b mod 2 ^ n = Z.land (a mod 2 ^ n) (b mod 2 ^ n).
Proof.
  intros Hn. apply Z.bits_inj'. intros i Hi.
  rewrite Z.land_spec, !Z.testbit_mod_pow2, Z.land_spec by lia.
  destruct (i <? n), (Z.testbit a i), (Z.testbit b i); reflexivity.
Qed.

(** [x & -x] keeps the lowest set bit of the low 32 bits of [x]. *)
Lemma lowest_bit (x y : Z) :
  x mod 2 ^ 32 = y mod 2 ^ 32 -> y mod 2 ^ 32 <> 0 ->
  exists k, 0 <= k < 32
            /\ JS.ToUint32 (JS.band x (- x)) = 2 ^ k
            /\ y mod 2 ^ k = 0
            /\ Z.odd (y / 2 ^ k) = true.
Proof.
  intros Hxy Hnz.
  destruct (pow2_odd_decompose y Hnz) as [k [o [Hk [Hodd Ey]]]].
  assert (Hp : 0 < 2 ^ k) by (apply Z.pow_pos_nonneg; lia).
  exists k. split; [exact Hk|]. split.
  - unfold JS.ToUint32, JS.band.
    rewrite land_mod_pow2 by lia.
    rewrite !(ToInt32_mod _ 32) by lia.
    replace ((- x) mod 2 ^ 32) with ((- y) mod 2 ^ 32).
    + rewrite Hxy, <- land_mod_pow2 by lia.
      rewrite Ey, land_neg_pow2_odd by (lia || exact Hodd).
      apply Z.mod_small. split; [lia|]. apply Z.pow_lt_mono_r; lia.
    + change (- y) with (0 - y). change (- x) with (0 - x).
      rewrite <- (Zminus_mod_idemp_r 0 y), <- (Zminus_mod_idemp_r 0 x), Hxy.
      reflexivity.
  - rewrite Ey. split.
    + rewrite Z.mul_comm. apply Z_mod_mult.
    + rewrite Z.mul_comm, Z_div_mult by lia. exact Hodd.
Qed.

(** The De Bruijn table sends every power of two below 2^32 to its
    exponent. *)
Lemma ctz32_table (k : Z) :
  0 <= k < 32 ->
  nth (Z.to_nat ((((2 ^ k * 0x077cb531) mod 2 ^ 32) / 2 ^ 27) mod 32)) CTZ32_TABLE 0 = k.
Proof.
  intros Hk.
  pose proof (range_check
                (fun k => nth (Z.to_nat ((((2 ^ k * 0x077cb531) mod 2 ^ 32) / 2 ^ 27) mod 32))
                            CTZ32_TABLE 0 =? k) 32
                ltac:(vm_compute; reflexivity) k Hk) as H.
  apply Z.eqb_eq. exact H.
Qed.

(** X5: [ctz32(0)] is 32, and for [0 < n < 2^32], [ctz32(n)] is the number
    of trailing zero bits of [n]: 2 to that power divides [n] with an odd
    quotient. *)
Theorem ctz32_counts_trailing_zeros (n : Z) (Hn : 0 < n < 2 ^ 32) :
  ctz32 0 = 32
  /\ 0 <= ctz32 n < 32
  /\ n mod 2 ^ ctz32 n = 0
  /\ Z.odd (n / 2 ^ ctz32 n) = true.
Proof.
  split; [reflexivity|].
  destruct (lowest_bit n n eq_refl) as [k [Hk [Hb [Hm Hodd]]]].
  { rewrite Z.mod_small by lia. lia. }
  assert (E : ctz32 n = k).
  { unfold ctz32.
    replace (n =? 0) with false by (symmetry; apply Z.eqb_neq; lia).
    change 31 with (2 ^ 5 - 1) at 1. rewrite band_ones by lia.
    rewrite shru_div by lia.
    rewrite <- Z.mul_mod_idemp_l by lia.
    unfold JS.ToUint32 in Hb. rewrite Hb.
    change (2 ^ 5) with 32. apply ctz32_table. exact Hk. }
  rewrite E. split; [exact Hk|]. split; [exact Hm|exact Hodd].
Qed.

Lemma ctz32_counts_trailing_zeros_witness :
  0 < 2147483648 < 2 ^ 32
  /\ (ctz32 0 = 32
      /\ 0 <= ctz32 2147483648 < 32
      /\ 2147483648 mod 2 ^ ctz32 2147483648 = 0
      /\ Z.odd (2147483648 / 2 ^ ctz32 2147483648) = true).
Proof.
  split; [lia|]. apply ctz32_counts_trailing_zeros. lia.
Defined.

Lemma clz32_pow2 (x k : Z) :
  0 <= k < 32 -> JS.ToUint32 x = 2 ^ k -> JSMath.clz32 x = 31 - k.
Proof.
  intros Hk E. unfold JSMath.clz32. rewrite E.
  assert (Hp : 0 < 2 ^ k) by (apply Z.pow_pos_nonneg; lia).
  replace (2 ^ k =? 0) with false by (symmetry; apply Z.eqb_neq; lia).
  cbv zeta. rewrite Z.log2_pow2 by lia. reflexivity.
Qed.

(** X6: [countTrailingZeros(0)] is 64, and for [0 < n < 2^64],
    [countTrailingZeros(n)] is the number of trailing zero bits of [n]. *)
Theorem countTrailingZeros_counts (n : Z) (Hn : 0 < n < 2 ^ 64) :
  countTrailingZeros 0 = 64
  /\ 0 <= countTrailingZeros n < 64
  /\ n mod 2 ^ countTrailingZeros n = 0
  /\ Z.odd (n / 2 ^ countTrailingZeros n) = true.
Proof.
  split; [reflexivity|].
  unfold countTrailingZeros.
  replace (n =? 0) with false by (symmetry; apply Z.eqb_neq; lia).
  assert (Hlow : JS.bor n 0 = JS.ToInt32 n).
  { unfold JS.bor. change (JS.ToInt32 0) with 0. apply Z.lor_0_r. }
  rewrite Hlow. cbv zeta.
  destruct (JS.ToInt32 n =? 0) eqn:Hz; cbn [negb].
  - apply Z.eqb_eq in Hz.
    assert (Hm : n mod 2 ^ 32 = 0).
    { rewrite <- (ToInt32_mod n 32) by lia. rewrite Hz. reflexivity. }
    pose proof (Z.div_mod n (2 ^ 32) ltac:(lia)) as Hdm. rewrite Hm in Hdm.
    set (h := n / 2 ^ 32) in *.
    change (n / 4294967296) with h.
    assert (Hh : 0 < h < 2 ^ 32).
    { change (2 ^ 64) with (2 ^ 32 * 2 ^ 32) in Hn. nia. }
    assert (Hhigh : JS.bor h 0 = JS.ToInt32 h).
    { unfold JS.bor. change (JS.ToInt32 0) with 0. apply Z.lor_0_r. }
    rewrite Hhigh.
    assert (Hhm : JS.ToInt32 h mod 2 ^ 32 = h mod 2 ^ 32) by (apply ToInt32_mod; lia).
    assert (Hhnz : (JS.ToInt32 h =? 0) = false).
    { apply Z.eqb_neq. intros E. rewrite E in Hhm.
      rewrite (Z.mod_small h) in Hhm by lia. change (0 mod 2 ^ 32) with 0 in Hhm. lia. }
    rewrite Hhnz. cbn [negb].
    destruct (lowest_bit (JS.ToInt32 h) h Hhm) as [k [Hk [Hb [Hmk Hodd]]]].
    { rewrite Z.mod_small by lia. lia. }
    rewrite (clz32_pow2 _ k Hk Hb).
    replace (32 + (31 - (31 - k))) with (32 + k) by lia.
    assert (Hp : 0 < 2 ^ k) by (apply Z.pow_pos_nonneg; lia).
    split; [lia|].
    rewrite Z.pow_add_r by lia.
    pose proof (Z.div_mod h (2 ^ k) ltac:(lia)) as Hh2. rewrite Hmk in Hh2.
    split.
    + replace n with (h / 2 ^ k * (2 ^ 32 * 2 ^ k)) by nia.
      apply Z_mod_mult.
    + rewrite <- Z.div_div by lia. fold h. exact Hodd.
  - apply Z.eqb_neq in Hz.
    destruct (lowest_bit (JS.ToInt32 n) n) as [k [Hk [Hb [Hmk Hodd]]]].
    { apply ToInt32_mod. lia. }
    { intros E. apply Hz.
      pose proof (ToInt32_mod n 32 ltac:(lia)) as Hm. rewrite E in Hm.
      unfold JS.ToInt32 in *.
      pose proof (Z.mod_pos_bound (n + 2 ^ 31) (2 ^ 32) ltac:(lia)) as Hb'.
      pose proof (Z.div_mod ((n + 2 ^ 31) mod 2 ^ 32 - 2 ^ 31) (2 ^ 32) ltac:(lia)) as Hdm.
      rewrite Hm in Hdm.
      assert ((( n + 2 ^ 31) mod 2 ^ 32 - 2 ^ 31) / 2 ^ 32 = 0 \/
              ((n + 2 ^ 31) mod 2 ^ 32 - 2 ^ 31) / 2 ^ 32 <> 0) as [Hq|Hq] by lia.
      - lia.
      - exfalso. nia. }
    rewrite (clz32_pow2 _ k Hk Hb).
    replace (31 - (31 - k)) with k by lia.
    split; [lia|]. split; [exact Hmk|exact Hodd].
Qed.

Lemma countTrailingZeros_counts_witness :
  0 < 3 * 2 ^ 40 < 2 ^ 64
  /\ (countTrailingZeros 0 = 64
      /\ 0 <= countTrailingZeros (3 * 2 ^ 40) < 64
      /\ (3 * 2 ^ 40) mod 2 ^ countTrailingZeros (3 * 2 ^ 40) = 0
      /\ Z.odd (3 * 2 ^ 40 / 2 ^ countTrailingZeros (3 * 2 ^ 40)) = true).
Proof.
  split; [lia|]. apply countTrailingZeros_counts. lia.
Defined.

(** ** Words to bytes and back *)

Lemma get32_store_same (a : Uint32Array.t) (i v : Z) :
  0 <= i < Uint32Array.length a ->
  Uint32Array.get (Uint32Array.store a i v) i = JS.ToUint32 v.
Proof.
  intros Hi. unfold Uint32Array.get, Uint32Array.store, Uint32Array.length in *.
  replace ((0 <=? i) && (i <? Z.of_nat (List.length a))) with true
    by (symmetry; apply andb_true_iff; split; [apply Z.leb_le|apply Z.ltb_lt]; lia).
  replace (0 <=? i) with true by (symmetry; apply Z.leb_le; lia).
  apply nth_list_upd_same. lia.
Qed.

Lemma get32_store_other (a : Uint32Array.t) (i j v : Z) :
  i <> j -> Uint32Array.get (Uint32Array.store a i v) j = Uint32Array.get a j.
Proof.
  intros Hne. unfold Uint32Array.get, Uint32Array.store.
  destruct (0 <=? j) eqn:Hj; [|reflexivity]. apply Z.leb_le in Hj.
  destruct ((0 <=? i) && (i <? Uint32Array.length a)) eqn:Hin; [|reflexivity].
  apply andb_true_iff in Hin. destruct Hin as [Hi _]. apply Z.leb_le in Hi.
  apply nth_list_upd_other. lia.
Qed.

(** A loop that stores [val i] at index [idx i]: the indices it does not
    visit keep their words. *)
Lemma get32_loop_other (idx val : Z -> Z) (count : nat) :
  forall (i0 : Z) (m : Uint32Array.t) (j : Z),
    (forall i, i0 <= i < i0 + Z.of_nat count -> idx i <> j) ->
    Uint32Array.get (for_from count i0 (fun i m => Uint32Array.store m (idx i) (val i)) m) j
    = Uint32Array.get m j.
Proof.
  induction count as [|count IH]; intros i0 m j Hj; [reflexivity|].
  cbn [for_from]. rewrite IH by (intros i Hi; apply Hj; lia).
  apply get32_store_other. apply Hj. lia.
Qed.

Lemma length32_loop (idx val : Z -> Z) (count : nat) :
  forall (i0 : Z) (m : Uint32Array.t),
    List.length (for_from count i0 (fun i m => Uint32Array.store m (idx i) (val i)) m)
    = List.length m.
Proof.
  induction count as [|count IH]; intros i0 m; [reflexivity|].
  cbn [for_from]. rewrite IH. apply store32_length.
Qed.

(** The indices it visits, each once, hold the value stored there. *)
Lemma get32_loop_same (idx val : Z -> Z) (count : nat) :
  forall (i0 : Z) (m : Uint32Array.t) (k : Z),
    i0 <= k < i0 + Z.of_nat count ->
    0 <= idx k < Uint32Array.length m ->
    (forall i, i0 <= i < i0 + Z.of_nat count -> i <> k -> idx i <> idx k) ->
    Uint32Array.get (for_from count i0 (fun i m => Uint32Array.store m (idx i) (val i)) m)
      (idx k)
    = JS.ToUint32 (val k).
Proof.
  induction count as [|count IH]; intros i0 m k Hk Hin Hinj; [lia|].
  cbn [for_from].
  destruct (Z.eq_dec k i0) as [E|Hne].
  - subst k. rewrite get32_loop_other by (intros i Hi; apply Hinj; lia).
    apply get32_store_same. exact Hin.
  - apply IH.
    + lia.
    + unfold Uint32Array.length in *. rewrite store32_length. exact Hin.
    + intros i Hi. apply Hinj. lia.
Qed.

Lemma get8_range (input : Uint8Array.t) (i : Z) :
  bytes_ok (Uint8Array.buffer input) -> 0 <= Uint8Array.get input i < 256.
Proof.
  intros Hok. unfold Uint8Array.get.
  destruct ((0 <=? i) && (i <? Uint8Array.length input)); [|lia].
  apply bytes_ok_nth. exact Hok.
Qed.

Lemma word_of_bytes_of_word (w : Z) :
  0 <= w < 2 ^ 32 ->
  Uint32Array.word_of_bytes (w mod 256) ((w / 2 ^ 8) mod 256)
    ((w / 2 ^ 16) mod 256) ((w / 2 ^ 24) mod 256) = w.
Proof.
  intros Hw. unfold Uint32Array.word_of_bytes.
  change (2 ^ 8) with 256. change (2 ^ 16) with (256 * 256).
  change (2 ^ 24) with (256 * 256 * 256).
  rewrite <- !Z.div_div by lia.
  set (q1 := w / 256). set (q2 := q1 / 256). set (q3 := q2 / 256).
  pose proof (Z.div_mod w 256 ltac:(lia)) as E0. fold q1 in E0.
  pose proof (Z.div_mod q1 256 ltac:(lia)) as E1. fold q2 in E1.
  pose proof (Z.div_mod q2 256 ltac:(lia)) as E2. fold q3 in E2.
  pose proof (Z.mod_pos_bound w 256 ltac:(lia)) as B0.
  pose proof (Z.mod_pos_bound q1 256 ltac:(lia)) as B1.
  pose proof (Z.mod_pos_bound q2 256 ltac:(lia)) as B2.
  assert (Hq3 : 0 <= q3 < 256) by lia.
  rewrite (Z.mod_small q3 256) by exact Hq3. lia.
Qed.

(** The word that the loop body of the readers stores for the four bytes at
    [off]. *)
Lemma read_word_js (input : Uint8Array.t) (off : Z) :
  bytes_ok (Uint8Array.buffer input) ->
  JS.ToUint32
    (JS.bor (JS.bor (JS.bor (Uint8Array.get input off)
                            (JS.shl (Uint8Array.get input (off + 1)) 8))
                    (JS.shl (Uint8Array.get input (off + 2)) 16))
            (JS.shl (Uint8Array.get input (off + 3)) 24))
  = Uint32Array.word_of_bytes (Uint8Array.get input off) (Uint8Array.get input (off + 1))
      (Uint8Array.get input (off + 2)) (Uint8Array.get input (off + 3)).
Proof.
  intros Hok. apply le_word_js; apply get8_range; exact Hok.
Qed.

Lemma get8_of_list (out : list Z) (j : Z) :
  0 <= j < Z.of_nat (List.length out) ->
  Uint8Array.get (Uint8Array.of_list out) j = zget out j.
Proof.
  intros Hj. unfold Uint8Array.get, Uint8Array.of_list, zget.
  cbn [Uint8Array.length Uint8Array.byteOffset Uint8Array.buffer].
  replace ((0 <=? j) && (j <? Z.of_nat (List.length out))) with true
    by (symmetry; apply andb_true_iff; split; [apply Z.leb_le|apply Z.ltb_lt]; lia).
  reflexivity.
Qed.

(** [writeLittleEndianWords] writes the 32 bytes of 8 words and nothing
    else. *)
Lemma writeLittleEndianWords_bytes (words : Uint32Array.t) (wo bo : Z) (out : list Z) :
  words_ok words -> 0 <= wo -> 0 <= bo -> bo + 32 <= Z.of_nat (List.length out) ->
  let out' := writeLittleEndianWords words wo out bo in
  List.length out' = List.length out
  /\ (forall j, 0 <= j -> j < bo \/ bo + 32 <= j -> zget out' j = zget out j)
  /\ (forall j, bo <= j < bo + 32 ->
                zget out' j = zget (Uint32Array.bytes words) (4 * wo + (j - bo))).
Proof.
  intros Hok Hwo Hbo Hfit.
  pose proof (write_words_loop words wo bo 8 Hok Hwo 0 out ltac:(lia) Hbo ltac:(lia)) as H.
  cbv zeta in H.
  replace (bo + 4 * 0) with bo in H by lia.
  replace (bo + 4 * (0 + Z.of_nat 8)) with (bo + 32) in H by lia.
  exact H.
Qed.

(** X7: the eight words that [writeLittleEndianWords] wrote at [byteOffset]
    are the words that [readLittleEndianWords] reads back from there, and
    the write touches no byte outside the 32 it fills. *)
Theorem read_after_write_words (words dst : Uint32Array.t) (wo bo : Z) (out : list Z)
    (Hok : words_ok words) (Hwo : 0 <= wo) (Hbo : 0 <= bo)
    (Hfit : bo + 32 <= Z.of_nat (List.length out))
    (Hdst : (8 <= List.length dst)%nat) :
  let out' := writeLittleEndianWords words wo out bo in
  List.length out' = List.length out
  /\ (forall j, 0 <= j -> j < bo \/ bo + 32 <= j -> zget out' j = zget out j)
  /\ (forall i, 0 <= i < 8 ->
        Uint32Array.get (readLittleEndianWords (Uint8Array.of_list out') bo dst 8) i
        = Uint32Array.get words (wo + i))
  /\ (forall i, 8 <= i ->
        Uint32Array.get (readLittleEndianWords (Uint8Array.of_list out') bo dst 8) i
        = Uint32Array.get dst i).
Proof.
  destruct (writeLittleEndianWords_bytes words wo bo out Hok Hwo Hbo Hfit) as [L [O I]].
  cbv zeta. set (out' := writeLittleEndianWords words wo out bo) in *.
  split; [exact L|]. split; [exact O|].
  assert (Hbytes : forall i t, 0 <= i < 8 -> 0 <= t < 4 ->
            Uint8Array.get (Uint8Array.of_list out') (bo + 4 * i + t)
            = (Uint32Array.get words (wo + i) / 2 ^ (8 * t)) mod 256).
  { intros i t Hi Ht. rewrite get8_of_list by lia.
    rewrite I by lia. rewrite block_byte by lia.
    replace (4 * wo + (bo + 4 * i + t - bo)) with (t + (wo + i) * 4) by lia.
    rewrite Z_div_plus, Z_mod_plus by lia.
    rewrite (Z.div_small t 4), (Z.mod_small t 4) by lia.
    reflexivity. }
  split.
  - intros i Hi. unfold readLittleEndianWords, for_loop.
    rewrite (get32_loop_same (fun i => i)) by (unfold Uint32Array.length; lia).
    cbv zeta.
    pose proof (Hbytes i 0 Hi ltac:(lia)) as B0.
    pose proof (Hbytes i 1 Hi ltac:(lia)) as B1.
    pose proof (Hbytes i 2 Hi ltac:(lia)) as B2.
    pose proof (Hbytes i 3 Hi ltac:(lia)) as B3.
    replace (bo + 4 * i + 0) with (bo + 4 * i) in B0 by lia.
    change (2 ^ (8 * 0)) with 1 in B0. rewrite Z.div_1_r in B0.
    rewrite B0, B1, B2, B3.
    pose proof (Hok (wo + i)) as Hw.
    rewrite le_word_js by (apply Z.mod_pos_bound; lia).
    apply word_of_bytes_of_word. exact Hw.
  - intros i Hi. unfold readLittleEndianWords, for_loop.
    apply get32_loop_other. intros k Hk. lia.
Qed.

Lemma read_after_write_words_witness :
  (let out' := writeLittleEndianWords IV 0 (repeat 7 40) 4 in
   List.length out' = List.length (repeat 7 40)
   /\ (forall j, 0 <= j -> j < 4 \/ 4 + 32 <= j -> zget out' j = zget (repeat 7 40) j)
   /\ (forall i, 0 <= i < 8 ->
         Uint32Array.get
           (readLittleEndianWords (Uint8Array.of_list out') 4 (Uint32Array.make 8) 8) i
         = Uint32Array.get IV (0 + i))
   /\ (forall i, 8 <= i ->
         Uint32Array.get
           (readLittleEndianWords (Uint8Array.of_list out') 4 (Uint32Array.make 8) 8) i
         = Uint32Array.get (Uint32Array.make 8) i)).
Proof.
  apply read_after_write_words.
  - apply words_ok_Forall. repeat constructor; lia.
  - lia.
  - lia.
  - rewrite repeat_length. lia.
  - unfold Uint32Array.make. rewrite repeat_length. lia.
Defined.

Lemma le_partial_js (b0 b1 b2 : Z) :
  0 <= b0 < 256 -> 0 <= b1 < 256 -> 0 <= b2 < 256 ->
  JS.bor b0 (JS.shl b1 8) = b0 + b1 * 2 ^ 8
  /\ JS.bor (JS.bor b0 (JS.shl b1 8)) (JS.shl b2 16) = b0 + b1 * 2 ^ 8 + b2 * 2 ^ 16.
Proof.
  intros H0 H1 H2.
  rewrite (shl_small b1 8) by lia.
  rewrite (shl_small b2 16) by lia.
  assert (E1 : JS.bor b0 (b1 * 2 ^ 8) = b0 + b1 * 2 ^ 8).
  { unfold JS.bor. rewrite (ToInt32_small b0), (ToInt32_small (b1 * 2 ^ 8)) by lia.
    apply lor_low_high; lia. }
  rewrite E1. split; [reflexivity|].
  unfold JS.bor.
  rewrite (ToInt32_small (b0 + b1 * 2 ^ 8)), (ToInt32_small (b2 * 2 ^ 16)) by lia.
  apply lor_low_high; lia.
Qed.

Lemma get32_zeroed (words : Uint32Array.t) (i : Z) :
  Uint32Array.get (map (fun _ => 0) words) i = 0.
Proof.
  unfold Uint32Array.get. destruct (0 <=? i); [|reflexivity].
  apply (map_nth (fun _ : Z => 0) words 0).
Qed.

(** The words that [readLittleEndianWordsPartial] leaves. *)
Lemma readLittleEndianWordsPartial_words (input : Uint8Array.t) (offset len : Z)
    (words : Uint32Array.t) (i : Z)
    (Hok : bytes_ok (Uint8Array.buffer input))
    (Hlen : 0 <= len <= 64)
    (Hwords : List.length words = 16%nat)
    (Hi : 0 <= i < 16) :
  List.length (readLittleEndianWordsPartial input offset len words) = 16%nat
  /\ Uint32Array.get (readLittleEndianWordsPartial input offset len words) i
     = padded_word input offset len i.
Proof.
  unfold readLittleEndianWordsPartial.
  rewrite band_3, shru_small by lia. change (2 ^ 2) with 4.
  pose proof (Z.div_mod len 4 ltac:(lia)) as Hdm.
  pose proof (Z.mod_pos_bound len 4 ltac:(lia)) as Hr.
  assert (Hf : 0 <= len / 4) by (apply Z.div_pos; lia).
  set (f := len / 4) in *. set (r := len mod 4) in *.
  cbv zeta. unfold for_loop.
  set (body := fun (i : Z) (ws : Uint32Array.t) => Uint32Array.store ws i _).
  set (loop := for_from (Z.to_nat f) 0 body (map (fun _ : Z => 0) words)).
  assert (Lloop : List.length loop = 16%nat).
  { unfold loop, body.
    rewrite (length32_loop (fun i => i)
               (fun i => JS.bor (JS.bor (JS.bor (Uint8Array.get input (offset + 4 * i))
                                          (JS.shl (Uint8Array.get input (offset + 4 * i + 1)) 8))
                                  (JS.shl (Uint8Array.get input (offset + 4 * i + 2)) 16))
                          (JS.shl (Uint8Array.get input (offset + 4 * i + 3)) 24))).
    rewrite length_map. exact Hwords. }
  assert (Hlow : forall k, 0 <= k < f ->
            Uint32Array.get loop k = padded_word input offset len k).
  { intros k Hk. unfold loop, body.
    rewrite (get32_loop_same (fun i => i)
               (fun i => JS.bor (JS.bor (JS.bor (Uint8Array.get input (offset + 4 * i))
                                          (JS.shl (Uint8Array.get input (offset + 4 * i + 1)) 8))
                                  (JS.shl (Uint8Array.get input (offset + 4 * i + 2)) 16))
                          (JS.shl (Uint8Array.get input (offset + 4 * i + 3)) 24)))
      by (unfold Uint32Array.length; rewrite ?length_map; lia).
    rewrite read_word_js by exact Hok.
    unfold padded_word, padded_byte.
    repeat match goal with
           | |- context [?a <? len] =>
               replace (a <? len) with true by (symmetry; apply Z.ltb_lt; lia)
           end.
    replace (offset + (4 * k + 1)) with (offset + 4 * k + 1) by lia.
    replace (offset + (4 * k + 2)) with (offset + 4 * k + 2) by lia.
    replace (offset + (4 * k + 3)) with (offset + 4 * k + 3) by lia.
    reflexivity. }
  assert (Hhigh : forall k, f <= k -> Uint32Array.get loop k = 0).
  { intros k Hk. unfold loop, body.
    rewrite (get32_loop_other (fun i => i)) by (intros j Hj; lia).
    apply get32_zeroed. }
  assert (Hzero : forall k, len <= 4 * k -> padded_word input offset len k = 0).
  { intros k Hk. unfold padded_word, padded_byte.
    repeat match goal with
           | |- context [?a <? len] =>
               replace (a <? len) with false by (symmetry; apply Z.ltb_ge; lia)
           end.
    reflexivity. }
  pose proof (get8_range input (offset + 4 * f) Hok) as B0.
  pose proof (get8_range input (offset + 4 * f + 1) Hok) as B1.
  pose proof (get8_range input (offset + 4 * f + 2) Hok) as B2.
  destruct (le_partial_js _ _ _ B0 B1 B2) as [E2 E3].
  assert (Hcases : r = 0 \/ r = 1 \/ r = 2 \/ r = 3) by lia.
  assert (Hlast : forall v,
            JS.ToUint32 v = padded_word input offset len f ->
            0 < r ->
            List.length (Uint32Array.store loop f v) = 16%nat
            /\ Uint32Array.get (Uint32Array.store loop f v) i
               = padded_word input offset len i).
  { intros v Hv Hpos. split; [rewrite store32_length; exact Lloop|].
    destruct (Z.eq_dec i f) as [E|Hne].
    - rewrite E. rewrite get32_store_same by (unfold Uint32Array.length; lia). exact Hv.
    - rewrite get32_store_other by lia.
      destruct (Z_lt_dec i f) as [Hlt|Hge].
      + apply Hlow. lia.
      + rewrite Hhigh by lia. symmetry. apply Hzero. lia. }
  destruct Hcases as [Hc|[Hc|[Hc|Hc]]]; rewrite Hc;
    cbn [Z.gtb Z.compare Pos.compare Pos.compare_cont].
  - split; [exact Lloop|].
    destruct (Z_lt_dec i f) as [Hlt|Hge].
    + apply Hlow. lia.
    + rewrite Hhigh by lia. symmetry. apply Hzero. lia.
  - apply Hlast; [|lia].
    rewrite ToUint32_small by lia.
    unfold padded_word, padded_byte, Uint32Array.word_of_bytes.
    replace (4 * f <? len) with true by (symmetry; apply Z.ltb_lt; lia).
    replace (4 * f + 1 <? len) with false by (symmetry; apply Z.ltb_ge; lia).
    replace (4 * f + 2 <? len) with false by (symmetry; apply Z.ltb_ge; lia).
    replace (4 * f + 3 <? len) with false by (symmetry; apply Z.ltb_ge; lia).
    lia.
  - apply Hlast; [|lia].
    rewrite E2, ToUint32_small by lia.
    unfold padded_word, padded_byte, Uint32Array.word_of_bytes.
    replace (4 * f <? len) with true by (symmetry; apply Z.ltb_lt; lia).
    replace (4 * f + 1 <? len) with true by (symmetry; apply Z.ltb_lt; lia).
    replace (4 * f + 2 <? len) with false by (symmetry; apply Z.ltb_ge; lia).
    replace (4 * f + 3 <? len) with false by (symmetry; apply Z.ltb_ge; lia).
    replace (offset + (4 * f + 1)) with (offset + 4 * f + 1) by lia.
    lia.
  - apply Hlast; [|lia].
    rewrite E3, ToUint32_small by lia.
    unfold padded_word, padded_byte, Uint32Array.word_of_bytes.
    replace (4 * f <? len) with true by (symmetry; apply Z.ltb_lt; lia).
    replace (4 * f + 1 <? len) with true by (symmetry; apply Z.ltb_lt; lia).
    replace (4 * f + 2 <? len) with true by (symmetry; apply Z.ltb_lt; lia).
    replace (4 * f + 3 <? len) with false by (symmetry; apply Z.ltb_ge; lia).
    replace (offset + (4 * f + 1)) with (offset + 4 * f + 1) by lia.
    replace (offset + (4 * f + 2)) with (offset + 4 * f + 2) by lia.
    lia.
Qed.

(** X8: [readLittleEndianWordsPartial] fills the 16 words with the
    little-endian words of the [length] bytes at [offset] padded with zeros
    to 64 bytes: neither the words held before nor the bytes of the input
    from [offset + length] on show in the result. *)
Theorem readLittleEndianWordsPartial_pads (input : Uint8Array.t) (offset len : Z)
    (words : Uint32Array.t) (i : Z)
    (Hok : bytes_ok (Uint8Array.buffer input))
    (Hlen : 0 <= len <= 64)
    (Hwords : List.length words = 16%nat)
    (Hi : 0 <= i < 16) :
  List.length (readLittleEndianWordsPartial input offset len words) = 16%nat
  /\ Uint32Array.get (readLittleEndianWordsPartial input offset len words) i
     = padded_word input offset len i.
Proof. exact (readLittleEndianWordsPartial_words input offset len words i Hok Hlen Hwords Hi). Qed.

Lemma readLittleEndianWordsPartial_pads_witness :
  bytes_ok (Uint8Array.buffer (Uint8Array.of_list [1; 2; 3; 4; 5; 6; 7]))
  /\ 0 <= 6 <= 64
  /\ List.length (repeat 9 16) = 16%nat
  /\ 0 <= 1 < 16
  /\ (List.length (readLittleEndianWordsPartial (Uint8Array.of_list [1; 2; 3; 4; 5; 6; 7])
                     0 6 (repeat 9 16)) = 16%nat
      /\ Uint32Array.get
           (readLittleEndianWordsPartial (Uint8Array.of_list [1; 2; 3; 4; 5; 6; 7])
              0 6 (repeat 9 16)) 1
         = padded_word (Uint8Array.of_list [1; 2; 3; 4; 5; 6; 7]) 0 6 1).
Proof.
  assert (Hok : bytes_ok (Uint8Array.buffer (Uint8Array.of_list [1; 2; 3; 4; 5; 6; 7])))
    by (repeat constructor; lia).
  split; [exact Hok|]. split; [lia|]. split; [reflexivity|]. split; [lia|].
  apply readLittleEndianWordsPartial_pads; [exact Hok|lia|reflexivity|lia].
Defined.

(** Two arrays of words with the same length and the same words. *)
Lemma words_eq_get (a b : Uint32Array.t) :
  List.length a = List.length b ->
  (forall i, 0 <= i < Z.of_nat (List.length a) -> Uint32Array.get a i = Uint32Array.get b i) ->
  a = b.
Proof.
  intros Hlen Hget. apply (nth_ext a b 0 0 Hlen). intros n Hn.
  specialize (Hget (Z.of_nat n) ltac:(lia)). unfold Uint32Array.get in Hget.
  replace (0 <=? Z.of_nat n) with true in Hget by (symmetry; apply Z.leb_le; lia).
  rewrite Nat2Z.id in Hget. exact Hget.
Qed.

(** X16: over 16 words, [readLittleEndianWordsFull] leaves what
    [readLittleEndianWordsPartial] leaves for a length of 64: the partial
    reader is the full one on a full block. *)
Theorem readLittleEndianWordsFull_is_partial_64 (input : Uint8Array.t) (offset : Z)
    (words : Uint32Array.t)
    (Hok : bytes_ok (Uint8Array.buffer input))
    (Hwords : List.length words = 16%nat) :
  readLittleEndianWordsFull input offset words
  = readLittleEndianWordsPartial input offset 64 words.
Proof.
  assert (Lfull : List.length (readLittleEndianWordsFull input offset words) = 16%nat)
    by (rewrite readLittleEndianWordsFull_length; exact Hwords).
  apply words_eq_get.
  - rewrite Lfull. symmetry.
    apply (readLittleEndianWordsPartial_words input offset 64 words 0 Hok); [lia|exact Hwords|lia].
  - rewrite Lfull. intros i Hi.
    destruct (readLittleEndianWordsPartial_words input offset 64 words i Hok ltac:(lia) Hwords
                ltac:(lia)) as [_ E].
    rewrite E. unfold readLittleEndianWordsFull, for_loop. cbv zeta.
    change (Z.to_nat 16) with 16%nat.
    rewrite (get32_loop_same (fun i => i)
               (fun i => JS.bor (JS.bor (JS.bor (Uint8Array.get input (offset + 4 * i))
                                          (JS.shl (Uint8Array.get input (offset + 4 * i + 1)) 8))
                                  (JS.shl (Uint8Array.get input (offset + 4 * i + 2)) 16))
                          (JS.shl (Uint8Array.get input (offset + 4 * i + 3)) 24)))
      by (unfold Uint32Array.length; lia).
    rewrite read_word_js by exact Hok.
    unfold padded_word, padded_byte.
    repeat match goal with
           | |- context [?a <? 64] =>
               replace (a <? 64) with true by (symmetry; apply Z.ltb_lt; lia)
           end.
    replace (offset + (4 * i + 1)) with (offset + 4 * i + 1) by lia.
    replace (offset + (4 * i + 2)) with (offset + 4 * i + 2) by lia.
    replace (offset + (4 * i + 3)) with (offset + 4 * i + 3) by lia.
    reflexivity.
Qed.

Lemma readLittleEndianWordsFull_is_partial_64_witness :
  bytes_ok (Uint8Array.buffer (Uint8Array.of_list [1; 2; 3; 4; 5; 6; 7]))
  /\ List.length (repeat 9 16) = 16%nat
  /\ readLittleEndianWordsFull (Uint8Array.of_list [1; 2; 3; 4; 5; 6; 7]) 2 (repeat 9 16)
     = readLittleEndianWordsPartial (Uint8Array.of_list [1; 2; 3; 4; 5; 6; 7]) 2 64
         (repeat 9 16).
Proof.
  assert (Hok : bytes_ok (Uint8Array.buffer (Uint8Array.of_list [1; 2; 3; 4; 5; 6; 7])))
    by (repeat constructor; lia).
  split; [exact Hok|]. split; [reflexivity|].
  apply readLittleEndianWordsFull_is_partial_64; [exact Hok|reflexivity].
Defined.

(** ** encodeUTF8 *)

Lemma band_63 (z : Z) : JS.band z 63 = z mod 64.
Proof. apply (band_ones z 6). lia. Qed.

Lemma band_1023 (z : Z) : JS.band z 1023 = z mod 1024.
Proof. apply (band_ones z 10). lia. Qed.

(** Setting the marker bits of a lead or continuation byte. *)
Lemma marker_facts (x : Z) :
  0 <= x < 64 ->
  JS.bor 0x80 x = 0x80 + x
  /\ (x < 32 -> JS.bor 0xc0 x = 0xc0 + x)
  /\ (x < 16 -> JS.bor 0xe0 x = 0xe0 + x)
  /\ (x < 8 -> JS.bor 0xf0 x = 0xf0 + x).
Proof.
  intros Hx.
  pose proof (range_check
                (fun x => (JS.bor 0x80 x =? 0x80 + x)
                          && (negb (x <? 32) || (JS.bor 0xc0 x =? 0xc0 + x))
                          && (negb (x <? 16) || (JS.bor 0xe0 x =? 0xe0 + x))
                          && (negb (x <? 8) || (JS.bor 0xf0 x =? 0xf0 + x))) 64
                ltac:(vm_compute; reflexivity) x Hx) as H.
  cbv beta in H.
  apply andb_true_iff in H. destruct H as [H H4].
  apply andb_true_iff in H. destruct H as [H H3].
  apply andb_true_iff in H. destruct H as [H1 H2].
  split; [apply Z.eqb_eq; exact H1|].
  split; [|split]; intros Hlt.
  - replace (x <? 32) with true in H2 by (symmetry; apply Z.ltb_lt; lia).
    apply Z.eqb_eq. exact H2.
  - replace (x <? 16) with true in H3 by (symmetry; apply Z.ltb_lt; lia).
    apply Z.eqb_eq. exact H3.
  - replace (x <? 8) with true in H4 by (symmetry; apply Z.ltb_lt; lia).
    apply Z.eqb_eq. exact H4.
Qed.

Lemma utf8_bytes (cp : Z) :
  0 <= cp < 0x110000 -> Forall (fun b => 0 <= b < 256) (Utf8.utf8 cp).
Proof.
  intros Hcp. unfold Utf8.utf8.
  pose proof (Z.mod_pos_bound cp 64 ltac:(lia)) as M0.
  pose proof (Z.mod_pos_bound (cp / 64) 64 ltac:(lia)) as M1.
  pose proof (Z.mod_pos_bound (cp / 4096) 64 ltac:(lia)) as M2.
  destruct (cp <? 128) eqn:H1; [apply Z.ltb_lt in H1; repeat constructor; lia|].
  apply Z.ltb_ge in H1.
  destruct (cp <? 2048) eqn:H2.
  { apply Z.ltb_lt in H2.
    assert (Q1 : 0 <= cp / 64 < 32)
      by (split; [apply Z.div_pos; lia|apply Z.div_lt_upper_bound; lia]).
    repeat constructor; lia. }
  apply Z.ltb_ge in H2.
  destruct (cp <? 65536) eqn:H3.
  { apply Z.ltb_lt in H3.
    assert (Q2 : 0 <= cp / 4096 < 16)
      by (split; [apply Z.div_pos; lia|apply Z.div_lt_upper_bound; lia]).
    repeat constructor; lia. }
  apply Z.ltb_ge in H3.
  assert (Q3 : 0 <= cp / 262144 < 8)
    by (split; [apply Z.div_pos; lia|apply Z.div_lt_upper_bound; lia]).
  repeat constructor; lia.
Qed.

Lemma map_mod256 (bs : list Z) :
  Forall (fun b => 0 <= b < 256) bs -> map (fun b => b mod 256) bs = bs.
Proof.
  intros H. induction H as [|b bs Hb _ IH]; [reflexivity|].
  cbn [map]. rewrite IH, Z.mod_small by exact Hb. reflexivity.
Qed.

(** One iteration of the loop on the code units of one scalar value. *)
Lemma encode_step (fuel : nat) (pre rest bytes : list Z) (cp : Z) :
  Utf8.scalar_value cp ->
  Utf8.encode_loop (S fuel) (pre ++ Utf8.utf16 cp ++ rest) (Z.of_nat (List.length pre)) bytes
  = Utf8.encode_loop fuel ((pre ++ Utf8.utf16 cp) ++ rest)
      (Z.of_nat (List.length (pre ++ Utf8.utf16 cp))) (bytes ++ Utf8.utf8 cp).
Proof.
  intros Hcp.
  assert (Hlen : Z.of_nat (List.length pre)
                 < Z.of_nat (List.length (pre ++ Utf8.utf16 cp ++ rest))).
  { rewrite !length_app. unfold Utf8.utf16.
    destruct (cp <? 65536); cbn [List.length]; lia. }
  cbn [Utf8.encode_loop].
  replace (Z.of_nat (List.length pre) <? Z.of_nat (List.length (pre ++ Utf8.utf16 cp ++ rest)))
    with true by (symmetry; apply Z.ltb_lt; exact Hlen).
  rewrite Nat2Z.id, app_nth2, Nat.sub_diag by lia.
  rewrite <- (app_assoc pre).
  unfold Utf8.utf16, Utf8.utf8.
  destruct (cp <? 65536) eqn:H16.
  - apply Z.ltb_lt in H16. cbn [app nth].
    replace (Z.of_nat (List.length (pre ++ [cp]))) with (Z.of_nat (List.length pre) + 1)
      by (rewrite length_app; cbn [List.length]; lia).
    destruct (cp <? 128) eqn:H1; [reflexivity|]. apply Z.ltb_ge in H1.
    destruct (cp <? 2048) eqn:H2.
    + apply Z.ltb_lt in H2.
      rewrite band_63, shr_div by lia. change (2 ^ 6) with 64.
      assert (Hq : 0 <= cp / 64 < 32)
        by (split; [apply Z.div_pos; lia|apply Z.div_lt_upper_bound; lia]).
      destruct (marker_facts (cp / 64) ltac:(lia)) as [_ [Ec _]].
      destruct (marker_facts (cp mod 64) (Z.mod_pos_bound cp 64 ltac:(lia))) as [E8 _].
      rewrite (Ec ltac:(lia)), E8. reflexivity.
    + apply Z.ltb_ge in H2.
      assert (Hs : (cp <? 55296) || (cp >=? 57344) = true).
      { destruct Hcp as [Hlo|Hhi].
        - replace (cp <? 55296) with true by (symmetry; apply Z.ltb_lt; lia). reflexivity.
        - replace (cp >=? 57344) with true by (symmetry; apply Z.geb_le; lia).
          apply orb_true_r. }
      rewrite Hs.
      rewrite !band_63, !shr_div by lia. change (2 ^ 6) with 64. change (2 ^ 12) with 4096.
      assert (Hq : 0 <= cp / 4096 < 16)
        by (split; [apply Z.div_pos; lia|apply Z.div_lt_upper_bound; lia]).
      destruct (marker_facts (cp / 4096) ltac:(lia)) as [_ [_ [Ee _]]].
      destruct (marker_facts ((cp / 64) mod 64) (Z.mod_pos_bound _ 64 ltac:(lia))) as [E8a _].
      destruct (marker_facts (cp mod 64) (Z.mod_pos_bound cp 64 ltac:(lia))) as [E8 _].
      rewrite (Ee ltac:(lia)), E8a, E8. reflexivity.
  - apply Z.ltb_ge in H16.
    assert (Hhi : 65536 <= cp < 1114112) by (destruct Hcp; lia).
    set (d := cp - 65536).
    pose proof (Z.div_mod d 1024 ltac:(lia)) as Hd.
    pose proof (Z.mod_pos_bound d 1024 ltac:(lia)) as Hm.
    assert (Hq : 0 <= d / 1024 < 1024)
      by (split; [apply Z.div_pos; lia|apply Z.div_lt_upper_bound; lia]).
    set (hi := 55296 + d / 1024). set (lo := 56320 + d mod 1024).
    cbn [app nth].
    replace (Z.of_nat (List.length (pre ++ [hi; lo]))) with (Z.of_nat (List.length pre) + 1 + 1)
      by (rewrite length_app; cbn [List.length]; lia).
    replace (hi <? 128) with false by (symmetry; apply Z.ltb_ge; lia).
    replace (hi <? 2048) with false by (symmetry; apply Z.ltb_ge; lia).
    replace ((hi <? 55296) || (hi >=? 57344)) with false.
    2:{ symmetry. apply orb_false_iff. split; [apply Z.ltb_ge; lia|].
        rewrite Z.geb_leb. apply Z.leb_gt. lia. }
    cbv zeta.
    assert (Elo : Utf8.charCodeAt_and (pre ++ hi :: lo :: rest)
                    (Z.of_nat (List.length pre) + 1) 1023 = d mod 1024).
    { unfold Utf8.charCodeAt_and.
      replace ((0 <=? Z.of_nat (List.length pre) + 1)
               && (Z.of_nat (List.length pre) + 1
                   <? Z.of_nat (List.length (pre ++ hi :: lo :: rest)))) with true.
      2:{ symmetry. apply andb_true_iff. split; [apply Z.leb_le; lia|].
          apply Z.ltb_lt. rewrite length_app. cbn [List.length]. lia. }
      rewrite app_nth2 by lia.
      replace (Z.to_nat (Z.of_nat (List.length pre) + 1) - List.length pre)%nat
        with 1%nat by lia.
      cbn [nth]. rewrite band_1023. unfold lo.
      replace (56320 + d mod 1024) with (d mod 1024 + 55 * 1024) by lia.
      rewrite Z_mod_plus_full. apply Z.mod_mod. lia. }
    rewrite Elo.
    assert (Ehi : JS.shl (JS.band hi 1023) 10 = d / 1024 * 2 ^ 10).
    { rewrite band_1023. unfold hi.
      replace (55296 + d / 1024) with (d / 1024 + 54 * 1024) by lia.
      rewrite Z_mod_plus_full, Z.mod_small by lia.
      apply shl_small; lia. }
    rewrite Ehi.
    assert (Ec : 65536 + JS.bor (d / 1024 * 2 ^ 10) (d mod 1024) = cp).
    { unfold JS.bor. rewrite !ToInt32_small by lia.
      rewrite Z.lor_comm, lor_low_high by lia. unfold d in *. lia. }
    rewrite Ec.
    rewrite !band_63, !shr_div by lia.
    change (2 ^ 6) with 64. change (2 ^ 12) with 4096. change (2 ^ 18) with 262144.
    assert (Hq18 : 0 <= cp / 262144 < 8)
      by (split; [apply Z.div_pos; lia|apply Z.div_lt_upper_bound; lia]).
    destruct (marker_facts (cp / 262144) ltac:(lia)) as [_ [_ [_ Ef]]].
    destruct (marker_facts ((cp / 4096) mod 64) (Z.mod_pos_bound _ 64 ltac:(lia))) as [E8b _].
    destruct (marker_facts ((cp / 64) mod 64) (Z.mod_pos_bound _ 64 ltac:(lia))) as [E8a _].
    destruct (marker_facts (cp mod 64) (Z.mod_pos_bound cp 64 ltac:(lia))) as [E8 _].
    rewrite (Ef ltac:(lia)), E8b, E8a, E8.
    replace (cp <? 128) with false by (symmetry; apply Z.ltb_ge; lia).
    replace (cp <? 2048) with false by (symmetry; apply Z.ltb_ge; lia).
    reflexivity.
Qed.

Lemma encode_loop_scalars (cps : list Z) :
  Forall Utf8.scalar_value cps ->
  forall (fuel : nat) (pre bytes : list Z),
    (List.length cps <= fuel)%nat ->
    Utf8.encode_loop fuel (pre ++ flat_map Utf8.utf16 cps) (Z.of_nat (List.length pre)) bytes
    = Returns (map (fun b => b mod 256) bytes ++ flat_map Utf8.utf8 cps).
Proof.
  intros Hall. induction Hall as [|cp cps Hcp _ IH]; intros fuel pre bytes Hfuel.
  - cbn [flat_map]. rewrite !app_nil_r.
    destruct fuel; cbn [Utf8.encode_loop]; rewrite Z.ltb_irrefl; reflexivity.
  - destruct fuel as [|fuel]; [cbn [List.length] in Hfuel; lia|].
    cbn [flat_map]. rewrite encode_step by exact Hcp.
    rewrite <- app_assoc.
    rewrite (app_assoc pre (Utf8.utf16 cp)).
    rewrite IH by (cbn [List.length] in Hfuel; lia).
    rewrite map_app, <- app_assoc.
    rewrite (map_mod256 (Utf8.utf8 cp)) by (apply utf8_bytes; destruct Hcp; lia).
    reflexivity.
Qed.

(** X9: without a [TextEncoder], [encodeUTF8] returns, for the UTF-16 form
    of any list of Unicode scalar values, the concatenation of their UTF-8
    forms. *)
Theorem encodeUTF8_fallback (cps : list Z) (Hcps : Forall Utf8.scalar_value cps) :
  Utf8.encodeUTF8 None (flat_map Utf8.utf16 cps) = Returns (flat_map Utf8.utf8 cps).
Proof.
  unfold Utf8.encodeUTF8.
  pose proof (encode_loop_scalars cps Hcps
                (List.length (flat_map Utf8.utf16 cps)) [] []) as H.
  cbn [app List.length map] in H. apply H.
  clear H. induction cps as [|cp cps IH]; [cbn; lia|].
  cbn [flat_map]. rewrite length_app. cbn [List.length].
  inversion Hcps; subst.
  specialize (IH ltac:(assumption)).
  unfold Utf8.utf16 at 1. destruct (cp <? 65536); cbn [List.length]; lia.
Qed.

Lemma encodeUTF8_fallback_witness :
  Forall Utf8.scalar_value [0x41; 0xE9; 0x20AC; 0x1F600]
  /\ Utf8.encodeUTF8 None (flat_map Utf8.utf16 [0x41; 0xE9; 0x20AC; 0x1F600])
     = Returns (flat_map Utf8.utf8 [0x41; 0xE9; 0x20AC; 0x1F600]).
Proof.
  assert (H : Forall Utf8.scalar_value [0x41; 0xE9; 0x20AC; 0x1F600])
    by (repeat constructor; unfold Utf8.scalar_value; lia).
  split; [exact H|]. apply encodeUTF8_fallback. exact H.
Defined.

(** ** The key of a derive-key hasher *)

Lemma words_of_bytes_bytes (ws : Uint32Array.t) :
  Forall (fun w => 0 <= w < 2 ^ 32) ws ->
  Uint32Array.words_of_bytes (List.length ws) (Uint32Array.bytes ws) = ws.
Proof.
  intros H. induction H as [|w ws Hw _ IH]; [reflexivity|].
  cbn [List.length Uint32Array.words_of_bytes Uint32Array.bytes flat_map
       Uint32Array.bytes_of_word app nth skipn].
  rewrite word_of_bytes_of_word by exact Hw.
  f_equal. exact IH.
Qed.

Section DeriveKeyProofs.
Context {e : Env}.

(** [finalize] of at most 64 bytes returns the first bytes of the words of
    its one root compression, on either kind of host. *)
Lemma finalize_short_bytes (h h' : Hasher.t) (output : ChunkState.output_t) (n : Z) :
  Hasher.finalizeOutput h = Returns (output, h') -> 0 <= n <= 64 ->
  Hasher.finalize h n
  = Returns (firstn (Z.to_nat n)
               (Uint32Array.bytes
                  (compress (ChunkState.o_inputCv output) 0 (ChunkState.o_blockWords output) 0
                     (Uint32Array.make 16) 0 (n >? 32) (ChunkState.o_counter output)
                     (ChunkState.o_blockLen output)
                     (JS.bor (ChunkState.o_flags output) ROOT))), h').
Proof.
  intros E Hn. unfold Hasher.finalize. rewrite E. cbn [bind].
  replace (n <? 0) with false by (symmetry; apply Z.ltb_ge; lia).
  replace (n <=? 64) with true by (symmetry; apply Z.leb_le; lia).
  set (outWords := compress _ 0 _ 0 (Uint32Array.make 16) 0 (n >? 32) _ _ _).
  set (g := fun i => JS.ToUint32
                  (nth i (compress_words (read_words (ChunkState.o_inputCv output) 0 8)
                            (read_words (ChunkState.o_blockWords output) 0 16)
                            (ChunkState.o_counter output)
                            (ChunkState.o_blockLen output)
                            (JS.bor (ChunkState.o_flags output) ROOT)) 0)).
  assert (Hout : outWords = map g (seq 0 16) \/ outWords = map g (seq 0 8) ++ repeat 0 8).
  { unfold outWords. destruct (n >? 32).
    - left. rewrite compress_full by reflexivity. reflexivity.
    - right. rewrite compress_half. reflexivity. }
  assert (Hok : words_ok outWords).
  { apply words_ok_Forall.
    assert (Hg : forall l, Forall (fun w => 0 <= w < 2 ^ 32) (map g l)).
    { intros l. apply Forall_forall. intros x Hx. apply in_map_iff in Hx.
      destruct Hx as [i [Hi _]]. subst x. unfold g, JS.ToUint32.
      apply Z.mod_pos_bound. lia. }
    destruct Hout as [Ho|Ho]; rewrite Ho.
    - apply Hg.
    - apply Forall_app. split; [apply Hg|].
      apply Forall_forall. intros x Hx. apply repeat_spec in Hx. subst x. lia. }
  assert (Hlen64 : List.length (Uint32Array.bytes outWords) = 64%nat).
  { destruct Hout as [Ho|Ho]; rewrite Ho; reflexivity. }
  destruct IS_LITTLE_ENDIAN.
  - unfold Uint8Array.set, Uint8Array.make.
    rewrite length_firstn, repeat_length, Hlen64.
    replace (Nat.min (Z.to_nat n) 64) with (Z.to_nat n) by lia.
    rewrite Nat.leb_refl. cbn [bind].
    rewrite skipn_all2 by (rewrite repeat_length; lia).
    rewrite app_nil_r. reflexivity.
  - destruct (writeLittleEndianBytesPartial_bytes outWords 0 0 n
                (Uint8Array.make n) Hok ltac:(lia) ltac:(lia) ltac:(lia))
      as [L [_ I]].
    { unfold Uint8Array.make. rewrite repeat_length. lia. }
    do 2 f_equal.
    apply (nth_ext _ _ 0 0).
    + rewrite L, length_firstn, Hlen64. unfold Uint8Array.make.
      rewrite repeat_length. lia.
    + intros i Hi. rewrite L in Hi. unfold Uint8Array.make in Hi.
      rewrite repeat_length in Hi.
      specialize (I (Z.of_nat i) ltac:(lia)). unfold zget in I.
      rewrite Nat2Z.id in I. rewrite I.
      replace (Z.to_nat (4 * 0 + (Z.of_nat i - 0))) with i by lia.
      rewrite nth_firstn.
      replace (i <? Z.to_nat n)%nat with true by (symmetry; apply Nat.ltb_lt; lia).
      reflexivity.
Qed.

(** X10: [newDeriveKey] returns, for a context of at most 2^42 encoded
    bytes, a hasher in mode DERIVE_KEY_MATERIAL whose key words are the
    32-byte digest of the context, hashed in mode DERIVE_KEY_CONTEXT, read
    as 8 little-endian words. *)
Theorem newDeriveKey_key (textEncoder : option (list Z -> list Z))
    (context contextBytes : list Z)
    (Hencode : Utf8.encodeUTF8 textEncoder context = Returns contextBytes)
    (Hlen : Z.of_nat (List.length contextBytes) <= 1024 * 2 ^ 32) :
  exists contextHasher digest contextHasher',
    Hasher.update (Hasher.new_ (map JS.ToUint32 IV) DERIVE_KEY_CONTEXT)
      (Uint8Array.of_list contextBytes) = Returns contextHasher
    /\ Hasher.finalize contextHasher 32 = Returns (digest, contextHasher')
    /\ newDeriveKey textEncoder context
       = Returns (Hasher.new_ (Uint32Array.words_of_bytes 8 digest) DERIVE_KEY_MATERIAL).
Proof.
  destruct (update_returns (Hasher.new_ (map JS.ToUint32 IV) DERIVE_KEY_CONTEXT)
              (Uint8Array.of_list contextBytes)) as [hc [Eu [Hinv _]]].
  - apply new_hasher_inv.
  - unfold input_ok, Uint8Array.of_list.
    cbn [Uint8Array.byteOffset Uint8Array.length Uint8Array.buffer]. lia.
  - intros _. exists 0. reflexivity.
  - unfold total, Uint8Array.of_list. cbn. lia.
  - destruct (finalizeOutput_returns hc) as [output [h' [Eo _]]].
    { destruct Hinv as [[_ [_ Hs]] _]. rewrite Hs. apply popcount_nonneg. }
    exists hc. eexists. exists h'.
    split; [exact Eu|]. split.
    + apply (finalize_short_bytes hc h' output 32 Eo). lia.
    + unfold newDeriveKey. rewrite Hencode. cbn [bind]. rewrite Eu. cbn [bind].
      rewrite Eo. cbn [bind]. do 2 f_equal.
      change (32 >? 32) with false. rewrite compress_half.
      set (w := compress_words _ _ _ _ _).
      set (K := map (fun i => JS.ToUint32 (nth i w 0)) (seq 0 8)).
      assert (HK : compress (ChunkState.o_inputCv output) 0 (ChunkState.o_blockWords output) 0
                     (Uint32Array.make 8) 0 false (ChunkState.o_counter output)
                     (ChunkState.o_blockLen output)
                     (JS.bor (ChunkState.o_flags output) ROOT) = K)
        by reflexivity.
      rewrite HK.
      unfold Uint32Array.bytes. rewrite flat_map_app.
      change (Z.to_nat 32) with 32%nat.
      assert (HlK : List.length (flat_map Uint32Array.bytes_of_word K) = 32%nat)
        by reflexivity.
      rewrite firstn_app, HlK. change (32 - 32)%nat with 0%nat.
      rewrite firstn_O, app_nil_r, firstn_all2 by lia.
      symmetry. apply (words_of_bytes_bytes K).
      apply Forall_forall. intros x Hx. apply in_map_iff in Hx.
      destruct Hx as [i [Hi _]]. subst x. unfold JS.ToUint32.
      apply Z.mod_pos_bound. lia.
Qed.

End DeriveKeyProofs.

Lemma newDeriveKey_key_witness :
  Utf8.encodeUTF8 None [98; 51] = Returns [98; 51]
  /\ Z.of_nat (List.length [98; 51]) <= 1024 * 2 ^ 32
  /\ exists contextHasher digest contextHasher',
       @Hasher.update (Spec.env true) (Hasher.new_ (map JS.ToUint32 IV) DERIVE_KEY_CONTEXT)
         (Uint8Array.of_list [98; 51]) = Returns contextHasher
       /\ @Hasher.finalize (Spec.env true) contextHasher 32 = Returns (digest, contextHasher')
       /\ @newDeriveKey (Spec.env true) None [98; 51]
          = Returns (Hasher.new_ (Uint32Array.words_of_bytes 8 digest) DERIVE_KEY_MATERIAL).
Proof.
  split; [reflexivity|]. split; [cbn; lia|].
  apply (@newDeriveKey_key (Spec.env true) None [98; 51] [98; 51]); [reflexivity|cbn; lia].
Defined.

(** ** hashInto *)

Lemma words_ok_store (m : Uint32Array.t) (i v : Z) :
  words_ok m -> words_ok (Uint32Array.store m i v).
Proof.
  intros Hok k.
  destruct (Z.eq_dec i k) as [E|Hne].
  - subst k. unfold Uint32Array.store.
    destruct ((0 <=? i) && (i <? Uint32Array.length m)) eqn:Hin; [|apply Hok].
    apply andb_true_iff in Hin. destruct Hin as [H0 H1].
    apply Z.leb_le in H0. apply Z.ltb_lt in H1.
    assert (Hs : Uint32Array.get (Uint32Array.store m i v) i = JS.ToUint32 v)
      by (apply get32_store_same; lia).
    unfold Uint32Array.store in Hs.
    replace ((0 <=? i) && (i <? Uint32Array.length m)) with true in Hs
      by (symmetry; apply andb_true_iff; split; [apply Z.leb_le|apply Z.ltb_lt]; lia).
    rewrite Hs. unfold JS.ToUint32. apply Z.mod_pos_bound. lia.
  - rewrite get32_store_other by exact Hne. apply Hok.
Qed.

Lemma words_ok_make (n : Z) : words_ok (Uint32Array.make n).
Proof.
  apply words_ok_Forall. apply Forall_forall. intros x Hx.
  apply repeat_spec in Hx. subst x. lia.
Qed.

Lemma writeLittleEndianBytesPartial_length (words : Uint32Array.t) (wo bo n : Z)
    (out : list Z) :
  List.length (writeLittleEndianBytesPartial words wo out bo n) = List.length out.
Proof.
  unfold writeLittleEndianBytesPartial. cbv zeta.
  set (loop := for_loop _ _ out).
  assert (Lloop : List.length loop = List.length out).
  { unfold loop, for_loop.
    apply (for_from_invariant (fun o => List.length o = List.length out)).
    - intros i s Hs. rewrite !store8_length. exact Hs.
    - reflexivity. }
  destruct (JS.band n 3 >? 0); [|exact Lloop].
  destruct (JS.band n 3 >? 1), (JS.band n 3 >? 2); rewrite ?store8_length; exact Lloop.
Qed.

Section IntoProofs.
Context {e : Env}.
Import OneShot.

Lemma compress_words_ok cv cvOffset block blockOffset out outOffset fullOutput
    counter blockLen flags :
  words_ok out ->
  words_ok (compress cv cvOffset block blockOffset out outOffset fullOutput
              counter blockLen flags).
Proof.
  intros Hok. unfold compress, write_words, for_loop.
  apply (for_from_invariant words_ok).
  - intros i s Hs. apply words_ok_store. exact Hs.
  - exact Hok.
Qed.

(** A property of the state that every iteration of a loop in [M] keeps. *)
Lemma forM_from_invariant {S : Type} (P : S -> Prop) (body : Z -> S -> M S) :
  (forall i s tr s' tr', P s -> body i s tr = Returns (s', tr') -> P s') ->
  forall count i s tr s' tr',
    P s -> forM_from count i body s tr = Returns (s', tr') -> P s'.
Proof.
  intros Hbody count. induction count as [|count IH]; intros i s tr s' tr' Hs E.
  - cbn [forM_from] in E. unfold ret in E. injection E as E1 E2. subst s'. exact Hs.
  - cbn [forM_from] in E. unfold bindM in E.
    destruct (body i s tr) as [[s1 tr1]| |] eqn:Eb; try discriminate.
    apply (IH (i + 1) s1 tr1 s' tr'); [|exact E].
    apply (Hbody i s tr s1 tr1 Hs Eb).
Qed.

(** The output words of [hashChunkRoot] are those of a compression into
    the buffer it was given. *)
Lemma hashChunkRoot_out (input : Uint8Array.t) (inputOffset inputLen chunkCounter flags : Z)
    (out out' : Uint32Array.t) (fullOutput : bool) (tr tr' : list call) :
  words_ok out ->
  hashChunkRoot input inputOffset inputLen chunkCounter flags out fullOutput tr
    = Returns (out', tr') ->
  words_ok out' /\ List.length out' = List.length out.
Proof.
  intros Hok E. unfold hashChunkRoot in E. cbv zeta in E.
  unfold bindM at 1 in E.
  match type of E with
  | match ?m tr with _ => _ end = _ => destruct (m tr) as [[inputWords tr1]| |]; try discriminate
  end.
  unfold bindM at 1 in E.
  match type of E with
  | match forM_from ?n ?i ?body ?s0 ?t with _ => _ end = _ =>
      destruct (forM_from n i body s0 t) as [[[[tempCv block] o] tr2]| |] eqn:Eloop;
        try discriminate;
      pose proof (forM_from_invariant
                    (fun s : Uint32Array.t * Uint32Array.t * Uint32Array.t =>
                       words_ok (snd s) /\ List.length (snd s) = List.length out)
                    body) as Hinv;
      specialize (fun Hb => Hinv Hb n i s0 t _ _ (conj Hok eq_refl) Eloop)
  end.
  unfold ret in E. injection E as E1 E2. subst out'.
  apply Hinv. clear Hinv Eloop.
  intros i [[tc bl] o1] t1 [[tc' bl'] o2] t2 [Ho Hl] Eb.
  cbn [snd] in *. cbv zeta in Eb.
  repeat match type of Eb with
         | (if ?c then _ else _) _ = _ => destruct c
         end;
    unfold bindM, compressM, ret in Eb; injection Eb as _ _ Eo _; subst o2;
    try (split; [exact Ho|exact Hl]);
    (split; [apply compress_words_ok; exact Ho|rewrite compress_length; exact Hl]).
Qed.

Lemma out_buffer_eq (n : Z) : Into.out_buffer n = out_buffer n.
Proof.
  unfold Into.out_buffer, out_buffer.
  destruct (n =? 32) eqn:E32.
  - apply Z.eqb_eq in E32. subst n. reflexivity.
  - destruct (n <=? 32) eqn:Hle, (n >? 32) eqn:Hgt; try reflexivity.
    + apply Z.leb_le in Hle. apply Z.gtb_lt in Hgt. lia.
    + apply Z.leb_gt in Hle. rewrite Z.gtb_ltb in Hgt. apply Z.ltb_ge in Hgt. lia.
Qed.

Lemma out_buffer_length (n : Z) :
  List.length (out_buffer n) = (if n >? 32 then 16 else 8)%nat.
Proof.
  unfold out_buffer. destruct (n =? 32) eqn:E32.
  - apply Z.eqb_eq in E32. subst n. reflexivity.
  - destruct (n >? 32); reflexivity.
Qed.

Lemma bytes_length (ws : Uint32Array.t) :
  List.length (Uint32Array.bytes ws) = (4 * List.length ws)%nat.
Proof.
  unfold Uint32Array.bytes. induction ws as [|w ws IH]; [reflexivity|].
  cbn [flat_map]. rewrite length_app, IH. cbn [List.length Uint32Array.bytes_of_word]. lia.
Qed.

(** The bytes that [hashPureJS] returns after a root compression, written
    over the start of [output]: the copy of [hashPureJSInto]. *)
Lemma emit_into (out : Uint32Array.t) (output : list Z) (n : Z) :
  words_ok out -> 0 <= n < 2 ^ 30 -> n <= Z.of_nat (List.length output) ->
  List.length out = (if n >? 32 then 16 else 8)%nat ->
  Into.emit out output n
  = match emit out n with
    | Returns d => Returns (d ++ skipn (Z.to_nat n) output)
    | Throws x => Throws x
    | OutOfFuel => OutOfFuel
    end.
Proof.
  intros Hok Hn Hfit Hlen. unfold Into.emit, emit.
  pose proof (bytes_length out) as Hb.
  replace (n <? 0) with false by (symmetry; apply Z.ltb_ge; lia).
  destruct IS_LITTLE_ENDIAN.
  - rewrite andb_true_r. cbn [orb].
    destruct (n =? 32) eqn:E32.
    + apply Z.eqb_eq in E32. subst n. change (32 >? 32) with false in Hlen.
      unfold Uint32Array.length. rewrite Hlen.
      change (32 >? 4 * Z.of_nat 8) with false. cbv iota.
      unfold Uint8Array.set. rewrite length_firstn, Hb, Hlen.
      change (Nat.min (Z.to_nat 32) (4 * 8)) with 32%nat.
      replace (32 <=? List.length output)%nat with true
        by (symmetry; apply Nat.leb_le; lia).
      reflexivity.
    + destruct (n >? 4 * Uint32Array.length out) eqn:Hbig; [reflexivity|].
      rewrite Z.gtb_ltb in Hbig. apply Z.ltb_ge in Hbig.
      unfold Uint32Array.length in Hbig. cbv zeta.
      unfold Uint8Array.set, Uint8Array.make.
      rewrite length_firstn, Hb, repeat_length.
      replace (Nat.min (Z.to_nat n) (4 * List.length out)) with (Z.to_nat n) by lia.
      rewrite Nat.leb_refl.
      replace (Z.to_nat n <=? List.length output)%nat with true
        by (symmetry; apply Nat.leb_le; lia).
      rewrite (skipn_all2 (n := Z.to_nat n) (repeat 0 (Z.to_nat n)))
        by (rewrite repeat_length; lia).
      rewrite app_nil_r. reflexivity.
  - rewrite andb_false_r. f_equal.
    destruct (writeLittleEndianBytesPartial_bytes out 0 0 n output Hok
                ltac:(lia) ltac:(lia) Hn ltac:(lia)) as [L1 [O1 I1]].
    destruct (writeLittleEndianBytesPartial_bytes out 0 0 n (Uint8Array.make n) Hok
                ltac:(lia) ltac:(lia) Hn) as [L2 [_ I2]].
    { unfold Uint8Array.make. rewrite repeat_length. lia. }
    assert (L2' : List.length (writeLittleEndianBytesPartial out 0 (Uint8Array.make n) 0 n)
                  = Z.to_nat n)
      by (rewrite L2; unfold Uint8Array.make; apply repeat_length).
    apply (nth_ext _ _ 0 0).
    + rewrite L1, length_app, L2', length_skipn. lia.
    + intros i Hi. rewrite L1 in Hi.
      destruct (Nat.lt_ge_cases i (Z.to_nat n)) as [Hlt|Hge].
      * rewrite app_nth1 by lia.
        specialize (I1 (Z.of_nat i) ltac:(lia)). specialize (I2 (Z.of_nat i) ltac:(lia)).
        unfold zget in I1, I2. rewrite Nat2Z.id in I1, I2. rewrite I1, I2. reflexivity.
      * rewrite app_nth2 by lia. rewrite L2', nth_skipn.
        specialize (O1 (Z.of_nat i) ltac:(lia) ltac:(lia)).
        unfold zget in O1. rewrite Nat2Z.id in O1. rewrite O1.
        f_equal. lia.
Qed.

Lemma emit_length (out : Uint32Array.t) (n : Z) (d : list Z) :
  0 <= n -> List.length out = (if n >? 32 then 16 else 8)%nat ->
  emit out n = Returns d -> List.length d = Z.to_nat n.
Proof.
  intros Hn Hlen E. unfold emit in E.
  pose proof (bytes_length out) as Hb.
  destruct ((n =? 32) && IS_LITTLE_ENDIAN) eqn:H32.
  - apply andb_true_iff in H32. destruct H32 as [H32 _].
    apply Z.eqb_eq in H32. subst n. change (32 >? 32) with false in Hlen.
    assert (Ed : d = firstn 32 (Uint32Array.bytes out)) by congruence.
    rewrite Ed, length_firstn, Hb, Hlen. reflexivity.
  - replace (n <? 0) with false in E by (symmetry; apply Z.ltb_ge; lia).
    destruct IS_LITTLE_ENDIAN.
    + destruct (n >? 4 * Uint32Array.length out) eqn:Hbig; [discriminate|].
      rewrite Z.gtb_ltb in Hbig. apply Z.ltb_ge in Hbig.
      unfold Uint32Array.length in Hbig. cbv zeta in E.
      unfold Uint8Array.set, Uint8Array.make in E.
      rewrite length_firstn, Hb, repeat_length in E.
      replace (Nat.min (Z.to_nat n) (4 * List.length out)) with (Z.to_nat n) in E by lia.
      rewrite Nat.leb_refl in E.
      assert (Ed : d = firstn (Z.to_nat n) (Uint32Array.bytes out)
                         ++ skipn (Z.to_nat n) (repeat 0 (Z.to_nat n))) by congruence.
      rewrite Ed, length_app, length_firstn, length_skipn, Hb, repeat_length. lia.
    + assert (Ed : d = writeLittleEndianBytesPartial out 0 (Uint8Array.make n) 0 n)
        by congruence.
      rewrite Ed.
      rewrite writeLittleEndianBytesPartial_length.
      unfold Uint8Array.make. apply repeat_length.
Qed.

Lemma root_loop_length (n : Z) (fuel : nat) :
  0 <= n ->
  forall (stack : Uint32Array.t) (stackLen : Z) (tr tr' : list call) (d : list Z),
    root_loop fuel stack stackLen n tr = Returns (d, tr') -> List.length d = Z.to_nat n.
Proof.
  intros Hn.
  assert (Hemit : forall out tr tr' d,
            List.length out = List.length (out_buffer n) ->
            lift (emit out n) tr = Returns (d, tr') -> List.length d = Z.to_nat n).
  { intros out tr tr' d Hl E. unfold lift in E.
    destruct (emit out n) as [d1| |] eqn:Ee; try discriminate.
    injection E as E1 E2. subst d1.
    apply (emit_length out n d Hn); [|exact Ee].
    rewrite Hl. apply out_buffer_length. }
  induction fuel as [|fuel IH]; intros stack stackLen tr tr' d E.
  - cbn [root_loop] in E. destruct (stackLen >? 1); [discriminate|].
    cbv zeta in E. unfold bindM, compressM in E.
    apply (Hemit _ _ _ _ (compress_length _ _ _ _ _ _ _ _ _ _) E).
  - cbn [root_loop] in E. destruct (stackLen >? 1).
    + cbv zeta in E. destruct (stackLen - 2 =? 0).
      * unfold bindM, compressM in E.
        apply (Hemit _ _ _ _ (compress_length _ _ _ _ _ _ _ _ _ _) E).
      * unfold bindM, compressM in E. apply (IH _ _ _ _ _ E).
    + cbv zeta in E. unfold bindM, compressM in E.
      apply (Hemit _ _ _ _ (compress_length _ _ _ _ _ _ _ _ _ _) E).
Qed.

Lemma hashPureJSInto_copies (input : Uint8Array.t) (output : list Z) (n : Z)
    (tr : list call) :
  0 <= n < 2 ^ 30 -> n <= Z.of_nat (List.length output) ->
  Into.hashPureJSInto input output n tr
  = match hashPureJS input n tr with
    | Returns (d, tr') => Returns (d ++ skipn (Z.to_nat n) output, tr')
    | Throws x => Throws x
    | OutOfFuel => OutOfFuel
    end.
Proof.
  intros Hn Hfit. unfold Into.hashPureJSInto, hashPureJS. cbv zeta.
  rewrite out_buffer_eq.
  assert (Hlift : forall out tr1,
            words_ok out -> List.length out = List.length (out_buffer n) ->
            lift (Into.emit out output n) tr1
            = match lift (emit out n) tr1 with
              | Returns (d, tr') => Returns (d ++ skipn (Z.to_nat n) output, tr')
              | Throws x => Throws x
              | OutOfFuel => OutOfFuel
              end).
  { intros out tr1 Hok Hl. unfold lift.
    rewrite emit_into; try assumption.
    - destruct (emit out n); reflexivity.
    - rewrite Hl. apply out_buffer_length. }
  destruct (Uint8Array.length input =? 0).
  - unfold bindM, compressM. apply Hlift.
    + apply compress_words_ok. unfold out_buffer.
      destruct (n =? 32); apply words_ok_make.
    + apply compress_length.
  - destruct ((Uint8Array.length input + CHUNK_LEN - 1) / CHUNK_LEN =? 1).
    + unfold bindM.
      destruct (hashChunkRoot input 0 (Uint8Array.length input) 0 0 (out_buffer n) (n >? 32) tr)
        as [[cv tr1]| |] eqn:Ec; try reflexivity.
      assert (Hbuf : words_ok (out_buffer n))
        by (unfold out_buffer; destruct (n =? 32); apply words_ok_make).
      destruct (hashChunkRoot_out _ _ _ _ _ _ _ _ _ _ Hbuf Ec) as [Hok Hl].
      apply Hlift; assumption.
    + unfold bindM at 1.
      match goal with
      | |- match ?m with _ => _ end = _ => destruct m as [[d tr1]| |] eqn:Eh
      end; try reflexivity.
      unfold lift, Uint8Array.set.
      assert (Ld : List.length d = Z.to_nat n).
      { unfold bindM in Eh.
        match type of Eh with
        | match ?m with _ => _ end = _ => destruct m as [[[stack stackLen] tr2]| |]
        end; try discriminate.
        apply (root_loop_length n _ ltac:(lia) _ _ _ _ _ Eh). }
      rewrite Ld.
      replace (Z.to_nat n <=? List.length output)%nat with true
        by (symmetry; apply Nat.leb_le; lia).
      reflexivity.
Qed.

(** X11: [hashInto] throws the error of a buffer that is too small exactly
    when [output] has fewer than [outputLength] bytes; otherwise, on the
    scalar path, it makes the compressions of [hash] and leaves what [hash]
    returns in the first [outputLength] bytes of [output] and the rest of
    [output] as it was, and it throws where [hash] throws. *)
Theorem hashInto_writes_hash (simdAvailable : bool)
    (hashSimd : Uint8Array.t -> Z -> M (list Z))
    (input : Uint8Array.t) (output : list Z) (outputLength : Z) (tr : list call)
    (Hscalar : Uint8Array.length input < SIMD_THRESHOLD \/ simdAvailable = false)
    (Hlen : 0 <= outputLength < 2 ^ 30) :
  Into.hashInto simdAvailable hashSimd input output outputLength tr
  = if Z.of_nat (List.length output) <? outputLength
    then Into.OutputTooSmall (Z.of_nat (List.length output)) outputLength
    else Into.Ran
           match hash simdAvailable hashSimd input outputLength tr with
           | Returns (d, tr') => Returns (d ++ skipn (Z.to_nat outputLength) output, tr')
           | Throws x => Throws x
           | OutOfFuel => OutOfFuel
           end.
Proof.
  unfold Into.hashInto, hash.
  destruct (Z.of_nat (List.length output) <? outputLength) eqn:Hsmall; [reflexivity|].
  apply Z.ltb_ge in Hsmall.
  assert (Hpath : (Uint8Array.length input >=? SIMD_THRESHOLD) && simdAvailable = false).
  { destruct Hscalar as [Hs|Hs].
    - rewrite Z.geb_leb. replace (SIMD_THRESHOLD <=? Uint8Array.length input) with false
        by (symmetry; apply Z.leb_gt; exact Hs).
      reflexivity.
    - rewrite Hs. apply andb_false_r. }
  rewrite Hpath. f_equal.
  apply hashPureJSInto_copies; assumption.
Qed.

End IntoProofs.

Lemma hashInto_writes_hash_witness :
  (Uint8Array.length (Uint8Array.of_list [1; 2; 3]) < OneShot.SIMD_THRESHOLD \/ true = false)
  /\ 0 <= 16 < 2 ^ 30
  /\ @Into.hashInto (Spec.env true) true (fun _ _ => OneShot.out_of_fuel)
       (Uint8Array.of_list [1; 2; 3]) (repeat 9 20) 16 []
     = if Z.of_nat (List.length (repeat 9 20)) <? 16
       then Into.OutputTooSmall (Z.of_nat (List.length (repeat 9 20))) 16
       else Into.Ran
              match @OneShot.hash (Spec.env true) true (fun _ _ => OneShot.out_of_fuel)
                      (Uint8Array.of_list [1; 2; 3]) 16 [] with
              | Returns (d, tr') => Returns (d ++ skipn (Z.to_nat 16) (repeat 9 20), tr')
              | Throws x => Throws x
              | OutOfFuel => OutOfFuel
              end.
Proof.
  assert (H : Uint8Array.length (Uint8Array.of_list [1; 2; 3]) < OneShot.SIMD_THRESHOLD
              \/ true = false) by (left; vm_compute; reflexivity).
  split; [exact H|]. split; [lia|].
  apply (@hashInto_writes_hash (Spec.env true)); [exact H|lia].
Defined.

(** ** The transposed layout of the 4-way path *)

Lemma apw_length (ws : list (Z * Z)) :
  forall m, List.length (apply_writes ws m) = List.length m.
Proof.
  induction ws as [|w ws IH]; intros m; [reflexivity|].
  cbn [apply_writes fold_left]. fold (apply_writes ws (Uint32Array.store m (fst w) (snd w))).
  rewrite IH. apply store32_length.
Qed.

Lemma apw_other (ws : list (Z * Z)) (j : Z) :
  forall m, (forall v, ~ In (j, v) ws) ->
            Uint32Array.get (apply_writes ws m) j = Uint32Array.get m j.
Proof.
  induction ws as [|[i x] ws IH]; intros m Hj; [reflexivity|].
  cbn [apply_writes fold_left fst snd]. fold (apply_writes ws (Uint32Array.store m i x)).
  rewrite IH by (intros v Hv; apply (Hj v); right; exact Hv).
  apply get32_store_other. intros E. subst i. apply (Hj x). left. reflexivity.
Qed.

Lemma apw_get (ws : list (Z * Z)) (j v : Z) :
  forall m, In (j, v) ws -> (forall v', In (j, v') ws -> v' = v) ->
            0 <= j < Uint32Array.length m ->
            Uint32Array.get (apply_writes ws m) j = JS.ToUint32 v.
Proof.
  induction ws as [|[i x] ws IH]; intros m Hin Huniq Hj; [destruct Hin|].
  cbn [apply_writes fold_left fst snd]. fold (apply_writes ws (Uint32Array.store m i x)).
  destruct (in_dec Z.eq_dec j (map fst ws)) as [Hlater|Hnot].
  - apply in_map_iff in Hlater. destruct Hlater as [[j' v'] [Ej Hv']].
    cbn [fst] in Ej. subst j'.
    assert (Ev : v' = v) by (apply Huniq; right; exact Hv'). subst v'.
    apply IH.
    + exact Hv'.
    + intros v' Hv''. apply Huniq. right. exact Hv''.
    + unfold Uint32Array.length in *. rewrite store32_length. exact Hj.
  - rewrite apw_other.
    + destruct Hin as [E|Hin].
      * injection E as Ei Ex. subst i x. apply get32_store_same. exact Hj.
      * exfalso. apply Hnot. apply in_map_iff. exists (j, v). split; [reflexivity|exact Hin].
    + intros v' Hv'. apply Hnot. apply in_map_iff. exists (j, v').
      split; [reflexivity|exact Hv'].
Qed.

(** A loop whose iteration [w] makes the stores [writes w]. *)
Section LoopWrites.
Variable writes : Z -> list (Z * Z).

Lemma loop_writes_length (count : nat) :
  forall i0 m,
    List.length (for_from count i0 (fun w m => apply_writes (writes w) m) m) = List.length m.
Proof.
  induction count as [|count IH]; intros i0 m; [reflexivity|].
  cbn [for_from]. rewrite IH. apply apw_length.
Qed.

Lemma loop_writes_other (count : nat) (j : Z) :
  forall i0 m,
    (forall w v, i0 <= w < i0 + Z.of_nat count -> ~ In (j, v) (writes w)) ->
    Uint32Array.get (for_from count i0 (fun w m => apply_writes (writes w) m) m) j
    = Uint32Array.get m j.
Proof.
  induction count as [|count IH]; intros i0 m Hj; [reflexivity|].
  cbn [for_from]. rewrite IH by (intros w v Hw; apply Hj; lia).
  apply apw_other. intros v. apply Hj. lia.
Qed.

Lemma loop_writes_get (count : nat) (j v w : Z) :
  forall i0 m,
    i0 <= w < i0 + Z.of_nat count ->
    In (j, v) (writes w) ->
    (forall w' v', i0 <= w' < i0 + Z.of_nat count -> In (j, v') (writes w') ->
                   w' = w /\ v' = v) ->
    0 <= j < Uint32Array.length m ->
    Uint32Array.get (for_from count i0 (fun w m => apply_writes (writes w) m) m) j
    = JS.ToUint32 v.
Proof.
  induction count as [|count IH]; intros i0 m Hw Hin Huniq Hj; [lia|].
  cbn [for_from].
  destruct (Z.eq_dec w i0) as [E|Hne].
  - subst w. rewrite loop_writes_other.
    + apply apw_get; [exact Hin| |exact Hj].
      intros v' Hv'. apply (Huniq i0 v'); [lia|exact Hv'].
    + intros w' v' Hw' Hv'. destruct (Huniq w' v' ltac:(lia) Hv') as [Ew _]. lia.
  - apply IH.
    + lia.
    + exact Hin.
    + intros w' v' Hw' Hv'. apply Huniq; [lia|exact Hv'].
    + unfold Uint32Array.length in *. rewrite apw_length. exact Hj.
Qed.
End LoopWrites.

Lemma words_ok_get (ws : Uint32Array.t) (k : Z) :
  words_ok ws -> JS.ToUint32 (Uint32Array.get ws k) = Uint32Array.get ws k.
Proof. intros Hok. apply ToUint32_small. apply Hok. Qed.

(** Membership in an explicit list of stores, up to linear arithmetic on
    the positions. *)
Ltac in_writes :=
  cbn [In];
  first [ left; solve [apply f_equal2; [lia|first [reflexivity|f_equal; lia]]]
        | right; in_writes ].

(** The stores of the other iterations, and the other stores of the same
    one, are elsewhere or store the same value. *)
Ltac unique_write w :=
  let w' := fresh "w'" in
  let v' := fresh "v'" in
  let Hw' := fresh "Hw'" in
  let Hin := fresh "Hin" in
  let Hj' := fresh "Hj'" in
  let Hv' := fresh "Hv'" in
  let Ew := fresh "Ew" in
  intros w' v' Hw' Hin; cbn [In] in Hin;
  repeat match type of Hin with
         | _ \/ _ => destruct Hin as [Hin|Hin]
         end;
  try contradiction;
  (pose proof (f_equal fst Hin) as Hj'; pose proof (f_equal snd Hin) as Hv';
   cbn [fst snd] in Hj', Hv';
   first [ exfalso; lia
         | assert (Ew : w' = w) by lia;
           try rewrite Ew in Hv'; split; [exact Ew|symmetry; exact Hv'] ]).

Ltac no_write :=
  let w' := fresh "w'" in
  let v' := fresh "v'" in
  let Hw' := fresh "Hw'" in
  let Hin := fresh "Hin" in
  let Hj' := fresh "Hj'" in
  let Hv' := fresh "Hv'" in
  intros w' v' Hw' Hin; cbn [In] in Hin;
  repeat match type of Hin with
         | _ \/ _ => destruct Hin as [Hin|Hin]
         end;
  try contradiction;
  (pose proof (f_equal fst Hin) as Hj'; cbn [fst] in Hj'; lia).

Lemma for_from_ext {S : Type} (body1 body2 : Z -> S -> S) (count : nat) :
  (forall i s, body1 i s = body2 i s) ->
  forall i0 s, for_from count i0 body1 s = for_from count i0 body2 s.
Proof.
  intros Hext. induction count as [|count IH]; intros i0 s; [reflexivity|].
  cbn [for_from]. rewrite Hext. apply IH.
Qed.

(** Loops over a count that is a numeral, unrolled. *)
Ltac unroll :=
  unfold for_loop;
  repeat match goal with
         | |- context [Z.to_nat ?z] =>
             let n := eval vm_compute in (Z.to_nat z) in
             change (Z.to_nat z) with n
         end;
  cbn [for_from].

Ltac closed_tests :=
  repeat match goal with
         | |- context [?a <? ?b] =>
             let r := eval vm_compute in (a <? b) in
             lazymatch r with
             | true => change (a <? b) with true
             | false => change (a <? b) with false
             end
         end;
  cbv iota.

Ltac same_stores :=
  repeat (apply (f_equal3 Uint32Array.store);
          [|lia|first [reflexivity|f_equal; lia]]);
  reflexivity.

Lemma setupSimdCvs_writes (cvs mem32 : Uint32Array.t) (count : Z) :
  0 <= count <= 4 ->
  Simd.setupSimdCvs cvs mem32 count
  = for_from 8 0 (fun w m => apply_writes (cv_writes cvs count w) m) mem32.
Proof.
  intros Hc.
  assert (Hcases : count = 0 \/ count = 1 \/ count = 2 \/ count = 3 \/ count = 4) by lia.
  unfold Simd.setupSimdCvs.
  destruct Hcases as [E|[E|[E|[E|E]]]]; subst count;
    match goal with
    | |- context [?a =? 4] =>
        let r := eval vm_compute in (a =? 4) in change (a =? 4) with r
    end; cbv iota;
    unfold for_loop at 1; change (Z.to_nat 8) with 8%nat;
    apply for_from_ext; intros w m;
    unfold cv_writes, apply_writes; cbn [fold_left fst snd];
    closed_tests; cbv zeta; unroll; same_stores.
Qed.

(** X12: [setupSimdCvs], for a count from 0 to 4, writes word [w] of
    chaining value [c] at position [4 w + c] of the chaining-value region
    of the memory, 0 for the chaining values from [count] on, and nothing
    outside the 32 words of the region; its unrolled branch for 4 and its
    loop agree on that. *)
Theorem setupSimdCvs_layout (cvs mem32 : Uint32Array.t) (count w c : Z)
    (Hcvs : words_ok cvs) (Hcount : 0 <= count <= 4)
    (Hmem : Simd.SIMD_CV_BASE + 32 <= Uint32Array.length mem32)
    (Hw : 0 <= w < 8) (Hc : 0 <= c < 4) :
  List.length (Simd.setupSimdCvs cvs mem32 count) = List.length mem32
  /\ Uint32Array.get (Simd.setupSimdCvs cvs mem32 count) (Simd.SIMD_CV_BASE + w * 4 + c)
     = (if c <? count then Uint32Array.get cvs (c * 8 + w) else 0)
  /\ (forall j, j < Simd.SIMD_CV_BASE \/ Simd.SIMD_CV_BASE + 32 <= j ->
                Uint32Array.get (Simd.setupSimdCvs cvs mem32 count) j
                = Uint32Array.get mem32 j).
Proof.
  rewrite setupSimdCvs_writes by exact Hcount.
  assert (Hbase : Simd.SIMD_CV_BASE = 128) by reflexivity.
  split; [apply loop_writes_length|]. split.
  - assert (Hv : JS.ToUint32 (if c <? count then Uint32Array.get cvs (c * 8 + w) else 0)
                 = (if c <? count then Uint32Array.get cvs (c * 8 + w) else 0)).
    { destruct (c <? count); [apply words_ok_get; exact Hcvs|reflexivity]. }
    rewrite <- Hv.
    assert (Hcases : c = 0 \/ c = 1 \/ c = 2 \/ c = 3) by lia.
    apply (loop_writes_get (cv_writes cvs count) 8 _ _ w); [lia| | |lia].
    + unfold cv_writes. destruct Hcases as [E|[E|[E|E]]]; subst c; in_writes.
    + unfold cv_writes. destruct Hcases as [E|[E|[E|E]]]; subst c; unique_write w.
  - intros j Hj. apply loop_writes_other. unfold cv_writes. no_write.
Qed.

Lemma setupSimdCvs_layout_witness :
  words_ok IV /\ 0 <= 1 <= 4
  /\ Simd.SIMD_CV_BASE + 32 <= Uint32Array.length (Uint32Array.make 300)
  /\ 0 <= 5 < 8 /\ 0 <= 0 < 4
  /\ (List.length (Simd.setupSimdCvs IV (Uint32Array.make 300) 1)
      = List.length (Uint32Array.make 300)
      /\ Uint32Array.get (Simd.setupSimdCvs IV (Uint32Array.make 300) 1)
           (Simd.SIMD_CV_BASE + 5 * 4 + 0)
         = (if 0 <? 1 then Uint32Array.get IV (0 * 8 + 5) else 0)
      /\ (forall j, j < Simd.SIMD_CV_BASE \/ Simd.SIMD_CV_BASE + 32 <= j ->
                    Uint32Array.get (Simd.setupSimdCvs IV (Uint32Array.make 300) 1) j
                    = Uint32Array.get (Uint32Array.make 300) j)).
Proof.
  assert (Hiv : words_ok IV) by (apply words_ok_Forall; repeat constructor; lia).
  assert (Hmem : Simd.SIMD_CV_BASE + 32 <= Uint32Array.length (Uint32Array.make 300))
    by (vm_compute; discriminate).
  split; [exact Hiv|]. split; [lia|]. split; [exact Hmem|]. split; [lia|]. split; [lia|].
  apply setupSimdCvs_layout; [exact Hiv|lia|exact Hmem|lia|lia].
Defined.

Lemma setupSimdParams_writes (mem32 counters blockLens flagsArr : Uint32Array.t) (count : Z) :
  0 <= count <= 4 ->
  Simd.setupSimdParams mem32 counters blockLens flagsArr count
  = for_from 4 0 (fun i m => apply_writes (param_writes counters blockLens flagsArr count i) m)
      mem32.
Proof.
  intros Hc.
  assert (Hcases : count = 0 \/ count = 1 \/ count = 2 \/ count = 3 \/ count = 4) by lia.
  unfold Simd.setupSimdParams.
  destruct Hcases as [E|[E|[E|[E|E]]]]; subst count;
    cbv zeta; unroll;
    unfold param_writes, apply_writes; cbn [fold_left fst snd];
    closed_tests; same_stores.
Qed.

(** X13: [setupSimdParams], for a count from 0 to 4, writes for the lanes
    below [count] the counter, the block length and the flags at the lane's
    position of their regions, 0 for the other lanes, and 0 as the high
    word of every counter; it writes nothing outside the 16 words of the
    four regions. *)
Theorem setupSimdParams_layout (mem32 counters blockLens flagsArr : Uint32Array.t)
    (count i : Z)
    (Hcounters : words_ok counters) (HblockLens : words_ok blockLens)
    (Hflags : words_ok flagsArr) (Hcount : 0 <= count <= 4)
    (Hmem : Simd.SIMD_FLAGS_BASE + 4 <= Uint32Array.length mem32)
    (Hi : 0 <= i < 4) :
  let mem32' := Simd.setupSimdParams mem32 counters blockLens flagsArr count in
  List.length mem32' = List.length mem32
  /\ Uint32Array.get mem32' (Simd.SIMD_COUNTER_LOW_BASE + i)
     = (if i <? count then Uint32Array.get counters i else 0)
  /\ Uint32Array.get mem32' (Simd.SIMD_COUNTER_HIGH_BASE + i) = 0
  /\ Uint32Array.get mem32' (Simd.SIMD_BLOCK_LEN_BASE + i)
     = (if i <? count then Uint32Array.get blockLens i else 0)
  /\ Uint32Array.get mem32' (Simd.SIMD_FLAGS_BASE + i)
     = (if i <? count then Uint32Array.get flagsArr i else 0)
  /\ (forall j, j < Simd.SIMD_COUNTER_LOW_BASE \/ Simd.SIMD_FLAGS_BASE + 4 <= j ->
                Uint32Array.get mem32' j = Uint32Array.get mem32 j).
Proof.
  cbv zeta. rewrite setupSimdParams_writes by exact Hcount.
  assert (Hb1 : Simd.SIMD_COUNTER_LOW_BASE = 192) by reflexivity.
  assert (Hb2 : Simd.SIMD_COUNTER_HIGH_BASE = 196) by reflexivity.
  assert (Hb3 : Simd.SIMD_BLOCK_LEN_BASE = 200) by reflexivity.
  assert (Hb4 : Simd.SIMD_FLAGS_BASE = 204) by reflexivity.
  assert (Hv : forall a, words_ok a ->
            JS.ToUint32 (if i <? count then Uint32Array.get a i else 0)
            = (if i <? count then Uint32Array.get a i else 0)).
  { intros a Ha. destruct (i <? count); [apply words_ok_get; exact Ha|reflexivity]. }
  split; [apply loop_writes_length|].
  split; [|split; [|split; [|split]]].
  - rewrite <- (Hv counters Hcounters).
    apply (loop_writes_get (param_writes counters blockLens flagsArr count) 4 _ _ i);
      [lia| | |lia]; unfold param_writes; [in_writes|unique_write i].
  - change 0 with (JS.ToUint32 0) at 2.
    apply (loop_writes_get (param_writes counters blockLens flagsArr count) 4 _ _ i);
      [lia| | |lia]; unfold param_writes; [in_writes|unique_write i].
  - rewrite <- (Hv blockLens HblockLens).
    apply (loop_writes_get (param_writes counters blockLens flagsArr count) 4 _ _ i);
      [lia| | |lia]; unfold param_writes; [in_writes|unique_write i].
  - rewrite <- (Hv flagsArr Hflags).
    apply (loop_writes_get (param_writes counters blockLens flagsArr count) 4 _ _ i);
      [lia| | |lia]; unfold param_writes; [in_writes|unique_write i].
  - intros j Hj. apply loop_writes_other. unfold param_writes. no_write.
Qed.

Lemma setupSimdParams_layout_witness :
  words_ok [7; 8; 9; 10] /\ words_ok [64; 64; 64; 64] /\ words_ok [1; 1; 1; 1]
  /\ 0 <= 3 <= 4
  /\ Simd.SIMD_FLAGS_BASE + 4 <= Uint32Array.length (Uint32Array.make 300)
  /\ 0 <= 3 < 4
  /\ (let mem32' := Simd.setupSimdParams (Uint32Array.make 300) [7; 8; 9; 10]
                      [64; 64; 64; 64] [1; 1; 1; 1] 3 in
      List.length mem32' = List.length (Uint32Array.make 300)
      /\ Uint32Array.get mem32' (Simd.SIMD_COUNTER_LOW_BASE + 3)
         = (if 3 <? 3 then Uint32Array.get [7; 8; 9; 10] 3 else 0)
      /\ Uint32Array.get mem32' (Simd.SIMD_COUNTER_HIGH_BASE + 3) = 0
      /\ Uint32Array.get mem32' (Simd.SIMD_BLOCK_LEN_BASE + 3)
         = (if 3 <? 3 then Uint32Array.get [64; 64; 64; 64] 3 else 0)
      /\ Uint32Array.get mem32' (Simd.SIMD_FLAGS_BASE + 3)
         = (if 3 <? 3 then Uint32Array.get [1; 1; 1; 1] 3 else 0)
      /\ (forall j, j < Simd.SIMD_COUNTER_LOW_BASE \/ Simd.SIMD_FLAGS_BASE + 4 <= j ->
                    Uint32Array.get mem32' j = Uint32Array.get (Uint32Array.make 300) j)).
Proof.
  assert (H1 : words_ok [7; 8; 9; 10]) by (apply words_ok_Forall; repeat constructor; lia).
  assert (H2 : words_ok [64; 64; 64; 64]) by (apply words_ok_Forall; repeat constructor; lia).
  assert (H3 : words_ok [1; 1; 1; 1]) by (apply words_ok_Forall; repeat constructor; lia).
  assert (Hmem : Simd.SIMD_FLAGS_BASE + 4 <= Uint32Array.length (Uint32Array.make 300))
    by (vm_compute; discriminate).
  split; [exact H1|]. split; [exact H2|]. split; [exact H3|]. split; [lia|].
  split; [exact Hmem|]. split; [lia|].
  apply setupSimdParams_layout; [exact H1|exact H2|exact H3|lia|exact Hmem|lia].
Defined.

Lemma readSimdOutputCvs_writes (mem32 outputCvs : Uint32Array.t) (count : Z) :
  0 <= count <= 4 ->
  Simd.readSimdOutputCvs mem32 outputCvs count
  = for_from 8 0 (fun w m => apply_writes (out_writes mem32 count w) m) outputCvs.
Proof.
  intros Hc.
  assert (Hcases : count = 0 \/ count = 1 \/ count = 2 \/ count = 3 \/ count = 4) by lia.
  unfold Simd.readSimdOutputCvs.
  destruct Hcases as [E|[E|[E|[E|E]]]]; subst count;
    match goal with
    | |- context [?a =? 4] =>
        let r := eval vm_compute in (a =? 4) in change (a =? 4) with r
    end; cbv iota;
    unfold for_loop at 1; change (Z.to_nat 8) with 8%nat;
    apply for_from_ext; intros w m;
    unfold out_writes, apply_writes;
    closed_tests; cbn [app fold_left fst snd]; cbv zeta; unroll; same_stores.
Qed.

(** X14: [readSimdOutputCvs], for a count from 0 to 4, reads word [w] of
    the chaining value of lane [c] from position [4 w + c] of the output
    region of the memory into word [8 c + w] of [outputCvs], for the lanes
    below [count]; the words of the other lanes, and everything after the
    32 words, stay as they were. *)
Theorem readSimdOutputCvs_layout (mem32 outputCvs : Uint32Array.t) (count w c : Z)
    (Hmem : words_ok mem32) (Hcount : 0 <= count <= 4)
    (Hout : 32 <= Uint32Array.length outputCvs)
    (Hw : 0 <= w < 8) (Hc : 0 <= c < 4) :
  let outputCvs' := Simd.readSimdOutputCvs mem32 outputCvs count in
  List.length outputCvs' = List.length outputCvs
  /\ Uint32Array.get outputCvs' (c * 8 + w)
     = (if c <? count then Uint32Array.get mem32 (Simd.SIMD_OUT_BASE + w * 4 + c)
        else Uint32Array.get outputCvs (c * 8 + w))
  /\ (forall j, 32 <= j -> Uint32Array.get outputCvs' j = Uint32Array.get outputCvs j).
Proof.
  cbv zeta. rewrite readSimdOutputCvs_writes by exact Hcount.
  split; [apply loop_writes_length|]. split.
  - assert (Hcc : count = 0 \/ count = 1 \/ count = 2 \/ count = 3 \/ count = 4) by lia.
    assert (Hcases : c = 0 \/ c = 1 \/ c = 2 \/ c = 3) by lia.
    destruct Hcc as [E|[E|[E|[E|E]]]]; subst count;
      destruct Hcases as [E|[E|[E|E]]]; subst c;
      closed_tests;
      first [ (etransitivity; [|apply (words_ok_get mem32 _ Hmem)]);
              apply (loop_writes_get (out_writes mem32 _) 8 _ _ w); [lia| | |lia];
              unfold out_writes; closed_tests; cbn [app];
              [in_writes|unique_write w]
            | apply loop_writes_other; unfold out_writes; closed_tests; cbn [app];
              no_write ].
  - intros j Hj. apply loop_writes_other.
    assert (Hcc : count = 0 \/ count = 1 \/ count = 2 \/ count = 3 \/ count = 4) by lia.
    destruct Hcc as [E|[E|[E|[E|E]]]]; subst count;
      unfold out_writes; closed_tests; cbn [app]; no_write.
Qed.

Lemma readSimdOutputCvs_layout_witness :
  words_ok (repeat 5 300) /\ 0 <= 2 <= 4
  /\ 32 <= Uint32Array.length (Uint32Array.make 32)
  /\ 0 <= 7 < 8 /\ 0 <= 1 < 4
  /\ (let outputCvs' := Simd.readSimdOutputCvs (repeat 5 300) (Uint32Array.make 32) 2 in
      List.length outputCvs' = List.length (Uint32Array.make 32)
      /\ Uint32Array.get outputCvs' (1 * 8 + 7)
         = (if 1 <? 2 then Uint32Array.get (repeat 5 300) (Simd.SIMD_OUT_BASE + 7 * 4 + 1)
            else Uint32Array.get (Uint32Array.make 32) (1 * 8 + 7))
      /\ (forall j, 32 <= j ->
                    Uint32Array.get outputCvs' j = Uint32Array.get (Uint32Array.make 32) j)).
Proof.
  assert (H1 : words_ok (repeat 5 300)).
  { apply words_ok_Forall. apply Forall_forall. intros x Hx.
    apply repeat_spec in Hx. subst x. lia. }
  assert (H2 : 32 <= Uint32Array.length (Uint32Array.make 32)) by (vm_compute; discriminate).
  split; [exact H1|]. split; [lia|]. split; [exact H2|]. split; [lia|]. split; [lia|].
  apply readSimdOutputCvs_layout; [exact H1|lia|exact H2|lia|lia].
Defined.

(** ** transposeBlocksToSimd *)

Lemma word_of_bytes_range (b0 b1 b2 b3 : Z) :
  0 <= b0 < 256 -> 0 <= b1 < 256 -> 0 <= b2 < 256 -> 0 <= b3 < 256 ->
  0 <= Uint32Array.word_of_bytes b0 b1 b2 b3 < 2 ^ 32.
Proof. intros H0 H1 H2 H3. unfold Uint32Array.word_of_bytes. lia. Qed.

Lemma padded_byte_range (input : Uint8Array.t) (offset len k : Z) :
  bytes_ok (Uint8Array.buffer input) -> 0 <= padded_byte input offset len k < 256.
Proof.
  intros Hok. unfold padded_byte. destruct (k <? len); [|lia].
  apply get8_range. exact Hok.
Qed.

Lemma padded_word_range (input : Uint8Array.t) (offset len i : Z) :
  bytes_ok (Uint8Array.buffer input) -> 0 <= padded_word input offset len i < 2 ^ 32.
Proof.
  intros Hok. unfold padded_word.
  apply word_of_bytes_range; apply padded_byte_range; exact Hok.
Qed.

(** The words of a block inside its length, and from its length on. *)
Lemma padded_word_full (input : Uint8Array.t) (offset len w : Z) :
  4 * w + 4 <= len ->
  padded_word input offset len w
  = Uint32Array.word_of_bytes (Uint8Array.get input (offset + w * 4))
      (Uint8Array.get input (offset + w * 4 + 1)) (Uint8Array.get input (offset + w * 4 + 2))
      (Uint8Array.get input (offset + w * 4 + 3)).
Proof.
  intros Hw. unfold padded_word, padded_byte.
  repeat match goal with
         | |- context [?a <? len] =>
             replace (a <? len) with true by (symmetry; apply Z.ltb_lt; lia)
         end.
  replace (offset + 4 * w) with (offset + w * 4) by lia.
  replace (offset + (4 * w + 1)) with (offset + w * 4 + 1) by lia.
  replace (offset + (4 * w + 2)) with (offset + w * 4 + 2) by lia.
  replace (offset + (4 * w + 3)) with (offset + w * 4 + 3) by lia.
  reflexivity.
Qed.

Lemma padded_word_zero (input : Uint8Array.t) (offset len w : Z) :
  len <= 4 * w -> padded_word input offset len w = 0.
Proof.
  intros Hw. unfold padded_word, padded_byte.
  repeat match goal with
         | |- context [?a <? len] =>
             replace (a <? len) with false by (symmetry; apply Z.ltb_ge; lia)
         end.
  reflexivity.
Qed.

Lemma word_at_js (input : Uint8Array.t) (o : Z) :
  bytes_ok (Uint8Array.buffer input) ->
  JS.ToUint32 (Simd.word_at input o)
  = Uint32Array.word_of_bytes (Uint8Array.get input o) (Uint8Array.get input (o + 1))
      (Uint8Array.get input (o + 2)) (Uint8Array.get input (o + 3)).
Proof. intros Hok. unfold Simd.word_at. apply read_word_js. exact Hok. Qed.

(** The word that the loop over the last one to three bytes of a block
    builds. *)
Lemma partial_word_js (input : Uint8Array.t) (off len w : Z) :
  bytes_ok (Uint8Array.buffer input) ->
  4 * w < len < 4 * w + 4 ->
  JS.ToUint32
    (for_loop (len - w * 4)
       (fun i word => JS.bor word (JS.shl (Uint8Array.get input (off + w * 4 + i)) (i * 8))) 0)
  = padded_word input off len w.
Proof.
  intros Hok Hlen.
  pose proof (get8_range input (off + w * 4 + 0) Hok) as B0.
  pose proof (get8_range input (off + w * 4 + (0 + 1)) Hok) as B1.
  pose proof (get8_range input (off + w * 4 + (0 + 1 + 1)) Hok) as B2.
  assert (E0 : JS.bor 0 (JS.shl (Uint8Array.get input (off + w * 4 + 0)) (0 * 8))
               = Uint8Array.get input (off + w * 4 + 0)).
  { change (0 * 8) with 0. rewrite shl_small by lia.
    unfold JS.bor. rewrite !ToInt32_small by lia.
    change (2 ^ 0) with 1. rewrite Z.mul_1_r. apply Z.lor_0_l. }
  destruct (le_partial_js _ _ _ B0 B1 B2) as [E2 E3].
  unfold padded_word, padded_byte, Uint32Array.word_of_bytes.
  replace (off + 4 * w) with (off + w * 4 + 0) by lia.
  replace (off + (4 * w + 1)) with (off + w * 4 + (0 + 1)) by lia.
  replace (off + (4 * w + 2)) with (off + w * 4 + (0 + 1 + 1)) by lia.
  replace (4 * w <? len) with true by (symmetry; apply Z.ltb_lt; lia).
  replace (4 * w + 3 <? len) with false by (symmetry; apply Z.ltb_ge; lia).
  assert (Hcases : len - w * 4 = 1 \/ len - w * 4 = 2 \/ len - w * 4 = 3) by lia.
  destruct Hcases as [Hc|[Hc|Hc]]; rewrite Hc; unfold for_loop.
  - change (Z.to_nat 1) with 1%nat. cbn [for_from]. rewrite E0.
    replace (4 * w + 1 <? len) with false by (symmetry; apply Z.ltb_ge; lia).
    replace (4 * w + 2 <? len) with false by (symmetry; apply Z.ltb_ge; lia).
    rewrite ToUint32_small by lia. lia.
  - change (Z.to_nat 2) with 2%nat. cbn [for_from]. rewrite E0.
    change ((0 + 1) * 8) with 8. rewrite E2.
    replace (4 * w + 1 <? len) with true by (symmetry; apply Z.ltb_lt; lia).
    replace (4 * w + 2 <? len) with false by (symmetry; apply Z.ltb_ge; lia).
    rewrite ToUint32_small by lia. lia.
  - change (Z.to_nat 3) with 3%nat. cbn [for_from]. rewrite E0.
    change ((0 + 1) * 8) with 8. change ((0 + 1 + 1) * 8) with 16. rewrite E3.
    replace (4 * w + 1 <? len) with true by (symmetry; apply Z.ltb_lt; lia).
    replace (4 * w + 2 <? len) with true by (symmetry; apply Z.ltb_lt; lia).
    rewrite ToUint32_small by lia. lia.
Qed.

(** A loop that stores [val w] as word [w] of lane [b]. *)
Lemma lane_loop (b : Z) (val v : Z -> Z) (m : Uint32Array.t) :
  0 <= b < 4 -> 64 <= Uint32Array.length m ->
  (forall w, 0 <= w < 16 -> JS.ToUint32 (val w) = v w) ->
  lane_spec b v m (for_loop 16 (fun w m => Uint32Array.store m (w * 4 + b) (val w)) m).
Proof.
  intros Hb Hm Hv. unfold lane_spec, for_loop. change (Z.to_nat 16) with 16%nat.
  split; [apply (length32_loop (fun w => w * 4 + b))|]. split.
  - intros w Hw. rewrite <- Hv by exact Hw.
    apply (get32_loop_same (fun w => w * 4 + b)); [lia|lia|].
    intros i Hi Hne. lia.
  - intros j Hj. apply (get32_loop_other (fun w => w * 4 + b)).
    intros i Hi. intros E. apply (Hj i); lia.
Qed.

(** One block of the standard path. *)
Lemma transpose_block_lane (input : Uint8Array.t) (offsets blockLens : Uint32Array.t)
    (inputWords : option Uint32Array.t) (b : Z) (m : Uint32Array.t) :
  bytes_ok (Uint8Array.buffer input) -> word_view input inputWords ->
  words_ok offsets ->
  0 <= b < 4 -> 64 <= Uint32Array.length m ->
  0 <= Uint32Array.get blockLens b <= 64 ->
  (Uint32Array.get blockLens b = 64 ->
   Uint32Array.get offsets b + 64 <= Uint8Array.length input) ->
  lane_spec b (padded_word input (Uint32Array.get offsets b) (Uint32Array.get blockLens b))
    m (Simd.transpose_block input offsets blockLens inputWords b m).
Proof.
  intros Hok Hview Hoffs Hb Hm Hlen Hfit. unfold Simd.transpose_block. cbv zeta.
  set (len := Uint32Array.get blockLens b) in *.
  set (off := Uint32Array.get offsets b) in *.
  assert (Hoff : 0 <= off < 2 ^ 32) by apply Hoffs.
  assert (Hbytes : forall w, 0 <= w < 16 -> 4 * w + 4 <= len ->
            JS.ToUint32 (Simd.word_at input (off + w * 4)) = padded_word input off len w).
  { intros w Hw Hin. rewrite word_at_js by exact Hok.
    symmetry. apply padded_word_full. exact Hin. }
  destruct (len =? 64) eqn:H64.
  - apply Z.eqb_eq in H64.
    assert (Hall : forall w, 0 <= w < 16 ->
              JS.ToUint32 (Simd.word_at input (off + w * 4)) = padded_word input off len w)
      by (intros w Hw; apply Hbytes; lia).
    destruct inputWords as [words|]; [|apply lane_loop; assumption].
    destruct (Z.rem off 4 =? 0) eqn:Hal; [|apply lane_loop; assumption].
    apply Z.eqb_eq in Hal. rewrite Z.rem_mod_nonneg in Hal by lia.
    pose proof (Z.div_mod off 4 ltac:(lia)) as Hdm. rewrite Hal in Hdm.
    apply lane_loop; [exact Hb|exact Hm|].
    intros w Hw. rewrite shru_small by lia. change (2 ^ 2) with 4.
    cbn [word_view] in Hview.
    rewrite Hview by (specialize (Hfit H64); lia).
    rewrite ToUint32_small by (apply word_of_bytes_range; apply get8_range; exact Hok).
    rewrite padded_word_full by lia.
    replace (4 * (off / 4 + w)) with (off + w * 4) by lia.
    reflexivity.
  - apply Z.eqb_neq in H64.
    destruct (len =? 0) eqn:H0.
    + apply Z.eqb_eq in H0. apply lane_loop; [exact Hb|exact Hm|].
      intros w Hw. rewrite padded_word_zero by lia. reflexivity.
    + apply Z.eqb_neq in H0.
      set (val := fun w =>
                    if w * 4 >=? len then 0
                    else if w * 4 + 4 <=? len then Simd.word_at input (off + w * 4)
                         else for_loop (len - w * 4)
                                (fun i word =>
                                   JS.bor word
                                     (JS.shl (Uint8Array.get input (off + w * 4 + i)) (i * 8)))
                                0).
      unfold for_loop at 1.
      rewrite (for_from_ext _ (fun w m => Uint32Array.store m (w * 4 + b) (val w)))
        by (intros w mem32; unfold val; destruct (w * 4 >=? len); [reflexivity|];
            destruct (w * 4 + 4 <=? len); reflexivity).
      pose proof (lane_loop b val (padded_word input off len) m Hb Hm) as Hlane.
      unfold for_loop in Hlane. apply Hlane. clear Hlane.
      unfold val.
      intros w Hw.
      destruct (w * 4 >=? len) eqn:Hge.
      * rewrite Z.geb_leb in Hge. apply Z.leb_le in Hge.
        rewrite padded_word_zero by lia. reflexivity.
      * rewrite Z.geb_leb in Hge. apply Z.leb_gt in Hge.
        destruct (w * 4 + 4 <=? len) eqn:Hfull.
        -- apply Z.leb_le in Hfull. apply Hbytes; lia.
        -- apply Z.leb_gt in Hfull. apply partial_word_js; [exact Hok|lia].
Qed.

Lemma zero_lane (b : Z) (m : Uint32Array.t) :
  0 <= b < 4 -> 64 <= Uint32Array.length m ->
  lane_spec b (fun _ => 0) m
    (for_loop 16 (fun w m => Uint32Array.store m (w * 4 + b) 0) m).
Proof. intros Hb Hm. apply lane_loop; [exact Hb|exact Hm|reflexivity]. Qed.

(** Four steps, one for each lane, in any memory of 64 words or more. *)
Lemma lanes_compose (v0 v1 v2 v3 : Z -> Z) (m0 m1 m2 m3 m4 : Uint32Array.t) :
  lane_spec 0 v0 m0 m1 -> lane_spec 1 v1 m1 m2 ->
  lane_spec 2 v2 m2 m3 -> lane_spec 3 v3 m3 m4 ->
  List.length m4 = List.length m0
  /\ (forall w, 0 <= w < 16 ->
        Uint32Array.get m4 (w * 4 + 0) = v0 w /\ Uint32Array.get m4 (w * 4 + 1) = v1 w
        /\ Uint32Array.get m4 (w * 4 + 2) = v2 w /\ Uint32Array.get m4 (w * 4 + 3) = v3 w)
  /\ (forall j, 64 <= j -> Uint32Array.get m4 j = Uint32Array.get m0 j).
Proof.
  intros [L0 [G0 F0]] [L1 [G1 F1]] [L2 [G2 F2]] [L3 [G3 F3]].
  split; [congruence|]. split.
  - intros w Hw. repeat split.
    + rewrite F3, F2, F1 by (intros w' Hw'; lia). apply G0. exact Hw.
    + rewrite F3, F2 by (intros w' Hw'; lia). apply G1. exact Hw.
    + rewrite F3 by (intros w' Hw'; lia). apply G2. exact Hw.
    + apply G3. exact Hw.
  - intros j Hj. rewrite F3, F2, F1, F0 by (intros w' Hw'; lia). reflexivity.
Qed.

(** The two loops over the lanes, the blocks and then the unused slots,
    make one step in each of the four lanes. *)
Lemma lanes_unroll {S : Type} (block zero : Z -> S -> S) (blockCount : Z) (m : S) :
  0 <= blockCount <= 4 ->
  for_from (Z.to_nat (4 - blockCount)) blockCount zero (for_loop blockCount block m)
  = (fun b m => if b <? blockCount then block b m else zero b m) 3
      ((fun b m => if b <? blockCount then block b m else zero b m) 2
         ((fun b m => if b <? blockCount then block b m else zero b m) 1
            ((fun b m => if b <? blockCount then block b m else zero b m) 0 m))).
Proof.
  intros Hcount.
  assert (Hcases : blockCount = 0 \/ blockCount = 1 \/ blockCount = 2
                   \/ blockCount = 3 \/ blockCount = 4) by lia.
  destruct Hcases as [E|[E|[E|[E|E]]]]; rewrite E; reflexivity.
Qed.

(** The view that [hashSimd] makes over the input shows it as words. *)
Lemma view_word_view (input : Uint8Array.t) (n : Z) (ws : Uint32Array.t) :
  0 <= Uint8Array.byteOffset input ->
  Uint8Array.length input < 4 * n + 4 ->
  Uint32Array.view (Uint8Array.buffer input) (Uint8Array.byteOffset input) n = Returns ws ->
  word_view input (Some ws).
Proof.
  intros Hbo Hn Hview. unfold Uint32Array.view in Hview.
  destruct (negb (Uint8Array.byteOffset input mod 4 =? 0)); [discriminate|].
  destruct ((Uint8Array.byteOffset input <? 0) || (n <? 0)
            || (Z.of_nat (List.length (Uint8Array.buffer input))
                <? Uint8Array.byteOffset input + 4 * n)); [discriminate|].
  assert (Ews : ws = Uint32Array.words_of_bytes (Z.to_nat n)
                       (skipn (Z.to_nat (Uint8Array.byteOffset input))
                          (Uint8Array.buffer input))) by congruence.
  cbn [word_view]. intros k Hk Hfit.
  rewrite Ews, words_of_bytes_map. unfold Uint32Array.get.
  replace (0 <=? k) with true by (symmetry; apply Z.leb_le; lia).
  set (f := fun i : nat => Uint32Array.word_of_bytes _ _ _ _).
  rewrite (nth_indep _ 0 (f 0%nat)) by (rewrite length_map, length_seq; lia).
  rewrite map_nth, seq_nth by lia. unfold f. cbn [Nat.add].
  rewrite !nth_skipn. unfold Uint8Array.get.
  repeat match goal with
         | |- context [(0 <=? ?a) && (?a <? Uint8Array.length input)] =>
             replace ((0 <=? a) && (a <? Uint8Array.length input)) with true
               by (symmetry; apply andb_true_iff; split;
                   [apply Z.leb_le|apply Z.ltb_lt]; lia)
         end.
  f_equal; f_equal; lia.
Qed.

(** X15: [transposeBlocksToSimd] lays the blocks out word by word: word
    [w] of block [b] is at [mem32[w * 4 + b]], read little-endian from the
    block's bytes and padded with zeros after its length; the lanes from
    [blockCount] on are zero; the aligned paths that read from
    [inputWords] and the byte paths store the same words; nothing is
    written from word 64 on. *)
Theorem transposeBlocksToSimd_layout (input : Uint8Array.t)
    (offsets blockLens mem32 : Uint32Array.t) (blockCount : Z)
    (inputWords : option Uint32Array.t) (w b : Z)
    (Hok : bytes_ok (Uint8Array.buffer input))
    (Hview : word_view input inputWords)
    (Hoffs : words_ok offsets)
    (Hcount : 0 <= blockCount <= 4)
    (Hlens : forall b, 0 <= b < blockCount ->
               0 <= Uint32Array.get blockLens b <= 64
               /\ (Uint32Array.get blockLens b = 64 ->
                   Uint32Array.get offsets b + 64 <= Uint8Array.length input))
    (Hmem : 64 <= Uint32Array.length mem32)
    (Hw : 0 <= w < 16) (Hb : 0 <= b < 4) :
  List.length (Simd.transposeBlocksToSimd input offsets blockLens mem32 blockCount inputWords)
  = List.length mem32
  /\ Uint32Array.get
       (Simd.transposeBlocksToSimd input offsets blockLens mem32 blockCount inputWords)
       (w * 4 + b)
     = (if b <? blockCount
        then padded_word input (Uint32Array.get offsets b) (Uint32Array.get blockLens b) w
        else 0)
  /\ (forall j, 64 <= j ->
        Uint32Array.get
          (Simd.transposeBlocksToSimd input offsets blockLens mem32 blockCount inputWords) j
        = Uint32Array.get mem32 j).
Proof.
  set (v := fun b w =>
              if b <? blockCount
              then padded_word input (Uint32Array.get offsets b) (Uint32Array.get blockLens b) w
              else 0).
  assert (Hgoal : forall m',
            (List.length m' = List.length mem32
             /\ (forall w, 0 <= w < 16 ->
                   Uint32Array.get m' (w * 4 + 0) = v 0 w
                   /\ Uint32Array.get m' (w * 4 + 1) = v 1 w
                   /\ Uint32Array.get m' (w * 4 + 2) = v 2 w
                   /\ Uint32Array.get m' (w * 4 + 3) = v 3 w)
             /\ (forall j, 64 <= j -> Uint32Array.get m' j = Uint32Array.get mem32 j)) ->
            List.length m' = List.length mem32
            /\ Uint32Array.get m' (w * 4 + b) = v b w
            /\ (forall j, 64 <= j -> Uint32Array.get m' j = Uint32Array.get mem32 j)).
  { intros m' [L [G F]]. split; [exact L|]. split; [|exact F].
    destruct (G w Hw) as [G0 [G1 [G2 G3]]].
    assert (Hcases : b = 0 \/ b = 1 \/ b = 2 \/ b = 3) by lia.
    destruct Hcases as [E|[E|[E|E]]]; rewrite E; assumption. }
  fold (v b w). apply Hgoal. clear Hgoal w b Hw Hb.
  (* one lane of the standard path *)
  set (step := fun b m =>
                 if b <? blockCount
                 then Simd.transpose_block input offsets blockLens inputWords b m
                 else for_loop 16 (fun w m => Uint32Array.store m (w * 4 + b) 0) m).
  assert (Hstep : forall b m, 0 <= b < 4 -> 64 <= Uint32Array.length m ->
            lane_spec b (v b) m (step b m)).
  { intros b m Hb Hm. unfold step, v. destruct (b <? blockCount) eqn:Hlt.
    - apply Z.ltb_lt in Hlt. destruct (Hlens b ltac:(lia)) as [Hl Hfit].
      apply transpose_block_lane; assumption.
    - apply zero_lane; assumption. }
  assert (Hstandard :
            for_from (Z.to_nat (4 - blockCount)) blockCount
              (fun b m => for_loop 16 (fun w m => Uint32Array.store m (w * 4 + b) 0) m)
              (for_loop blockCount (Simd.transpose_block input offsets blockLens inputWords)
                 mem32)
            = step 3 (step 2 (step 1 (step 0 mem32)))).
  { unfold step.
    exact (lanes_unroll (Simd.transpose_block input offsets blockLens inputWords)
             (fun b m => for_loop 16 (fun w m => Uint32Array.store m (w * 4 + b) 0) m)
             blockCount mem32 Hcount). }
  assert (Hlanes : let m' := step 3 (step 2 (step 1 (step 0 mem32))) in
            List.length m' = List.length mem32
            /\ (forall w, 0 <= w < 16 ->
                  Uint32Array.get m' (w * 4 + 0) = v 0 w
                  /\ Uint32Array.get m' (w * 4 + 1) = v 1 w
                  /\ Uint32Array.get m' (w * 4 + 2) = v 2 w
                  /\ Uint32Array.get m' (w * 4 + 3) = v 3 w)
            /\ (forall j, 64 <= j -> Uint32Array.get m' j = Uint32Array.get mem32 j)).
  { pose proof (Hstep 0 mem32 ltac:(lia) Hmem) as S0.
    assert (Hm1 : 64 <= Uint32Array.length (step 0 mem32))
      by (unfold Uint32Array.length in *; rewrite (proj1 S0); exact Hmem).
    pose proof (Hstep 1 _ ltac:(lia) Hm1) as S1.
    assert (Hm2 : 64 <= Uint32Array.length (step 1 (step 0 mem32)))
      by (unfold Uint32Array.length in *; rewrite (proj1 S1); exact Hm1).
    pose proof (Hstep 2 _ ltac:(lia) Hm2) as S2.
    assert (Hm3 : 64 <= Uint32Array.length (step 2 (step 1 (step 0 mem32))))
      by (unfold Uint32Array.length in *; rewrite (proj1 S2); exact Hm2).
    pose proof (Hstep 3 _ ltac:(lia) Hm3) as S3.
    exact (lanes_compose _ _ _ _ _ _ _ _ _ S0 S1 S2 S3). }
  unfold Simd.transposeBlocksToSimd. cbv zeta.
  destruct inputWords as [words|]; [|rewrite Hstandard; exact Hlanes].
  match goal with
  | |- context [if ?c then _ else _] => destruct c eqn:Hfast
  end; [|rewrite Hstandard; exact Hlanes].
  (* the path of four full aligned blocks *)
  clear Hstandard Hlanes Hstep step.
  rewrite !andb_true_iff in Hfast.
  destruct Hfast as [[[[[Hc L0] L1] L2] L3] [[[A0 A1] A2] A3]].
  apply Z.eqb_eq in Hc, L0, L1, L2, L3, A0, A1, A2, A3.
  assert (Hword : forall b w, 0 <= b < 4 -> 0 <= w < 16 ->
            Uint32Array.get blockLens b = 64 ->
            Z.rem (Uint32Array.get offsets b) 4 = 0 ->
            JS.ToUint32 (Uint32Array.get words (JS.shru (Uint32Array.get offsets b) 2 + w))
            = v b w).
  { intros b w Hb Hw Hl Ha. unfold v.
    replace (b <? blockCount) with true by (symmetry; apply Z.ltb_lt; lia).
    pose proof (Hoffs b) as Hoff.
    destruct (Hlens b ltac:(lia)) as [_ Hfit]. specialize (Hfit Hl).
    rewrite Z.rem_mod_nonneg in Ha by lia.
    pose proof (Z.div_mod (Uint32Array.get offsets b) 4 ltac:(lia)) as Hdm.
    rewrite Ha in Hdm.
    rewrite shru_small by lia. change (2 ^ 2) with 4.
    cbn [word_view] in Hview. rewrite Hview by lia.
    rewrite ToUint32_small by (apply word_of_bytes_range; apply get8_range; exact Hok).
    rewrite padded_word_full by lia.
    replace (4 * (Uint32Array.get offsets b / 4 + w))
      with (Uint32Array.get offsets b + w * 4) by lia.
    reflexivity. }
  set (writes := fun w =>
         [(w * 4, Uint32Array.get words (JS.shru (Uint32Array.get offsets 0) 2 + w));
          (w * 4 + 1, Uint32Array.get words (JS.shru (Uint32Array.get offsets 1) 2 + w));
          (w * 4 + 2, Uint32Array.get words (JS.shru (Uint32Array.get offsets 2) 2 + w));
          (w * 4 + 3, Uint32Array.get words (JS.shru (Uint32Array.get offsets 3) 2 + w))]).
  unfold for_loop.
  change (for_from (Z.to_nat 16) 0 _ mem32)
    with (for_from (Z.to_nat 16) 0 (fun w m => apply_writes (writes w) m) mem32).
  change (Z.to_nat 16) with 16%nat.
  split; [apply loop_writes_length|]. split.
  - intros w Hw. repeat split.
    + rewrite <- (Hword 0 w) by (lia || assumption).
      apply loop_writes_get with (w := w); [lia| | |lia].
      * unfold writes. in_writes.
      * unfold writes. unique_write w.
    + rewrite <- (Hword 1 w) by (lia || assumption).
      apply loop_writes_get with (w := w); [lia| | |lia].
      * unfold writes. in_writes.
      * unfold writes. unique_write w.
    + rewrite <- (Hword 2 w) by (lia || assumption).
      apply loop_writes_get with (w := w); [lia| | |lia].
      * unfold writes. in_writes.
      * unfold writes. unique_write w.
    + rewrite <- (Hword 3 w) by (lia || assumption).
      apply loop_writes_get with (w := w); [lia| | |lia].
      * unfold writes. in_writes.
      * unfold writes. unique_write w.
  - intros j Hj. apply loop_writes_other. unfold writes. no_write.
Qed.

Lemma transposeBlocksToSimd_layout_witness :
  bytes_ok (Uint8Array.buffer (Uint8Array.of_list [1; 2; 3; 4; 5; 6; 7; 8]))
  /\ word_view (Uint8Array.of_list [1; 2; 3; 4; 5; 6; 7; 8])
       (Some (Uint32Array.words_of_bytes 2 [1; 2; 3; 4; 5; 6; 7; 8]))
  /\ words_ok [0; 4; 0; 0]
  /\ 0 <= 2 <= 4
  /\ (forall b, 0 <= b < 2 ->
        0 <= Uint32Array.get [5; 3; 0; 0] b <= 64
        /\ (Uint32Array.get [5; 3; 0; 0] b = 64 ->
            Uint32Array.get [0; 4; 0; 0] b + 64
            <= Uint8Array.length (Uint8Array.of_list [1; 2; 3; 4; 5; 6; 7; 8])))
  /\ 64 <= Uint32Array.length (Uint32Array.make 64)
  /\ 0 <= 1 < 16 /\ 0 <= 0 < 4
  /\ (List.length
        (Simd.transposeBlocksToSimd (Uint8Array.of_list [1; 2; 3; 4; 5; 6; 7; 8])
           [0; 4; 0; 0] [5; 3; 0; 0] (Uint32Array.make 64) 2
           (Some (Uint32Array.words_of_bytes 2 [1; 2; 3; 4; 5; 6; 7; 8])))
      = List.length (Uint32Array.make 64)
      /\ Uint32Array.get
           (Simd.transposeBlocksToSimd (Uint8Array.of_list [1; 2; 3; 4; 5; 6; 7; 8])
              [0; 4; 0; 0] [5; 3; 0; 0] (Uint32Array.make 64) 2
              (Some (Uint32Array.words_of_bytes 2 [1; 2; 3; 4; 5; 6; 7; 8])))
           (1 * 4 + 0)
         = (if 0 <? 2
            then padded_word (Uint8Array.of_list [1; 2; 3; 4; 5; 6; 7; 8])
                   (Uint32Array.get [0; 4; 0; 0] 0) (Uint32Array.get [5; 3; 0; 0] 0) 1
            else 0)
      /\ (forall j, 64 <= j ->
            Uint32Array.get
              (Simd.transposeBlocksToSimd (Uint8Array.of_list [1; 2; 3; 4; 5; 6; 7; 8])
                 [0; 4; 0; 0] [5; 3; 0; 0] (Uint32Array.make 64) 2
                 (Some (Uint32Array.words_of_bytes 2 [1; 2; 3; 4; 5; 6; 7; 8]))) j
            = Uint32Array.get (Uint32Array.make 64) j)).
Proof.
  assert (Hok : bytes_ok (Uint8Array.buffer (Uint8Array.of_list [1; 2; 3; 4; 5; 6; 7; 8])))
    by (repeat constructor; lia).
  assert (Hview : word_view (Uint8Array.of_list [1; 2; 3; 4; 5; 6; 7; 8])
                    (Some (Uint32Array.words_of_bytes 2 [1; 2; 3; 4; 5; 6; 7; 8]))).
  { apply (view_word_view _ 2).
    - cbn. lia.
    - cbn. lia.
    - reflexivity. }
  assert (Hoffs : words_ok [0; 4; 0; 0]) by (apply words_ok_Forall; repeat constructor; lia).
  assert (Hlens : forall b, 0 <= b < 2 ->
            0 <= Uint32Array.get [5; 3; 0; 0] b <= 64
            /\ (Uint32Array.get [5; 3; 0; 0] b = 64 ->
                Uint32Array.get [0; 4; 0; 0] b + 64
                <= Uint8Array.length (Uint8Array.of_list [1; 2; 3; 4; 5; 6; 7; 8]))).
  { intros b Hb. assert (Hcases : b = 0 \/ b = 1) by lia.
    destruct Hcases as [E|E]; rewrite E;
      (split; [vm_compute; split; discriminate|intros H; vm_compute in H; discriminate H]). }
  assert (Hmem : 64 <= Uint32Array.length (Uint32Array.make 64))
    by (vm_compute; discriminate).
  split; [exact Hok|]. split; [exact Hview|]. split; [exact Hoffs|]. split; [lia|].
  split; [exact Hlens|]. split; [exact Hmem|]. split; [lia|]. split; [lia|].
  apply transposeBlocksToSimd_layout; [exact Hok|exact Hview|exact Hoffs|lia|exact Hlens
                                       |exact Hmem|lia|lia].
Defined.

(** ** Further properties of the byte writer, of [update], of [finalize]
    and of [newKeyed] *)

(** X17: [writeLittleEndianBytesPartial] writes exactly [n] bytes from
    [bo], the little-endian bytes of the words from [wo], for any [n] (whole
    words and the one to three bytes after them), and leaves the other
    bytes of [out] as they were. *)
Theorem writeLittleEndianBytesPartial_le_bytes (words : Uint32Array.t) (wo bo n : Z)
    (out : list Z)
    (Hok : words_ok words) (Hwo : 0 <= wo) (Hbo : 0 <= bo) (Hn : 0 <= n < 2 ^ 30)
    (Hfit : bo + n <= Z.of_nat (List.length out)) :
  List.length (writeLittleEndianBytesPartial words wo out bo n) = List.length out
  /\ (forall j, 0 <= j -> j < bo \/ bo + n <= j ->
        zget (writeLittleEndianBytesPartial words wo out bo n) j = zget out j)
  /\ (forall j, bo <= j < bo + n ->
        zget (writeLittleEndianBytesPartial words wo out bo n) j
        = zget (Uint32Array.bytes words) (4 * wo + (j - bo))).
Proof. exact (writeLittleEndianBytesPartial_bytes words wo bo n out Hok Hwo Hbo Hn Hfit). Qed.

Lemma writeLittleEndianBytesPartial_le_bytes_witness :
  words_ok [67305985; 134678021; 202050057]
  /\ 0 <= 1 /\ 0 <= 2 /\ 0 <= 6 < 2 ^ 30
  /\ 2 + 6 <= Z.of_nat (List.length (repeat 255 9))
  /\ (List.length (writeLittleEndianBytesPartial [67305985; 134678021; 202050057] 1
                     (repeat 255 9) 2 6)
      = List.length (repeat 255 9)
      /\ (forall j, 0 <= j -> j < 2 \/ 2 + 6 <= j ->
            zget (writeLittleEndianBytesPartial [67305985; 134678021; 202050057] 1
                    (repeat 255 9) 2 6) j
            = zget (repeat 255 9) j)
      /\ (forall j, 2 <= j < 2 + 6 ->
            zget (writeLittleEndianBytesPartial [67305985; 134678021; 202050057] 1
                    (repeat 255 9) 2 6) j
            = zget (Uint32Array.bytes [67305985; 134678021; 202050057]) (4 * 1 + (j - 2)))).
Proof.
  assert (Hok : words_ok [67305985; 134678021; 202050057])
    by (apply words_ok_Forall; repeat constructor; lia).
  assert (Hfit : 2 + 6 <= Z.of_nat (List.length (repeat 255 9)))
    by (vm_compute; discriminate).
  split; [exact Hok|]. split; [lia|]. split; [lia|]. split; [lia|]. split; [exact Hfit|].
  apply writeLittleEndianBytesPartial_le_bytes; [exact Hok|lia|lia|lia|exact Hfit].
Defined.

Section MoreProofs.
Context {e : Env}.

(** X18: [update] on a hasher in a state that [update] leaves (a new one to
    start with) returns, for every input that starts at the alignment of
    the block buffer on a little-endian host and for every input on a
    big-endian one, as long as the total stays within 2^32 chunks; it keeps
    the state invariant, adds the input's length to the bytes taken, and
    keeps key and mode. *)
Theorem update_never_throws_aligned (h : Hasher.t) (input : Uint8Array.t)
    (Hinv : hasher_inv h) (Hin : input_ok input)
    (Hal : aligned input 0 (ChunkState.blockLen (Hasher.chunkState h)))
    (Hcap : total h + Uint8Array.length input <= 1024 * 2 ^ 32) :
  exists h',
    Hasher.update h input = Returns h'
    /\ hasher_inv h'
    /\ total h' = total h + Uint8Array.length input
    /\ Hasher.keyWords h' = Hasher.keyWords h
    /\ Hasher.flags h' = Hasher.flags h.
Proof. exact (update_returns h input Hinv Hin Hal Hcap). Qed.

(** X19: for a hasher that calls of [update] produced from a new one and
    an output length from 0 to 64, [finalize] returns the first
    [outputLength] bytes of the stream that [finalizeXof] of the same
    hasher reads. *)
Theorem finalize_upto_64_is_xof_prefix
    (Huint32 : forall cv block counter blockLen flags,
       compress_words (map JS.ToUint32 cv) (map JS.ToUint32 block) counter blockLen flags
       = compress_words cv block counter blockLen flags)
    (keyWords : Uint32Array.t) (flags : Z) (h : Hasher.t) (outputLength : Z)
    (Hreach : Hasher.reachable keyWords flags h) (Hlen : 0 <= outputLength <= 64) :
  exists r h1 h2,
    Hasher.finalizeXof h = Returns (r, h1)
    /\ Hasher.finalize h outputLength = Returns (xof_bytes r 0 outputLength, h2).
Proof. exact (finalize_short_is_xof_prefix Huint32 keyWords flags h outputLength Hreach Hlen). Qed.

(** X20: for a key view inside its buffer (on a little-endian host: one
    that starts at a multiple of 4), [newKeyed] throws the key-length error
    exactly when the key does not have 32 bytes, and for a 32-byte key
    returns the hasher in keyed mode whose key words are the key bytes read
    as 8 little-endian words. *)
Theorem newKeyed_loads_key (key : Uint8Array.t)
    (Hin : input_ok key) (Hbytes : bytes_ok (Uint8Array.buffer key))
    (Hal : IS_LITTLE_ENDIAN = true -> (4 | Uint8Array.byteOffset key)) :
  (Uint8Array.length key = 32 ->
   Hasher.newKeyed key
   = Returns (Hasher.new_ (Uint32Array.words_of_bytes 8 (view_bytes key)) KEYED_HASH))
  /\ (Uint8Array.length key <> 32 ->
      Hasher.newKeyed key = Throws (KeyLengthError (Uint8Array.length key))).
Proof. exact (newKeyed_aligned key Hin Hbytes Hal). Qed.

End MoreProofs.

Lemma update_never_throws_aligned_witness :
  hasher_inv (Hasher.new_ (map JS.ToUint32 IV) 0)
  /\ input_ok (Uint8Array.of_list [1; 2; 3])
  /\ @aligned (Spec.env true) (Uint8Array.of_list [1; 2; 3]) 0
       (ChunkState.blockLen (Hasher.chunkState (Hasher.new_ (map JS.ToUint32 IV) 0)))
  /\ total (Hasher.new_ (map JS.ToUint32 IV) 0)
     + Uint8Array.length (Uint8Array.of_list [1; 2; 3]) <= 1024 * 2 ^ 32
  /\ exists h',
       @Hasher.update (Spec.env true) (Hasher.new_ (map JS.ToUint32 IV) 0)
         (Uint8Array.of_list [1; 2; 3]) = Returns h'
       /\ hasher_inv h'
       /\ total h' = total (Hasher.new_ (map JS.ToUint32 IV) 0)
                     + Uint8Array.length (Uint8Array.of_list [1; 2; 3])
       /\ Hasher.keyWords h' = Hasher.keyWords (Hasher.new_ (map JS.ToUint32 IV) 0)
       /\ Hasher.flags h' = Hasher.flags (Hasher.new_ (map JS.ToUint32 IV) 0).
Proof.
  assert (Hinv : hasher_inv (Hasher.new_ (map JS.ToUint32 IV) 0)) by apply new_hasher_inv.
  assert (Hin : input_ok (Uint8Array.of_list [1; 2; 3]))
    by (unfold input_ok; repeat split; vm_compute; discriminate).
  assert (Hal : @aligned (Spec.env true) (Uint8Array.of_list [1; 2; 3]) 0
                  (ChunkState.blockLen
                     (Hasher.chunkState (Hasher.new_ (map JS.ToUint32 IV) 0))))
    by (intros _; exists 0; reflexivity).
  assert (Hcap : total (Hasher.new_ (map JS.ToUint32 IV) 0)
                 + Uint8Array.length (Uint8Array.of_list [1; 2; 3]) <= 1024 * 2 ^ 32)
    by (vm_compute; discriminate).
  split; [exact Hinv|]. split; [exact Hin|]. split; [exact Hal|]. split; [exact Hcap|].
  apply (@update_never_throws_aligned (Spec.env true)); assumption.
Defined.

Lemma finalize_upto_64_is_xof_prefix_witness :
  (forall cv block counter blockLen flags,
     @compress_words (Spec.env true) (map JS.ToUint32 cv) (map JS.ToUint32 block)
       counter blockLen flags
     = @compress_words (Spec.env true) cv block counter blockLen flags)
  /\ @Hasher.reachable (Spec.env true) (map JS.ToUint32 IV) 0
       (Hasher.new_ (map JS.ToUint32 IV) 0)
  /\ 0 <= 33 <= 64
  /\ exists r h1 h2,
       @Hasher.finalizeXof (Spec.env true) (Hasher.new_ (map JS.ToUint32 IV) 0) = Returns (r, h1)
       /\ @Hasher.finalize (Spec.env true) (Hasher.new_ (map JS.ToUint32 IV) 0) 33
          = Returns (@xof_bytes (Spec.env true) r 0 33, h2).
Proof.
  assert (Huint32 : forall cv block counter blockLen flags,
            @compress_words (Spec.env true) (map JS.ToUint32 cv) (map JS.ToUint32 block)
              counter blockLen flags
            = @compress_words (Spec.env true) cv block counter blockLen flags)
    by (intros cv block counter blockLen flags; apply spec_compress_uint32).
  split; [exact Huint32|]. split; [apply Hasher.reach_new|]. split; [lia|].
  apply (@finalize_upto_64_is_xof_prefix (Spec.env true) Huint32 (map JS.ToUint32 IV) 0);
    [apply Hasher.reach_new|lia].
Defined.

Lemma newKeyed_loads_key_witness :
  input_ok (Uint8Array.of_list (map Z.of_nat (seq 0 32)))
  /\ bytes_ok (Uint8Array.buffer (Uint8Array.of_list (map Z.of_nat (seq 0 32))))
  /\ (@IS_LITTLE_ENDIAN (Spec.env true) = true ->
      (4 | Uint8Array.byteOffset (Uint8Array.of_list (map Z.of_nat (seq 0 32)))))
  /\ (Uint8Array.length (Uint8Array.of_list (map Z.of_nat (seq 0 32))) = 32 ->
      @Hasher.newKeyed (Spec.env true) (Uint8Array.of_list (map Z.of_nat (seq 0 32)))
      = Returns (Hasher.new_
                   (Uint32Array.words_of_bytes 8
                      (view_bytes (Uint8Array.of_list (map Z.of_nat (seq 0 32)))))
                   KEYED_HASH))
  /\ (Uint8Array.length (Uint8Array.of_list (map Z.of_nat (seq 0 32))) <> 32 ->
      @Hasher.newKeyed (Spec.env true) (Uint8Array.of_list (map Z.of_nat (seq 0 32)))
      = Throws (KeyLengthError
                  (Uint8Array.length (Uint8Array.of_list (map Z.of_nat (seq 0 32)))))).
Proof.
  assert (Hin : input_ok (Uint8Array.of_list (map Z.of_nat (seq 0 32))))
    by (unfold input_ok; repeat split; vm_compute; discriminate).
  assert (Hbytes : bytes_ok (Uint8Array.buffer
                               (Uint8Array.of_list (map Z.of_nat (seq 0 32)))))
    by (apply Forall_forall; intros x Hx; apply in_map_iff in Hx;
        destruct Hx as [i [Ei Hi]]; apply in_seq in Hi; cbn [Uint8Array.buffer] in *; lia).
  assert (Hal : @IS_LITTLE_ENDIAN (Spec.env true) = true ->
                (4 | Uint8Array.byteOffset (Uint8Array.of_list (map Z.of_nat (seq 0 32)))))
    by (intros _; exists 0; reflexivity).
  split; [exact Hin|]. split; [exact Hbytes|]. split; [exact Hal|].
  apply (@newKeyed_loads_key (Spec.env true)); assumption.
Defined.
(** ** The message schedule *)

(** C7: for every round [r] in 0..6, the message-word indices the eight G
    applications of the round consume, in order, are sigma applied [r] times
    to the identity order; they are row [r] of the spec's table, and the
    benchmark's [computePermutations()] yields the same rows. *)
Theorem round_indices_sigma_fold (r : nat) (Hr : (r < 7)%nat) :
  Schedule.round_indices r = Schedule.sigma_fold r
  /\ Schedule.round_indices r = nth r Spec.SCHEDULE []
  /\ nth r Schedule.computePermutations [] = Schedule.sigma_fold r.
Proof.
  do 7 (destruct r as [|r]; [vm_compute; repeat split; reflexivity|]).
  lia.
Qed.

Lemma round_indices_sigma_fold_witness :
  (3 < 7)%nat
  /\ Schedule.round_indices 3 = [10; 7; 12; 9; 14; 3; 13; 15; 4; 0; 11; 2; 5; 8; 1; 6]%nat.
Proof.
  split; [lia|].
  rewrite (proj1 (round_indices_sigma_fold 3 ltac:(lia))).
  reflexivity.
Defined.

(** ** Known answers *)

(** C8: hashing the empty input in plain mode makes exactly one call of the
    compression function, on the all-zero block with key words IV, counter 0,
    block length 0 and flags CHUNK_START | CHUNK_END | ROOT, and the 32-byte
    digest is af1349b9...3262; the incremental hasher produces the same
    digest from the same single root compression. *)
Theorem empty_input_one_compression (le simd : bool)
    (hashSimd : Uint8Array.t -> Z -> OneShot.M (list Z)) :
  @OneShot.hash (Spec.env le) simd hashSimd (Uint8Array.of_list []) 32 []
    = Returns
        (bytes_of_hex "af1349b9f5f9a1a6a0404dea36dcc9499bcb25c9adc112b7cc9a93cae41f3262",
         [OneShot.mkCall IV (repeat 0 16) false 0 0 11])
  /\ JS.bor (JS.bor CHUNK_START CHUNK_END) ROOT = 11
  /\ fst (ChunkState.output (Hasher.chunkState Hasher.new))
       = ChunkState.mkOutput IV (repeat 0 16) 0 0 (JS.bor CHUNK_START CHUNK_END)
  /\ hasher_digest (Spec.env le) [] 32
       = Returns
           (bytes_of_hex "af1349b9f5f9a1a6a0404dea36dcc9499bcb25c9adc112b7cc9a93cae41f3262").
Proof.
  destruct le; vm_compute; repeat split; reflexivity.
Qed.

(** ** Finalization and the accumulator *)

(** C1, at the input of 1025 pattern bytes: the first [finalize] returns the
    BLAKE3 digest and leaves the stack length at 0 where it was 1, so the
    second [finalize] on the same hasher returns another digest; and an
    [update] of three more bytes made after a [finalize] leads to another
    digest than the same [update] made without it. *)
Theorem finalize_twice_differs (le : bool) :
  match finalize_twice (Spec.env le) (pattern 1025) 32 with
  | Returns (d1, d2, len_before, len_after) =>
      d1 = bytes_of_hex "d00278ae47eb27b34faecf67b4fe263f82d5412916c1ffd97c8cb7fb814b8444"
      /\ d2 <> d1 /\ len_before = 1 /\ len_after = 0
  | _ => False
  end
  /\ match finalize_between (Spec.env le) (pattern 1025) [1; 2; 3] 32,
          hasher_digest2 (Spec.env le) (pattern 1025) [1; 2; 3] 32 with
     | Returns d, Returns d' => d <> d'
     | _, _ => False
     end.
Proof.
  destruct le; vm_compute; repeat split; try reflexivity; discriminate.
Qed.

(** C3, at the input of 1025 pattern bytes and 65 output bytes: [finalize(65)]
    does not return the first 65 bytes of the XOF stream of an identically
    prepared hasher; the stream starts with the BLAKE3 digest. *)
Theorem finalize_65_differs_from_xof (le : bool) :
  match hasher_digest (Spec.env le) (pattern 1025) 65,
        hasher_xof (Spec.env le) (pattern 1025) 65 with
  | Returns d, Returns x =>
      d <> firstn 65 x
      /\ firstn 32 x
         = bytes_of_hex "d00278ae47eb27b34faecf67b4fe263f82d5412916c1ffd97c8cb7fb814b8444"
      /\ firstn 32 d <> firstn 32 x
  | _, _ => False
  end.
Proof.
  destruct le; vm_compute; repeat split; try reflexivity; discriminate.
Qed.

(** C4, at A = one byte and B = 127 bytes on a little-endian host, for any
    compression function: the second [update] throws RangeError, while a
    single [update] of the 128 bytes returns. *)
Theorem split_update_throws (cw : list Z -> list Z -> Z -> Z -> Z -> list Z) :
  hasher_digest2 (env_of true cw) [0] (repeat 0 127) 32 = Throws RangeError
  /\ returned (hasher_digest (env_of true cw) ([0] ++ repeat 0 127) 32) = true.
Proof.
  split; vm_compute; reflexivity.
Qed.

(** C6, at a 32-byte key that is a view at byte offset 1 of its buffer, on a
    little-endian host: [newKeyed] throws RangeError although the key has 32
    bytes. *)
Theorem newKeyed_unaligned_key_throws (cw : list Z -> list Z -> Z -> Z -> Z -> list Z) :
  Uint8Array.length (Uint8Array.mk (repeat 7 33) 1 32) = KEY_LEN
  /\ @Hasher.newKeyed (env_of true cw) (Uint8Array.mk (repeat 7 33) 1 32)
     = Throws RangeError.
Proof.
  split; vm_compute; reflexivity.
Qed.

(** C10, at the empty input and 65 output bytes on a little-endian host, for
    any compression function: the one-shot [hash] throws RangeError, while
    the hasher returns 65 bytes. *)
Theorem hash_65_throws (cw : list Z -> list Z -> Z -> Z -> Z -> list Z) (simd : bool)
    (hashSimd : Uint8Array.t -> Z -> OneShot.M (list Z)) :
  @OneShot.hash (env_of true cw) simd hashSimd (Uint8Array.of_list []) 65 []
    = Throws RangeError
  /\ match hasher_digest (env_of true cw) [] 65 with
     | Returns d => List.length d = 65%nat
     | _ => False
     end.
Proof.
  split; vm_compute; reflexivity.
Qed.

(** C2 fails on the code in two ways.  At chunk number 2^32: on a hasher
    that [update] produced from a new one, with [2^32 - 1] chunks pushed and
    32 entries on the stack, the push of the next chunk never returns, its
    merge loop popping the 32 entries and then popping at stack length 0.
    And after [finalize], for any compression function: [update] of 2048
    bytes leaves one chunk pushed and one entry, [finalize(32)] leaves
    the chunk count at 1 and the stack length at 0 where [popcount 1 = 1],
    and the next [update] pops at stack length 0 and throws RangeError. *)
Theorem cvStack_popcount_broken (le : bool)
    (cw : list Z -> list Z -> Z -> Z -> Z -> list Z) :
  (exists h,
     @Hasher.reachable (Spec.env true) IV 0 h
     /\ ChunkState.chunkCounter (Hasher.chunkState h) = 2 ^ 32 - 1
     /\ Hasher.cvStackLen h = 32 /\ popcount (2 ^ 32 - 1) = 32
     /\ @Hasher.rollChunk (Spec.env true) h = OutOfFuel
     /\ @Hasher.update (Spec.env true) h (Uint8Array.of_list [0]) = OutOfFuel
     /\ nth 32 (@Hasher.pops (Spec.env true) 33 (@Hasher.roll_start (Spec.env true) h)) 1 = 0)
  /\ ChunkState.chunkCounter (Hasher.chunkState (hasher_after (env_of le cw) (pattern 2048))) = 1
  /\ Hasher.cvStackLen (hasher_after (env_of le cw) (pattern 2048)) = 1
  /\ match hasher_after_finalize (env_of le cw) (pattern 2048) 32 with
     | Returns h =>
         ChunkState.chunkCounter (Hasher.chunkState h) = 1
         /\ popcount 1 = 1
         /\ Hasher.cvStackLen h = 0
         /\ @Hasher.pops (env_of le cw) 33 (@Hasher.roll_start (env_of le cw) h) = [0]
         /\ @Hasher.update (env_of le cw) h (Uint8Array.of_list [0]) = Throws RangeError
     | _ => False
     end.
Proof.
  split.
  - destruct chunk_4294967296_is_never_pushed as [h [R [HN [H32 [Hroll [Hupd Hpop]]]]]].
    exists h. repeat split; assumption.
  - destruct le; vm_compute; repeat split; reflexivity.
Qed.

(** C5, at 1025 pattern bytes, on a hasher on which [finalize(32)] was
    called before: the reader that [finalizeXof] returns starts at counter 1
    and not 0, so the 8 bytes it reads first are not the bytes at offsets
    0..7 of the stream of its seed (compression with counter [o / 64]) but
    those at offsets 64..71, and they are not the first 8 bytes of the
    stream that a reader of an identically updated hasher yields, which are
    the first bytes of the BLAKE3 digest. *)
Theorem xof_after_finalize_is_shifted (le : bool) :
  match xof_after_finalize (Spec.env le) (pattern 1025) 32 8,
        hasher_xof (Spec.env le) (pattern 1025) 8 with
  | Returns (r, out), Returns out0 =>
      XofReader.counter r = 1
      /\ out <> @xof_bytes (Spec.env le) r 0 8
      /\ out = @xof_bytes (Spec.env le) r 64 8
      /\ out <> out0
      /\ out0 = firstn 8 (bytes_of_hex
                            "d00278ae47eb27b34faecf67b4fe263f82d5412916c1ffd97c8cb7fb814b8444")
  | _, _ => False
  end.
Proof.
  destruct le; vm_compute; repeat split; try reflexivity; discriminate.
Qed.

(** ** Runs of the model *)

(** Rows 2 and 3 of the spec's table of known answers: one zero byte, and
    1024 bytes of the 251-pattern. *)
Example known_answers_rows_2_3 (le : bool) :
  hasher_digest (Spec.env le) [0] 32
    = Returns
        (bytes_of_hex "2d3adedff11b61f14c886e35afa036736dcd87a74d27b5c1510225d0f592e213")
  /\ hasher_digest (Spec.env le) (pattern 1024) 32
     = Returns
         (bytes_of_hex "42214739f095a406f3fc83deb889744ac00df831c10daa55189b5d121c855af7").
Proof.
  destruct le; vm_compute; split; reflexivity.
Qed.

(** Where the second [update] returns, the split does not show: one byte and
    127 bytes on a big-endian host, and 64 bytes and 64 bytes on a
    little-endian host. *)
Example split_update_agrees :
  hasher_digest2 (Spec.env false) [0] (repeat 0 127) 32
    = hasher_digest (Spec.env false) ([0] ++ repeat 0 127) 32
  /\ hasher_digest2 (Spec.env true) (firstn 64 (pattern 128)) (skipn 64 (pattern 128)) 32
     = hasher_digest (Spec.env true) (pattern 128) 32.
Proof.
  split; vm_compute; reflexivity.
Qed.

(** The scalar one-shot path and the hasher return the same 32 bytes on an
    input of one byte, and on one of two chunks on a little-endian host. *)
Example one_shot_agrees_with_hasher (le : bool) :
  one_shot (Spec.env le) [0] 32 = hasher_digest (Spec.env le) [0] 32
  /\ one_shot (Spec.env true) (pattern 1025) 32
     = hasher_digest (Spec.env true) (pattern 1025) 32.
Proof.
  split; [destruct le; vm_compute; reflexivity|vm_compute; reflexivity].
Qed.
